(** * DAG handler of the report service: a shallow embedding

    Embeds [handlers/dag_handler.py] (class [DAGHandler]) and the three
    pydantic models it works on ([DAGNode], [DAGEdge], [DAGElement] of
    [models/config_models.py]).

    Conventions of the embedding:
    - a Python [dict] is an insertion-ordered association list ([PyDict]);
    - Python [int] is [Z]; Python [float] is idealised as an exact rational
      [Q] (the two float operations that are not rational, [** 0.5] and
      [random.random()], are parameters of the layout section);
    - a call either returns, raises, or exhausts the fuel of a [while]
      loop: the [result] type;
    - Python [str] is a Rocq [string]: a sequence of bytes holding the
      UTF-8 encoding of the text. *)

From Stdlib Require Import List String Ascii ZArith QArith Qround Lia Lqa Permutation Bool Arith.
Import ListNotations.
Close Scope Q_scope.
Open Scope string_scope.
Open Scope list_scope.

Set Implicit Arguments.

(** ** Outcomes of a call *)

Inductive exn : Type :=
| KeyError (key : string)
| ValueError
| TypeError
| ZeroDivisionError.

Inductive result (A : Type) : Type :=
| Ok (a : A)
| Raise (e : exn)
| OutOfFuel.

Arguments Ok {A} a.
Arguments Raise {A} e.
Arguments OutOfFuel {A}.

Definition bind {A B : Type} (c : result A) (k : A -> result B) : result B :=
  match c with
  | Ok a => k a
  | Raise e => Raise e
  | OutOfFuel => OutOfFuel
  end.

Notation "x <- c ;; k" := (bind c (fun x => k))
  (at level 61, c at next level, right associativity).
Notation "' p <- c ;; k" := (bind c (fun x => let p := x in k))
  (at level 61, p pattern, c at next level, right associativity).

(** A [for] loop whose body may raise. *)
Fixpoint for_each {A S : Type} (body : S -> A -> result S) (l : list A) (s : S)
  : result S :=
  match l with
  | [] => Ok s
  | a :: l' => s' <- body s a ;; for_each body l' s'
  end.

(** ** Python dictionaries with string keys *)

Module PyDict.

Definition t (V : Type) : Type := list (string * V).

Definition empty {V : Type} : t V := [].

Fixpoint get {V : Type} (d : t V) (k : string) : option V :=
  match d with
  | [] => None
  | (k', v) :: d' => if String.eqb k' k then Some v else get d' k
  end.

(** [d[k] = v]: an existing key keeps its place, a new key goes last. *)
Fixpoint set {V : Type} (d : t V) (k : string) (v : V) : t V :=
  match d with
  | [] => [(k, v)]
  | (k', v') :: d' =>
      if String.eqb k' k then (k', v) :: d' else (k', v') :: set d' k v
  end.

(** [d[k]] as an expression. *)
Definition getitem {V : Type} (d : t V) (k : string) : result V :=
  match get d k with
  | Some v => Ok v
  | None => Raise (KeyError k)
  end.

Definition mem {V : Type} (d : t V) (k : string) : bool :=
  match get d k with Some _ => true | None => false end.

Definition keys {V : Type} (d : t V) : list string := map fst d.
Definition values {V : Type} (d : t V) : list V := map snd d.
Definition items {V : Type} (d : t V) : list (string * V) := d.

End PyDict.

(** The same with integer keys ([nodes_at_level] of the hierarchical layout). *)
Module PyIntDict.

Definition t (V : Type) : Type := list (Z * V).

Fixpoint get {V : Type} (d : t V) (k : Z) : option V :=
  match d with
  | [] => None
  | (k', v) :: d' => if Z.eqb k' k then Some v else get d' k
  end.

Fixpoint set {V : Type} (d : t V) (k : Z) (v : V) : t V :=
  match d with
  | [] => [(k, v)]
  | (k', v') :: d' =>
      if Z.eqb k' k then (k', v) :: d' else (k', v') :: set d' k v
  end.

Definition getitem {V : Type} (d : t V) (k : Z) : result V :=
  match get d k with
  | Some v => Ok v
  | None => Raise (KeyError "")
  end.

End PyIntDict.

(** ** The data model *)

Module DAGNode.
Record t : Type := mk {
  id : string;
  name : string;
  description : option string;
  status : option string;
  timestamp : option string;
  result : option string;  (* opaque payload, never read by the handler *)
  position : option (PyDict.t Q)
}.
End DAGNode.

Module DAGEdge.
Record t : Type := mk {
  from_node : string;
  to_node : string;
  label : option string
}.
End DAGEdge.

Module DAGElement.
Record t : Type := mk {
  type : string;
  title : string;
  description : option string;
  nodes : list DAGNode.t;
  edges : list DAGEdge.t;
  layout : option string
}.
End DAGElement.

(** ** Numbers

    [a / b] on Python numbers: true division, raising on a zero divisor. *)
Definition truediv (a b : Q) : result Q :=
  if Qeq_bool b 0 then Raise ZeroDivisionError else Ok (a / b)%Q.

Definition len {A : Type} (l : list A) : Z := Z.of_nat (List.length l).

(** [sum(d.values())] *)
Definition sum_values (d : PyDict.t Z) : Z :=
  fold_left Z.add (PyDict.values d) 0%Z.

(** Python membership [x in l] on a list of strings. *)
Definition str_in (x : string) (l : list string) : bool :=
  existsb (String.eqb x) l.

(** [next((n for n in nodes if n.id == node_id), None)] *)
Definition find_node (nodes : list DAGNode.t) (node_id : string) : option DAGNode.t :=
  find (fun n => String.eqb (DAGNode.id n) node_id) nodes.

(** ** Adjacency and in-degree tables

    The first two loops of [_check_acyclic] and of [get_topological_order]
    are the same text. *)

Definition tables : Type := (PyDict.t (list string) * PyDict.t Z)%type.

Definition init_tables (nodes : list DAGNode.t) : tables :=
  fold_left
    (fun (tb : tables) node =>
       let '(adjacency, in_degree) := tb in
       (PyDict.set adjacency (DAGNode.id node) [],
        PyDict.set in_degree (DAGNode.id node) 0%Z))
    nodes (PyDict.empty, PyDict.empty).

Definition add_edge (tb : tables) (edge : DAGEdge.t) : result tables :=
  let '(adjacency, in_degree) := tb in
  targets <- PyDict.getitem adjacency (DAGEdge.from_node edge) ;;
  let adjacency :=
    PyDict.set adjacency (DAGEdge.from_node edge) (targets ++ [DAGEdge.to_node edge]) in
  d <- PyDict.getitem in_degree (DAGEdge.to_node edge) ;;
  Ok (adjacency, PyDict.set in_degree (DAGEdge.to_node edge) (d + 1)%Z).

Definition build_tables (nodes : list DAGNode.t) (edges : list DAGEdge.t)
  : result tables :=
  for_each add_edge edges (init_tables nodes).

(** ** [DAGHandler._check_acyclic] *)

(** Body of [for neighbor in adjacency[current]]. *)
Definition relax_id (st : PyDict.t Z * list string) (neighbor : string)
  : result (PyDict.t Z * list string) :=
  let '(in_degree, queue) := st in
  d <- PyDict.getitem in_degree neighbor ;;
  let in_degree := PyDict.set in_degree neighbor (d - 1)%Z in
  if (d - 1 =? 0)%Z then Ok (in_degree, queue ++ [neighbor])
  else Ok (in_degree, queue).

(** [while queue: ...]; every round pops one element. *)
Fixpoint acyclic_loop (fuel : nat) (adjacency : PyDict.t (list string))
    (in_degree : PyDict.t Z) (queue : list string) (processed_count : nat)
  : result nat :=
  match queue with
  | [] => Ok processed_count
  | current :: queue =>
      match fuel with
      | O => OutOfFuel
      | S fuel =>
          targets <- PyDict.getitem adjacency current ;;
          '(in_degree, queue) <- for_each relax_id targets (in_degree, queue) ;;
          acyclic_loop fuel adjacency in_degree queue (processed_count + 1)
      end
  end.

(** Every round of either Kahn loop takes one element off the queue, and an
    element enters the queue only at the start or when an in-degree drops
    to exactly zero, so [2 * len(nodes)] rounds are never exceeded
    ([get_topological_order_stops], [check_acyclic_stops]). *)
Definition kahn_fuel (nodes : list DAGNode.t) : nat := 2 * List.length nodes.

Definition _check_acyclic (nodes : list DAGNode.t) (edges : list DAGEdge.t)
  : result bool :=
  '(adjacency, in_degree) <- build_tables nodes edges ;;
  let queue :=
    map fst (filter (fun kv => (snd kv =? 0)%Z) (PyDict.items in_degree)) in
  processed_count <- acyclic_loop (kahn_fuel nodes) adjacency in_degree queue 0 ;;
  Ok (processed_count =? List.length nodes)%nat.

(** ** [DAGHandler.get_topological_order] *)

(** Body of [for neighbor_id in adjacency[current.id]]. *)
Definition relax (nodes : list DAGNode.t) (st : PyDict.t Z * list DAGNode.t)
    (neighbor_id : string) : result (PyDict.t Z * list DAGNode.t) :=
  let '(in_degree, queue) := st in
  d <- PyDict.getitem in_degree neighbor_id ;;
  let in_degree := PyDict.set in_degree neighbor_id (d - 1)%Z in
  if (d - 1 =? 0)%Z then
    match find_node nodes neighbor_id with
    | Some neighbor_node => Ok (in_degree, queue ++ [neighbor_node])
    | None => Ok (in_degree, queue)
    end
  else Ok (in_degree, queue).

Fixpoint topo_loop (fuel : nat) (nodes : list DAGNode.t)
    (adjacency : PyDict.t (list string)) (in_degree : PyDict.t Z)
    (queue topo_order : list DAGNode.t) : result (list DAGNode.t) :=
  match queue with
  | [] => Ok topo_order
  | current :: queue =>
      match fuel with
      | O => OutOfFuel
      | S fuel =>
          let topo_order := topo_order ++ [current] in
          targets <- PyDict.getitem adjacency (DAGNode.id current) ;;
          '(in_degree, queue) <- for_each (relax nodes) targets (in_degree, queue) ;;
          topo_loop fuel nodes adjacency in_degree queue topo_order
      end
  end.

(** [in_degree[node.id] == 0] inside the list comprehension. *)
Definition zero_in_degree (in_degree : PyDict.t Z) (node : DAGNode.t) : result bool :=
  d <- PyDict.getitem in_degree (DAGNode.id node) ;; Ok (d =? 0)%Z.

(** [[x for x in l if test(x)]] with a test that may raise. *)
Fixpoint filter_r {A : Type} (test : A -> result bool) (l : list A) : result (list A) :=
  match l with
  | [] => Ok []
  | a :: l' =>
      b <- test a ;;
      r <- filter_r test l' ;;
      Ok (if b then a :: r else r)
  end.

Definition get_topological_order (dag_element : DAGElement.t)
  : result (list DAGNode.t) :=
  let nodes := DAGElement.nodes dag_element in
  '(adjacency, in_degree) <- build_tables nodes (DAGElement.edges dag_element) ;;
  queue <- filter_r (zero_in_degree in_degree) nodes ;;
  topo_loop (kahn_fuel nodes) nodes adjacency in_degree queue [].


(** ** [DAGHandler.convert_to_mermaid] and its helpers *)

Definition dquote : ascii := "034"%char.
Definition squote : ascii := "039"%char.
Definition backslash : ascii := "092"%char.
Definition newline : ascii := "010"%char.

(** [s.replace(c, new)] for a one-character pattern [c]. *)
Fixpoint replace_char (c : ascii) (new : string) (s : string) : string :=
  match s with
  | EmptyString => EmptyString
  | String a s' =>
      if Ascii.eqb a c then (new ++ replace_char c new s')%string
      else String a (replace_char c new s')
  end.

Definition special_chars : list ascii :=
  [dquote; squote; backslash; "["; "]"; "{"; "}"; "("; ")"; "#"; "*"; "+";
   "-"; "."; "/"; ":"]%char.

Definition _escape_mermaid_text (text : string) : string :=
  fold_left
    (fun escaped_text char =>
       replace_char char (String backslash (String char EmptyString)) escaped_text)
    special_chars text.

Definition _get_node_status_style (status : option string) : string :=
  match status with
  | None | Some EmptyString => ""
  | Some status =>
      if String.eqb status "completed" then ":::success"
      else if String.eqb status "failed" then ":::danger"
      else if String.eqb status "running" then ":::warning"
      else if String.eqb status "pending" then ":::info"
      else ":::info"
  end.

(** The line appended for one node. *)
Definition node_line (node : DAGNode.t) : string :=
  let status_style := _get_node_status_style (DAGNode.status node) in
  let node_content := _escape_mermaid_text (DAGNode.name node) in
  let node_content :=
    match DAGNode.description node with
    | None | Some EmptyString => node_content
    | Some description => (node_content ++ "\n\n*" ++ description ++ "*")%string
    end in
  ("    " ++ DAGNode.id node ++ String "[" (String dquote EmptyString)
     ++ node_content ++ String dquote "]" ++ status_style)%string.

(** The line appended for one edge. *)
Definition edge_line (edge : DAGEdge.t) : string :=
  let arrow_text :=
    match DAGEdge.label edge with
    | None | Some EmptyString => ""
    | Some label => ("|" ++ label ++ "|")%string
    end in
  ("    " ++ DAGEdge.from_node edge ++ " -->" ++ arrow_text ++ " "
     ++ DAGEdge.to_node edge)%string.

Definition convert_to_mermaid (dag_element : DAGElement.t) : string :=
  let header :=
    if (len (DAGElement.nodes dag_element) <=? 10)%Z
       && (len (DAGElement.edges dag_element) <=? 15)%Z
    then "flowchart TD" else "graph TD" in
  let mermaid_lines :=
    [header] ++ map node_line (DAGElement.nodes dag_element)
             ++ map edge_line (DAGElement.edges dag_element) in
  String.concat (String newline EmptyString) mermaid_lines.

(** ** [DAGHandler.validate_dag_config]

    The handler keeps the reasons in [self.validation_errors]; the call is
    modelled as returning the verdict together with that list. *)

Definition msg_no_nodes : string := "DAG必须包含至少一个节点".
Definition msg_duplicate_id : string := "节点ID必须唯一".
Definition msg_unknown_source : string := "边引用了不存在的起始节点: ".
Definition msg_unknown_target : string := "边引用了不存在的目标节点: ".
Definition msg_cycle : string := "DAG不能包含环".

(** [set(l)], of which only the size is used. *)
Definition set_of (l : list string) : list string := nodup string_dec l.

(** The loop over the edges: the first dangling endpoint, if any. *)
Fixpoint first_dangling_edge (node_ids : list string) (edges : list DAGEdge.t)
  : option string :=
  match edges with
  | [] => None
  | edge :: edges' =>
      if negb (str_in (DAGEdge.from_node edge) node_ids)
      then Some (msg_unknown_source ++ DAGEdge.from_node edge)%string
      else if negb (str_in (DAGEdge.to_node edge) node_ids)
      then Some (msg_unknown_target ++ DAGEdge.to_node edge)%string
      else first_dangling_edge node_ids edges'
  end.

Definition validate_dag_config (dag_element : DAGElement.t)
  : result (bool * list string) :=
  let validation_errors : list string := [] in
  match DAGElement.nodes dag_element with
  | [] => Ok (false, validation_errors ++ [msg_no_nodes])
  | _ =>
      let node_ids := map DAGNode.id (DAGElement.nodes dag_element) in
      if negb (Nat.eqb (List.length node_ids) (List.length (set_of node_ids)))
      then Ok (false, validation_errors ++ [msg_duplicate_id])
      else
        match first_dangling_edge node_ids (DAGElement.edges dag_element) with
        | Some msg => Ok (false, validation_errors ++ [msg])
        | None =>
            ok <- _check_acyclic (DAGElement.nodes dag_element)
                    (DAGElement.edges dag_element) ;;
            if negb ok then Ok (false, validation_errors ++ [msg_cycle])
            else Ok (true, validation_errors)
        end
  end.

(** ** [DAGHandler.get_dag_statistics] *)

Record statistics : Type := {
  total_nodes : Z;
  total_edges : Z;
  density : Q;
  start_nodes : list string;
  end_nodes : list string;
  status_distribution : PyDict.t Z;
  avg_in_degree : Q;
  avg_out_degree : Q
}.

Definition degree_tables : Type :=
  (PyDict.t (list string) * PyDict.t Z * PyDict.t Z)%type.

Definition init_degree_tables (nodes : list DAGNode.t) : degree_tables :=
  fold_left
    (fun (tb : degree_tables) node =>
       let '(adjacency, in_degree, out_degree) := tb in
       (PyDict.set adjacency (DAGNode.id node) [],
        PyDict.set in_degree (DAGNode.id node) 0%Z,
        PyDict.set out_degree (DAGNode.id node) 0%Z))
    nodes (PyDict.empty, PyDict.empty, PyDict.empty).

Definition count_edge (tb : degree_tables) (edge : DAGEdge.t) : result degree_tables :=
  let '(adjacency, in_degree, out_degree) := tb in
  targets <- PyDict.getitem adjacency (DAGEdge.from_node edge) ;;
  let adjacency :=
    PyDict.set adjacency (DAGEdge.from_node edge) (targets ++ [DAGEdge.to_node edge]) in
  d <- PyDict.getitem in_degree (DAGEdge.to_node edge) ;;
  let in_degree := PyDict.set in_degree (DAGEdge.to_node edge) (d + 1)%Z in
  o <- PyDict.getitem out_degree (DAGEdge.from_node edge) ;;
  let out_degree := PyDict.set out_degree (DAGEdge.from_node edge) (o + 1)%Z in
  Ok (adjacency, in_degree, out_degree).

(** [node.status or "unknown"]: [None] and the empty string are falsy. *)
Definition status_or (status : option string) (default : string) : string :=
  match status with
  | Some EmptyString | None => default
  | Some s => s
  end.

Definition count_status (status_counts : PyDict.t Z) (node : DAGNode.t) : PyDict.t Z :=
  let status := status_or (DAGNode.status node) "unknown" in
  let seen := match PyDict.get status_counts status with Some c => c | None => 0%Z end in
  PyDict.set status_counts status (seen + 1)%Z.

Definition get_dag_statistics (dag_element : DAGElement.t) : result statistics :=
  let nodes := DAGElement.nodes dag_element in
  let edges := DAGElement.edges dag_element in
  '(adjacency, in_degree, out_degree) <-
    for_each count_edge edges (init_degree_tables nodes) ;;
  let status_counts := fold_left count_status nodes PyDict.empty in
  start_nodes <- filter_r (zero_in_degree in_degree) nodes ;;
  end_nodes <- filter_r (zero_in_degree out_degree) nodes ;;
  density <- truediv (inject_Z (len edges))
               (inject_Z (Z.max 1 (len nodes * (len nodes - 1)))) ;;
  avg_in_degree <-
    match nodes with
    | [] => Ok 0%Q
    | _ => truediv (inject_Z (sum_values in_degree)) (inject_Z (len nodes))
    end ;;
  avg_out_degree <-
    match nodes with
    | [] => Ok 0%Q
    | _ => truediv (inject_Z (sum_values out_degree)) (inject_Z (len nodes))
    end ;;
  Ok {| total_nodes := len nodes;
        total_edges := len edges;
        density := density;
        start_nodes := map DAGNode.id start_nodes;
        end_nodes := map DAGNode.id end_nodes;
        status_distribution := status_counts;
        avg_in_degree := avg_in_degree;
        avg_out_degree := avg_out_degree |}.

(** ** Layout

    The layout methods mutate the node objects of the graph they are given
    and return that graph. Graph objects live in a heap, a method receives
    and returns a reference, and what a method does to the object it is
    given is a function on the object's state. *)

Definition ref : Type := nat.
Definition heap : Type := ref -> DAGElement.t.

Definition store (h : heap) (r : ref) (g : DAGElement.t) : heap :=
  fun r' => if Nat.eqb r' r then g else h r'.

(** Run a mutation on the object behind [r]; the caller gets [r] back. *)
Definition in_place (mutate : DAGElement.t -> result DAGElement.t)
    (h : heap) (r : ref) : result (ref * heap) :=
  g <- mutate (h r) ;; Ok (r, store h r g).

(** [node.position = p] *)
Definition set_position (node : DAGNode.t) (p : PyDict.t Q) : DAGNode.t :=
  DAGNode.mk (DAGNode.id node) (DAGNode.name node) (DAGNode.description node)
    (DAGNode.status node) (DAGNode.timestamp node) (DAGNode.result node) (Some p).

(** The graph after its node objects were mutated. *)
Definition with_nodes (g : DAGElement.t) (nodes : list DAGNode.t) : DAGElement.t :=
  DAGElement.mk (DAGElement.type g) (DAGElement.title g) (DAGElement.description g)
    nodes (DAGElement.edges g) (DAGElement.layout g).

(** [{"x": x, "y": y}] *)
Definition xy (x y : Q) : PyDict.t Q :=
  PyDict.set (PyDict.set PyDict.empty "x" x) "y" y.

(** *** Hierarchical *)

(** The in-degree table of [_hierarchical_layout]. *)
Definition count_in_edge (in_degree : PyDict.t Z) (edge : DAGEdge.t)
  : result (PyDict.t Z) :=
  d <- PyDict.getitem in_degree (DAGEdge.to_node edge) ;;
  Ok (PyDict.set in_degree (DAGEdge.to_node edge) (d + 1)%Z).

Definition layout_in_degree (nodes : list DAGNode.t) (edges : list DAGEdge.t)
  : result (PyDict.t Z) :=
  for_each count_in_edge edges
    (fold_left (fun in_degree node => PyDict.set in_degree (DAGNode.id node) 0%Z)
       nodes PyDict.empty).

(** Body of [for edge in dag_element.edges] inside the search. *)
Definition push_child (nodes : list DAGNode.t) (current_id : string) (level : Z)
    (visited : list string) (queue : list (DAGNode.t * Z)) (edge : DAGEdge.t)
  : list (DAGNode.t * Z) :=
  if String.eqb (DAGEdge.from_node edge) current_id then
    match find_node nodes (DAGEdge.to_node edge) with
    | Some child_node =>
        if negb (str_in (DAGNode.id child_node) visited)
        then queue ++ [(child_node, (level + 1)%Z)]
        else queue
    | None => queue
    end
  else queue.

(** The breadth-first search; [visited] is the set, [node_levels] the
    dictionary. *)
Fixpoint level_loop (fuel : nat) (nodes : list DAGNode.t) (edges : list DAGEdge.t)
    (queue : list (DAGNode.t * Z)) (visited : list string)
    (node_levels : PyDict.t Z) : result (PyDict.t Z) :=
  match queue with
  | [] => Ok node_levels
  | (current_node, level) :: queue =>
      match fuel with
      | O => OutOfFuel
      | S fuel =>
          if str_in (DAGNode.id current_node) visited
          then level_loop fuel nodes edges queue visited node_levels
          else
            let visited := DAGNode.id current_node :: visited in
            let node_levels := PyDict.set node_levels (DAGNode.id current_node) level in
            let queue :=
              fold_left (push_child nodes (DAGNode.id current_node) level visited)
                edges queue in
            level_loop fuel nodes edges queue visited node_levels
      end
  end.

(** A round either drops an entry whose node was visited, or visits a new
    node and adds at most one entry per edge ([compute_levels_stops]). *)
Definition level_fuel (nodes : list DAGNode.t) (edges : list DAGEdge.t) : nat :=
  List.length nodes * (List.length edges + 2).

Definition compute_levels (nodes : list DAGNode.t) (edges : list DAGEdge.t)
  : result (PyDict.t Z) :=
  in_degree <- layout_in_degree nodes edges ;;
  start_nodes <- filter_r (zero_in_degree in_degree) nodes ;;
  level_loop (level_fuel nodes edges) nodes edges
    (map (fun node => (node, 0%Z)) start_nodes) [] PyDict.empty.

(** Body of [for node_id, level in node_levels.items()]. *)
Definition group_step (nodes_at_level : PyIntDict.t (list string))
    (item : string * Z) : PyIntDict.t (list string) :=
  let '(node_id, level) := item in
  let nodes_at_level :=
    match PyIntDict.get nodes_at_level level with
    | Some _ => nodes_at_level
    | None => PyIntDict.set nodes_at_level level []
    end in
  match PyIntDict.get nodes_at_level level with
  | Some members => PyIntDict.set nodes_at_level level (members ++ [node_id])
  | None => nodes_at_level
  end.

(** [nodes_at_level]: the identifiers of each level in discovery order. *)
Definition group_by_level (node_levels : PyDict.t Z) : PyIntDict.t (list string) :=
  fold_left group_step (PyDict.items node_levels) [].

(** [l.index(x)] *)
Fixpoint list_index (l : list string) (x : string) : result Z :=
  match l with
  | [] => Raise ValueError
  | y :: l' =>
      if String.eqb y x then Ok 0%Z
      else i <- list_index l' x ;; Ok (i + 1)%Z
  end.

(** Body of the last loop of [_hierarchical_layout]. *)
Definition place_in_level (node_levels : PyDict.t Z)
    (nodes_at_level : PyIntDict.t (list string)) (node : DAGNode.t)
  : result DAGNode.t :=
  match PyDict.get node_levels (DAGNode.id node) with
  | Some level =>
      level_nodes <- PyIntDict.getitem nodes_at_level level ;;
      index <- list_index level_nodes (DAGNode.id node) ;;
      half <- truediv (inject_Z (len level_nodes)) 2 ;;
      let x := ((inject_Z index - half) * 150)%Q in
      let y := inject_Z (level * 100) in
      Ok (set_position node (xy x y))
  | None => Ok node
  end.

(** [[f(x) for x in l]] with an [f] that may raise. *)
Fixpoint map_r {A B : Type} (f : A -> result B) (l : list A) : result (list B) :=
  match l with
  | [] => Ok []
  | a :: l' => b <- f a ;; r <- map_r f l' ;; Ok (b :: r)
  end.

Definition hierarchical_state (dag_element : DAGElement.t) : result DAGElement.t :=
  let nodes := DAGElement.nodes dag_element in
  node_levels <- compute_levels nodes (DAGElement.edges dag_element) ;;
  let nodes_at_level := group_by_level node_levels in
  nodes <- map_r (place_in_level node_levels nodes_at_level) nodes ;;
  Ok (with_nodes dag_element nodes).

Definition _hierarchical_layout (h : heap) (dag_element : ref) : result (ref * heap) :=
  in_place hierarchical_state h dag_element.

(** *** Circular *)

(** [a % 1] on a float. *)
Definition mod1 (a : Q) : Q := (a - inject_Z (Qfloor a))%Q.

Fixpoint place_on_circle (n : Z) (radius : Z) (i : Z) (nodes : list DAGNode.t)
  : result (list DAGNode.t) :=
  match nodes with
  | [] => Ok []
  | node :: rest =>
      angle <- truediv (2 * (314159 # 100000) * inject_Z i) (inject_Z n) ;;
      let x := (inject_Z radius * (12 # 10) * (1 + (3 # 10) * inject_Z n * (1 # 10))
                * ((6 # 10) + (4 # 10) * mod1 angle))%Q in
      let y := (inject_Z radius * (12 # 10) * (1 + (3 # 10) * inject_Z n * (1 # 10))
                * ((6 # 10) + (4 # 10) * mod1 (angle + (5 # 10))))%Q in
      rest <- place_on_circle n radius (i + 1) rest ;;
      Ok (set_position node (xy x y) :: rest)
  end.

Definition circular_state (dag_element : DAGElement.t) : result DAGElement.t :=
  let n := len (DAGElement.nodes dag_element) in
  let radius := Z.max 200 (n * 50) in
  nodes <- place_on_circle n radius 0 (DAGElement.nodes dag_element) ;;
  Ok (with_nodes dag_element nodes).

Definition _circular_layout (h : heap) (dag_element : ref) : result (ref * heap) :=
  in_place circular_state h dag_element.

(** *** Force-directed, and the dispatch *)

Section Layout.

(** [x ** 0.5]. Its argument is a sum of two squares, on which the float
    power returns a float. *)
Variable pow_half : Q -> Q.
(** The successive results of [random.random()]. *)
Variable random : nat -> Q.

(** [random.uniform(a, b)], the [k]-th draw. *)
Definition uniform (a b : Q) (k : nat) : Q := (a + (b - a) * random k)%Q.

(** First loop: a random position for every node. *)
Fixpoint scatter (k : nat) (nodes : list DAGNode.t) : list DAGNode.t :=
  match nodes with
  | [] => []
  | node :: rest =>
      let x := uniform (-300) 300 k in
      let y := uniform (-200) 200 (S k) in
      set_position node (xy x y) :: scatter (S (S k)) rest
  end.

(** [node.position[axis]] *)
Definition coordinate (node : DAGNode.t) (axis : string) : result Q :=
  match DAGNode.position node with
  | Some p => PyDict.getitem p axis
  | None => Raise TypeError
  end.

(** Body of [for other_node in dag_element.nodes]. *)
Definition repel (node : DAGNode.t) (force : Q * Q) (other_node : DAGNode.t)
  : result (Q * Q) :=
  let '(force_x, force_y) := force in
  if negb (String.eqb (DAGNode.id node) (DAGNode.id other_node)) then
    nx <- coordinate node "x" ;;
    ox <- coordinate other_node "x" ;;
    let dx := (nx - ox)%Q in
    ny <- coordinate node "y" ;;
    oy <- coordinate other_node "y" ;;
    let dy := (ny - oy)%Q in
    let dist := pow_half (dx * dx + dy * dy)%Q in
    if negb (Qle_bool dist 0) then
      ux <- truediv dx dist ;;
      fx <- truediv (ux * 100)%Q dist ;;
      uy <- truediv dy dist ;;
      fy <- truediv (uy * 100)%Q dist ;;
      Ok ((force_x + fx)%Q, (force_y + fy)%Q)
    else Ok (force_x, force_y)
  else Ok (force_x, force_y).

(** [node.position["x"] += force_x * 0.1] and the same for ["y"]. *)
Definition nudge (node : DAGNode.t) (force_x force_y : Q) : result DAGNode.t :=
  match DAGNode.position node with
  | Some p =>
      x <- PyDict.getitem p "x" ;;
      let p := PyDict.set p "x" (x + force_x * (1 # 10))%Q in
      y <- PyDict.getitem p "y" ;;
      let p := PyDict.set p "y" (y + force_y * (1 # 10))%Q in
      Ok (set_position node p)
  | None => Raise TypeError
  end.

(** One pass of [for node in dag_element.nodes]: the nodes before the
    current one have already moved. *)
Fixpoint sweep (moved todo : list DAGNode.t) : result (list DAGNode.t) :=
  match todo with
  | [] => Ok moved
  | node :: rest =>
      '(force_x, force_y) <- for_each (repel node) (moved ++ node :: rest) (0%Q, 0%Q) ;;
      node <- nudge node force_x force_y ;;
      sweep (moved ++ [node]) rest
  end.

(** [for _ in range(n)] *)
Fixpoint sweeps (n : nat) (nodes : list DAGNode.t) : result (list DAGNode.t) :=
  match n with
  | O => Ok nodes
  | S n' => nodes <- sweep [] nodes ;; sweeps n' nodes
  end.

Definition force_state (dag_element : DAGElement.t) : result DAGElement.t :=
  let nodes := scatter 0 (DAGElement.nodes dag_element) in
  nodes <- sweeps 5 nodes ;;
  Ok (with_nodes dag_element nodes).

Definition _force_layout (h : heap) (dag_element : ref) : result (ref * heap) :=
  in_place force_state h dag_element.

Definition optimize_dag_layout (h : heap) (dag_element : ref) (layout_type : string)
  : result (ref * heap) :=
  if String.eqb layout_type "hierarchical" then _hierarchical_layout h dag_element
  else if String.eqb layout_type "circular" then _circular_layout h dag_element
  else if String.eqb layout_type "force" then _force_layout h dag_element
  else Ok (dag_element, h).

End Layout.

(* ------------------------------------------------------------------ *)
(** * Vocabulary of the properties *)

Definition node_ids (nodes : list DAGNode.t) : list string := map DAGNode.id nodes.

(** The graph invariant of the data model: node identifiers are pairwise
    distinct and every edge endpoint names a node. *)
Definition endpoints_known (nodes : list DAGNode.t) (edges : list DAGEdge.t) : Prop :=
  forall e, In e edges ->
    In (DAGEdge.from_node e) (node_ids nodes) /\ In (DAGEdge.to_node e) (node_ids nodes).

Definition well_formed (g : DAGElement.t) : Prop :=
  NoDup (node_ids (DAGElement.nodes g)) /\
  endpoints_known (DAGElement.nodes g) (DAGElement.edges g).

(** There is an edge [a -> b]. *)
Definition edge_rel (edges : list DAGEdge.t) (a b : string) : Prop :=
  exists e, In e edges /\ DAGEdge.from_node e = a /\ DAGEdge.to_node e = b.

(** A directed path of at least one edge. *)
Inductive path (edges : list DAGEdge.t) : string -> string -> Prop :=
| path_edge a b : edge_rel edges a b -> path edges a b
| path_step a b c : edge_rel edges a b -> path edges b c -> path edges a c.

Definition acyclic (edges : list DAGEdge.t) : Prop := forall v, ~ path edges v v.
Definition has_cycle (edges : list DAGEdge.t) : Prop := exists v, path edges v v.

(** [a] stands at a strictly smaller index than [b] in [l]. *)
Definition precedes {A : Type} (l : list A) (a b : A) : Prop :=
  exists i j, i < j /\ nth_error l i = Some a /\ nth_error l j = Some b.

(** Targets of the edges leaving [u], in edge-list order. *)
Definition succs (edges : list DAGEdge.t) (u : string) : list string :=
  map DAGEdge.to_node (filter (fun e => String.eqb (DAGEdge.from_node e) u) edges).

(** Number of edges entering [v]. *)
Definition indeg (edges : list DAGEdge.t) (v : string) : nat :=
  List.length (filter (fun e => String.eqb (DAGEdge.to_node e) v) edges).

(** Number of edges leaving [v]. *)
Definition outdeg (edges : list DAGEdge.t) (v : string) : nat :=
  List.length (filter (fun e => String.eqb (DAGEdge.from_node e) v) edges).

(** Number of edges entering [v] whose source is not in [done]. *)
Definition pending (edges : list DAGEdge.t) (done : list string) (v : string) : nat :=
  List.length
    (filter (fun e => String.eqb (DAGEdge.to_node e) v
                      && negb (str_in (DAGEdge.from_node e) done)) edges).

(** Every edge into a listed identifier comes from an identifier listed
    earlier. *)
Definition sources_first (edges : list DAGEdge.t) (order : list string) : Prop :=
  forall l1 v l2 e, order = l1 ++ v :: l2 -> In e edges -> DAGEdge.to_node e = v ->
    In (DAGEdge.from_node e) l1.

(** The nodes without incoming edge, in node-list order. *)
Definition sources (nodes : list DAGNode.t) (edges : list DAGEdge.t) : list DAGNode.t :=
  filter (fun n => Nat.eqb (indeg edges (DAGNode.id n)) 0) nodes.

(** In [ts], [w] occurs after the last occurrence of [v]. *)
Definition after_last (ts : list string) (v w : string) : Prop :=
  exists l1 l2, ts = l1 ++ v :: l2 /\ ~ In v l2 /\ In w l2.

(** [x] reaches in-degree zero while [c] is processed: when the nodes
    listed before [c] are done, the edges still entering [x] are exactly
    those that come from [c], and there is at least one. *)
Definition released_by (edges : list DAGEdge.t) (order : list string) (c x : string)
  : Prop :=
  exists l1 l2, order = l1 ++ c :: l2
    /\ In x (succs edges c)
    /\ pending edges l1 x = count_occ string_dec (succs edges c) x.

(** State of the loop of [get_topological_order] between two rounds. *)
Record kahn_inv (nodes : list DAGNode.t) (edges : list DAGEdge.t)
    (in_degree : PyDict.t Z) (queue topo_order : list DAGNode.t) : Prop := {
  inv_nodup : NoDup (node_ids (topo_order ++ queue));
  inv_incl : forall n, In n (topo_order ++ queue) -> In n nodes;
  inv_degree : forall v, In v (node_ids nodes) ->
    PyDict.get in_degree v = Some (Z.of_nat (pending edges (node_ids topo_order) v));
  inv_ready : forall v, In v (node_ids nodes) ->
    (In v (node_ids (topo_order ++ queue)) <-> pending edges (node_ids topo_order) v = 0);
  inv_order : sources_first edges (node_ids topo_order);
  inv_sources : exists rest, topo_order ++ queue = sources nodes edges ++ rest;
  inv_ties : forall c v w,
    released_by edges (node_ids topo_order) c v ->
    released_by edges (node_ids topo_order) c w ->
    precedes (node_ids (topo_order ++ queue)) v w ->
    after_last (succs edges c) v w
}.

(** The claimed tie-breaking: of two nodes that reach in-degree zero while
    the same node is processed, the one earlier in the node list is output
    first. *)
Definition node_list_tie_break (nodes : list DAGNode.t) (edges : list DAGEdge.t)
    (order : list DAGNode.t) : Prop :=
  forall c v w,
    released_by edges (node_ids order) c v ->
    released_by edges (node_ids order) c w ->
    precedes (node_ids nodes) v w ->
    precedes (node_ids order) v w.

(** The dictionary that maps every key of [ks] to [v], in the order of [ks]. *)
Definition const_dict {V : Type} (ks : list string) (v : V) : PyDict.t V :=
  map (fun k => (k, v)) ks.

(** A ranking of the identifiers that every edge climbs: a certificate of
    acyclicity that can be checked by evaluation. *)
Definition climbs (rank : string -> nat) (edges : list DAGEdge.t) : bool :=
  forallb (fun e => Nat.ltb (rank (DAGEdge.from_node e)) (rank (DAGEdge.to_node e))) edges.

(** Index of the first occurrence of [x] in [l] ([length l] when absent). *)
Fixpoint index_of (l : list string) (x : string) : nat :=
  match l with
  | [] => 0
  | y :: l' => if String.eqb y x then 0 else S (index_of l' x)
  end.

(** Test graphs: nodes named by their identifier, unlabelled edges. *)
Definition plain_node (i : string) : DAGNode.t :=
  DAGNode.mk i i None (Some "pending") None None None.

Definition plain_edge (ab : string * string) : DAGEdge.t :=
  DAGEdge.mk (fst ab) (snd ab) None.

Definition plain_graph (ns : list string) (es : list (string * string)) : DAGElement.t :=
  DAGElement.mk "dag" "" None (map plain_node ns) (map plain_edge es) (Some "top-bottom").

(** Scenario A: the chain [a -> b -> c]. *)
Definition chain_abc : DAGElement.t :=
  plain_graph ["a"; "b"; "c"] [("a", "b"); ("b", "c")].

(** Scenario B: the two-cycle [a -> b -> a]. *)
Definition cycle_ab : DAGElement.t :=
  plain_graph ["a"; "b"] [("a", "b"); ("b", "a")].

(** A single node carrying a self-loop. *)
Definition loop_a : DAGElement.t := plain_graph ["a"] [("a", "a")].

(** No self-loop and no two edges with the same endpoints. *)
Definition simple_edges (edges : list DAGEdge.t) : Prop :=
  (forall e, In e edges -> DAGEdge.from_node e <> DAGEdge.to_node e)
  /\ NoDup (map (fun e => (DAGEdge.from_node e, DAGEdge.to_node e)) edges).

(** The three kinds of failure reason named by the interface description. *)
Inductive structural_reason : string -> Prop :=
| reason_duplicate_id : structural_reason msg_duplicate_id
| reason_unknown_source i : structural_reason (msg_unknown_source ++ i)%string
| reason_unknown_target i : structural_reason (msg_unknown_target ++ i)%string
| reason_cycle : structural_reason msg_cycle.

(** The reasons the code can record: the three above and the empty node
    list. *)
Definition failure_reason (msg : string) : Prop :=
  msg = msg_no_nodes \/ structural_reason msg.

Definition empty_graph : DAGElement.t := plain_graph [] [].

(** Scenario D: one isolated node. *)
Definition lone (node : DAGNode.t) : DAGElement.t :=
  DAGElement.mk "dag" "" None [node] [] (Some "top-bottom").

(** A heap that holds [g] at every address. *)
Definition heap_of (g : DAGElement.t) : heap := fun _ => g.

(** The node has a position holding exactly the two coordinates. *)
Definition placed_at (node : DAGNode.t) (x y : Q) : Prop :=
  DAGNode.position node = Some (xy x y).

Definition placed (node : DAGNode.t) : Prop := exists x y, placed_at node x y.

(** Two states of a node object that differ at most in the position. *)
Definition same_node (a b : DAGNode.t) : Prop :=
  DAGNode.id a = DAGNode.id b
  /\ DAGNode.name a = DAGNode.name b
  /\ DAGNode.description a = DAGNode.description b
  /\ DAGNode.status a = DAGNode.status b
  /\ DAGNode.timestamp a = DAGNode.timestamp b
  /\ DAGNode.result a = DAGNode.result b.

(** Two states of a graph object that differ at most in node positions. *)
Definition same_but_positions (g g' : DAGElement.t) : Prop :=
  DAGElement.type g = DAGElement.type g'
  /\ DAGElement.title g = DAGElement.title g'
  /\ DAGElement.description g = DAGElement.description g'
  /\ DAGElement.edges g = DAGElement.edges g'
  /\ DAGElement.layout g = DAGElement.layout g'
  /\ Forall2 same_node (DAGElement.nodes g) (DAGElement.nodes g').

(** The layout policies the dispatch knows. *)
Definition known_policy (layout_type : string) : Prop :=
  layout_type = "hierarchical" \/ layout_type = "circular" \/ layout_type = "force".

(** Number of node objects whose identifier the search has not visited. *)
Definition unvisited (nodes : list DAGNode.t) (visited : list string) : nat :=
  List.length (filter (fun n => negb (str_in (DAGNode.id n) visited)) nodes).

(** Every edge points at a node of the graph. *)
Definition targets_known (g : DAGElement.t) : Prop :=
  forall e, In e (DAGElement.edges g) ->
    In (DAGEdge.to_node e) (node_ids (DAGElement.nodes g)).

(** A graph whose only node has brackets in its display name. *)
Definition bracket_node : DAGNode.t :=
  DAGNode.mk "n1" "load[0]" None (Some "running") None None None.

Definition bracket_graph : DAGElement.t :=
  DAGElement.mk "dag" "" None [bracket_node] [] None.

(** Two successors of [a], listed in the edge list against node-list order. *)
Definition fork_acb : DAGElement.t :=
  plain_graph ["a"; "b"; "c"] [("a", "c"); ("a", "b")].


(** Number of entries of the in-degree table that are still positive. *)
Definition positives (in_degree : PyDict.t Z) : nat :=
  List.length (filter (fun kv => (0 <? snd kv)%Z) in_degree).

(** Duplicated identifiers: the cycle [y -> a -> y] goes unnoticed by
    [get_topological_order], whose queue starts with both nodes [x]. *)
Definition twice_x : DAGElement.t :=
  plain_graph ["x"; "x"; "y"; "a"] [("x", "y"); ("y", "a"); ("a", "y")].

(* ------------------------------------------------------------------ *)
(** * The rest of the handler *)

(** ** [DAGHandler.generate_execution_order] *)

Module ExecutionStep.
Record t : Type := mk {
  step : Z;
  node_id : string;
  node_name : string;
  dependencies : list string;
  status : string
}.
End ExecutionStep.

(** [[edge.label for edge in edges if edge.to_node == node_id and edge.label]] *)
Definition dependencies_of (edges : list DAGEdge.t) (node_id : string) : list string :=
  flat_map
    (fun edge =>
       if String.eqb (DAGEdge.to_node edge) node_id then
         match DAGEdge.label edge with
         | None | Some EmptyString => []
         | Some label => [label]
         end
       else [])
    edges.

(** [for i, node in enumerate(topo_order)], counting from [i]. *)
Fixpoint number_steps (edges : list DAGEdge.t) (i : Z) (topo_order : list DAGNode.t)
  : list ExecutionStep.t :=
  match topo_order with
  | [] => []
  | node :: rest =>
      ExecutionStep.mk (i + 1) (DAGNode.id node) (DAGNode.name node)
        (dependencies_of edges (DAGNode.id node))
        (status_or (DAGNode.status node) "pending")
      :: number_steps edges (i + 1) rest
  end.

(** The start nodes are worked out when none are passed, and then not
    used; their in-degree table is built by the same two loops as the one
    of the hierarchical layout. *)
Definition generate_execution_order (dag_element : DAGElement.t)
    (start_nodes : option (list string)) : result (list ExecutionStep.t) :=
  let nodes := DAGElement.nodes dag_element in
  let edges := DAGElement.edges dag_element in
  topo_order <- get_topological_order dag_element ;;
  start_nodes <-
    match start_nodes with
    | Some (s :: l) => Ok (s :: l)
    | Some [] | None =>
        in_degree <- layout_in_degree nodes edges ;;
        starts <- filter_r (zero_in_degree in_degree) nodes ;;
        Ok (map DAGNode.id starts)
    end ;;
  Ok (number_steps edges 0 topo_order).

(** [a], [a + 1], ..., [a + n - 1] *)
Fixpoint count_from (a : Z) (n : nat) : list Z :=
  match n with
  | O => []
  | S n' => a :: count_from (a + 1) n'
  end.

(** [v] lies on a cycle or downstream of one. *)
Definition behind_cycle (edges : list DAGEdge.t) (v : string) : Prop :=
  exists c, path edges c c /\ (c = v \/ path edges c v).

(** Number of nodes counted under [key] in the status histogram. *)
Definition with_status (nodes : list DAGNode.t) (key : string) : nat :=
  List.length
    (filter (fun n => String.eqb (status_or (DAGNode.status n) "unknown") key) nodes).

(** [d.get(k, 0)] *)
Definition count_at (d : PyDict.t Z) (k : string) : Z :=
  match PyDict.get d k with Some c => c | None => 0%Z end.

(** The nodes without outgoing edge, in node-list order. *)
Definition sinks (nodes : list DAGNode.t) (edges : list DAGEdge.t) : list DAGNode.t :=
  filter (fun n => Nat.eqb (outdeg edges (DAGNode.id n)) 0) nodes.

(** ** Reading escaped text back *)

Definition is_quote (c : ascii) : bool := Ascii.eqb c dquote || Ascii.eqb c squote.

Definition is_special (c : ascii) : bool := existsb (Ascii.eqb c) special_chars.

(** Number of characters of [s] that satisfy [p]. *)
Fixpoint count_chars (p : ascii -> bool) (s : string) : nat :=
  match s with
  | EmptyString => 0
  | String a s' => (if p a then 1 else 0) + count_chars p s'
  end.

(** The reader that undoes [_escape_mermaid_text]: two backslashes and a
    quote stand for the quote, a backslash and another character for that
    character. The handler has no such function; it serves to show that
    escaping loses nothing. *)
Fixpoint unescape (s : string) : string :=
  match s with
  | EmptyString => EmptyString
  | String a rest =>
      if Ascii.eqb a backslash then
        match rest with
        | EmptyString => String a EmptyString
        | String a2 rest2 =>
            if Ascii.eqb a2 backslash then
              match rest2 with
              | EmptyString => String backslash EmptyString
              | String a3 rest3 =>
                  if is_quote a3 then String a3 (unescape rest3)
                  else String backslash (unescape rest2)
              end
            else String a2 (unescape rest2)
        end
      else String a (unescape rest)
  end.

(** ** Reading the layouts *)

(** The factor both coordinates of [_circular_layout] share. *)
Definition circle_scale (n : Z) : Q :=
  (inject_Z (Z.max 200 (n * 50)) * (12 # 10) * (1 + (3 # 10) * inject_Z n * (1 # 10)))%Q.

(** A walk of exactly [k] edges. *)
Inductive walk (edges : list DAGEdge.t) : nat -> string -> string -> Prop :=
| walk_here v : walk edges 0 v v
| walk_step k a b c : edge_rel edges a b -> walk edges k b c -> walk edges (S k) a c.

(** [v] is [k] edges away from a node that no edge enters. *)
Definition reached_in (nodes : list DAGNode.t) (edges : list DAGEdge.t)
    (k : nat) (v : string) : Prop :=
  exists s, In s (sources nodes edges) /\ walk edges k (DAGNode.id s) v.

(** [k] is the distance of [v] from the nearest node that no edge enters. *)
Definition nearest (nodes : list DAGNode.t) (edges : list DAGEdge.t)
    (k : nat) (v : string) : Prop :=
  reached_in nodes edges k v /\ forall j, reached_in nodes edges j v -> k <= j.

(** The entries one round of the search appends to the queue. *)
Definition kids (nodes : list DAGNode.t) (edges : list DAGEdge.t) (current_id : string)
    (level : Z) (visited : list string) : list (DAGNode.t * Z) :=
  flat_map (push_child nodes current_id level visited []) edges.

(** [v] is visited, or an entry of the queue whose node is not visited
    leads to [v] with [k] edges in all. *)
Definition covered (edges : list DAGEdge.t) (queue : list (DAGNode.t * Z))
    (visited : list string) (k : Z) (v : string) : Prop :=
  In v visited
  \/ exists n l j, In (n, l) queue /\ ~ In (DAGNode.id n) visited
                   /\ walk edges j (DAGNode.id n) v /\ (l + Z.of_nat j <= k)%Z.

(** State of the search of [_hierarchical_layout] between two rounds. *)
Record bfs_inv (nodes : list DAGNode.t) (edges : list DAGEdge.t)
    (queue : list (DAGNode.t * Z)) (visited : list string)
    (node_levels : PyDict.t Z) : Prop := {
  bfs_keys : forall v, In v visited <-> exists l, PyDict.get node_levels v = Some l;
  bfs_queue : forall n l, In (n, l) queue ->
    In n nodes /\ exists k, l = Z.of_nat k /\ reached_in nodes edges k (DAGNode.id n);
  bfs_exact : forall v l, PyDict.get node_levels v = Some l ->
    exists k, l = Z.of_nat k /\ nearest nodes edges k v;
  bfs_blocks : exists L q1 q2, queue = q1 ++ q2
    /\ (forall p, In p q1 -> snd p = L) /\ (forall p, In p q2 -> snd p = (L + 1)%Z);
  bfs_behind : forall v l p, PyDict.get node_levels v = Some l -> In p queue ->
    (l <= snd p)%Z;
  bfs_sources : forall k v, reached_in nodes edges k v ->
    covered edges queue visited (Z.of_nat k) v;
  bfs_closed : forall u l j v, PyDict.get node_levels u = Some l -> walk edges j u v ->
    covered edges queue visited (l + Z.of_nat j) v
}.

(** What the last loop of [_hierarchical_layout] does to a node: nothing,
    or a position in the row of its level. *)
Definition row_placed (node_levels : PyDict.t Z) (node node' : DAGNode.t) : Prop :=
  (PyDict.get node_levels (DAGNode.id node) = None /\ node' = node)
  \/ exists level level_nodes index,
       PyDict.get node_levels (DAGNode.id node) = Some level
       /\ PyIntDict.get (group_by_level node_levels) level = Some level_nodes
       /\ list_index level_nodes (DAGNode.id node) = Ok index
       /\ node' = set_position node
                    (xy ((inject_Z index - inject_Z (len level_nodes) / 2) * 150)%Q
                        (inject_Z (level * 100))).

(** Scenario A with a position left on node [b] by an earlier layout. *)
Definition chain_abc_moved : DAGElement.t :=
  with_nodes chain_abc
    [plain_node "a"; set_position (plain_node "b") (xy 7 9); plain_node "c"].
(* ------------------------------------------------------------------ *)
(** * Properties *)

(** ** Dictionaries *)

Module PyDictFacts.
Import PyDict.

Lemma get_set_eq {V : Type} (d : t V) k v : get (set d k v) k = Some v.
Proof.
  induction d as [|[k' v'] d IH]; simpl.
  - now rewrite String.eqb_refl.
  - destruct (String.eqb k' k) eqn:E; simpl; rewrite E; auto.
Qed.

Lemma get_set_neq {V : Type} (d : t V) k k' v :
  k <> k' -> get (set d k v) k' = get d k'.
Proof.
  intros Hne. induction d as [|[k0 v0] d IH]; simpl.
  - destruct (String.eqb k k') eqn:E; auto.
    apply String.eqb_eq in E. contradiction.
  - destruct (String.eqb k0 k) eqn:E; simpl.
    + apply String.eqb_eq in E. subst k0.
      destruct (String.eqb k k') eqn:E'; auto.
      apply String.eqb_eq in E'. contradiction.
    + now rewrite IH.
Qed.

Lemma get_set {V : Type} (d : t V) k k' v :
  get (set d k v) k' = if String.eqb k k' then Some v else get d k'.
Proof.
  destruct (String.eqb k k') eqn:E.
  - apply String.eqb_eq in E. subst. apply get_set_eq.
  - apply String.eqb_neq in E. now apply get_set_neq.
Qed.

Lemma get_some_in_keys {V : Type} (d : t V) k v :
  get d k = Some v -> In k (keys d).
Proof.
  induction d as [|[k' v'] d IH]; simpl; [discriminate|].
  destruct (String.eqb k' k) eqn:E.
  - apply String.eqb_eq in E. auto.
  - auto.
Qed.

Lemma in_keys_get {V : Type} (d : t V) k :
  In k (keys d) -> exists v, get d k = Some v.
Proof.
  induction d as [|[k' v'] d IH]; simpl; [contradiction|].
  intros [->|Hin].
  - rewrite String.eqb_refl. eauto.
  - destruct (String.eqb k' k); eauto.
Qed.

Lemma keys_set_present {V : Type} (d : t V) k v :
  In k (keys d) -> keys (set d k v) = keys d.
Proof.
  induction d as [|[k' v'] d IH]; simpl; [contradiction|].
  intros Hin. destruct (String.eqb k' k) eqn:E; simpl; auto.
  f_equal. apply IH. destruct Hin as [->|]; auto.
  rewrite String.eqb_refl in E. discriminate.
Qed.

Lemma keys_set_absent {V : Type} (d : t V) k v :
  ~ In k (keys d) -> keys (set d k v) = keys d ++ [k].
Proof.
  induction d as [|[k' v'] d IH]; simpl; auto.
  intros Hnin. destruct (String.eqb k' k) eqn:E; simpl.
  - apply String.eqb_eq in E. tauto.
  - f_equal. apply IH. tauto.
Qed.

Lemma getitem_ok {V : Type} (d : t V) k v :
  get d k = Some v -> getitem d k = Ok v.
Proof. unfold getitem. now intros ->. Qed.

Lemma getitem_inv {V : Type} (d : t V) k v :
  getitem d k = Ok v -> get d k = Some v.
Proof. unfold getitem. destruct (get d k); now inversion 1. Qed.

End PyDictFacts.

Import PyDictFacts.

(** ** Strings and lists *)

Lemma str_in_spec x l : str_in x l = true <-> In x l.
Proof.
  unfold str_in. rewrite existsb_exists. split.
  - intros [y [Hy He]]. apply String.eqb_eq in He. now subst.
  - intros H. exists x. split; auto. apply String.eqb_refl.
Qed.

Lemma str_in_false x l : str_in x l = false <-> ~ In x l.
Proof.
  rewrite <- str_in_spec. destruct (str_in x l); split; intros; try tauto; try discriminate.
Qed.

Lemma find_node_some nodes i n :
  find_node nodes i = Some n -> In n nodes /\ DAGNode.id n = i.
Proof.
  unfold find_node. intros H. apply find_some in H. destruct H as [H1 H2].
  apply String.eqb_eq in H2. auto.
Qed.

Lemma find_node_in nodes i :
  In i (node_ids nodes) -> exists n, find_node nodes i = Some n.
Proof.
  unfold find_node, node_ids. intros H. apply in_map_iff in H. destruct H as [n [Hn Hin]].
  destruct (find (fun n0 => String.eqb (DAGNode.id n0) i) nodes) eqn:E; eauto.
  exfalso. apply (find_none _ _ E) in Hin. subst i. rewrite String.eqb_refl in Hin. discriminate.
Qed.

Lemma find_node_unique nodes n :
  NoDup (node_ids nodes) -> In n nodes -> find_node nodes (DAGNode.id n) = Some n.
Proof.
  unfold find_node, node_ids. induction nodes as [|m nodes IH]; simpl; [contradiction|].
  intros Hnd Hin. inversion Hnd as [|? ? Hnotin Hnd']; subst.
  destruct Hin as [->|Hin].
  - now rewrite String.eqb_refl.
  - destruct (String.eqb (DAGNode.id m) (DAGNode.id n)) eqn:E.
    + apply String.eqb_eq in E. exfalso. apply Hnotin. rewrite E. now apply in_map.
    + auto.
Qed.

Lemma node_ids_app l1 l2 : node_ids (l1 ++ l2) = node_ids l1 ++ node_ids l2.
Proof. apply map_app. Qed.

Lemma NoDup_node_ids_nodes nodes : NoDup (node_ids nodes) -> NoDup nodes.
Proof. apply NoDup_map_inv. Qed.

(** ** The tables *)

Lemma get_const_dict {V : Type} ks (v : V) k :
  PyDict.get (const_dict ks v) k = if str_in k ks then Some v else None.
Proof.
  induction ks as [|k' ks IH]; simpl; auto.
  rewrite (String.eqb_sym k k'). destruct (String.eqb k' k); auto.
Qed.

Lemma set_const_dict {V : Type} ks (v : V) k :
  PyDict.set (const_dict ks v) k v
  = const_dict (if str_in k ks then ks else ks ++ [k]) v.
Proof.
  induction ks as [|k' ks IH]; simpl; auto.
  rewrite (String.eqb_sym k k'). destruct (String.eqb k' k); simpl; auto.
  rewrite IH. destruct (str_in k ks); auto.
Qed.

Lemma keys_const_dict {V : Type} ks (v : V) : PyDict.keys (const_dict ks v) = ks.
Proof.
  unfold PyDict.keys, const_dict. rewrite map_map. simpl. apply map_id.
Qed.

Lemma init_tables_gen nodes : forall K0,
  NoDup K0 ->
  exists K,
    fold_left
      (fun (tb : tables) node =>
         let '(adjacency, in_degree) := tb in
         (PyDict.set adjacency (DAGNode.id node) [],
          PyDict.set in_degree (DAGNode.id node) 0%Z))
      nodes (const_dict K0 (@nil string), const_dict K0 0%Z)
    = (const_dict K [], const_dict K 0%Z)
    /\ (forall v, In v K <-> In v K0 \/ In v (node_ids nodes))
    /\ NoDup K
    /\ (NoDup (K0 ++ node_ids nodes) -> K = K0 ++ node_ids nodes).
Proof.
  induction nodes as [|n nodes IH]; intros K0 HK0; simpl.
  - exists K0. repeat split; auto; try tauto. now rewrite app_nil_r.
  - rewrite !set_const_dict.
    destruct (str_in (DAGNode.id n) K0) eqn:E.
    + destruct (IH K0 HK0) as [K [H1 [H2 [H3 H4]]]].
      exists K. repeat split; auto.
      * intros H. apply H2 in H. tauto.
      * intros [H|[H|H]]; apply H2; auto.
        subst v. left. now apply str_in_spec.
      * intros Hnd. exfalso. apply str_in_spec in E.
        apply NoDup_remove_2 in Hnd. apply Hnd. apply in_or_app. auto.
    + assert (HK1 : NoDup (K0 ++ [DAGNode.id n])).
      { apply str_in_false in E. apply NoDup_app; auto.
        - repeat constructor. simpl. tauto.
        - intros x Hx [<-|[]]. contradiction. }
      destruct (IH _ HK1) as [K [H1 [H2 [H3 H4]]]].
      exists K. repeat split; auto.
      * intros H. apply H2 in H. rewrite in_app_iff in H. simpl in H. tauto.
      * intros H. apply H2. rewrite in_app_iff. simpl. tauto.
      * intros Hnd. rewrite H4; rewrite <- app_assoc; simpl; auto.
Qed.

Lemma init_tables_spec nodes :
  exists K,
    init_tables nodes = (const_dict K [], const_dict K 0%Z)
    /\ (forall v, In v K <-> In v (node_ids nodes))
    /\ NoDup K
    /\ (NoDup (node_ids nodes) -> K = node_ids nodes).
Proof.
  destruct (init_tables_gen nodes (K0 := [])) as [K [H1 [H2 [H3 H4]]]]; [constructor|].
  exists K. repeat split; auto.
  - intros H. apply H2 in H. simpl in H. tauto.
  - intros H. apply H2. auto.
Qed.

Lemma succs_cons edges e u :
  succs (e :: edges) u
  = (if String.eqb (DAGEdge.from_node e) u then [DAGEdge.to_node e] else []) ++ succs edges u.
Proof. unfold succs. simpl. destruct (String.eqb (DAGEdge.from_node e) u); auto. Qed.

Lemma indeg_cons edges e v :
  indeg (e :: edges) v
  = (if String.eqb (DAGEdge.to_node e) v then 1 else 0) + indeg edges v.
Proof. unfold indeg. simpl. destruct (String.eqb (DAGEdge.to_node e) v); auto. Qed.

(** The edge loop succeeds exactly when its keys are present, appends the
    targets to the adjacency lists and adds the in-degrees. *)
Lemma add_edges_ok edges : forall adjacency in_degree,
  (forall e, In e edges ->
     In (DAGEdge.from_node e) (PyDict.keys adjacency) /\
     In (DAGEdge.to_node e) (PyDict.keys in_degree)) ->
  exists adjacency' in_degree',
    for_each add_edge edges (adjacency, in_degree) = Ok (adjacency', in_degree')
    /\ PyDict.keys adjacency' = PyDict.keys adjacency
    /\ PyDict.keys in_degree' = PyDict.keys in_degree
    /\ (forall u, PyDict.get adjacency' u
                  = option_map (fun l => l ++ succs edges u) (PyDict.get adjacency u))
    /\ (forall v, PyDict.get in_degree' v
                  = option_map (fun d => (d + Z.of_nat (indeg edges v))%Z)
                      (PyDict.get in_degree v)).
Proof.
  induction edges as [|e edges IH]; intros adjacency in_degree Hk.
  - exists adjacency, in_degree. simpl. repeat split; auto.
    + intros u. destruct (PyDict.get adjacency u); simpl; auto. now rewrite app_nil_r.
    + intros v. destruct (PyDict.get in_degree v); simpl; auto. f_equal. unfold indeg. simpl. lia.
  - destruct (Hk e (or_introl eq_refl)) as [Hf Ht].
    destruct (in_keys_get _ _ Hf) as [targets Htg].
    destruct (in_keys_get _ _ Ht) as [d Hd].
    simpl. unfold PyDict.getitem. rewrite Htg. simpl. rewrite Hd. simpl.
    destruct (IH (PyDict.set adjacency (DAGEdge.from_node e) (targets ++ [DAGEdge.to_node e]))
                 (PyDict.set in_degree (DAGEdge.to_node e) (d + 1)%Z))
      as [adj' [ind' [H1 [H2 [H3 [H4 H5]]]]]].
    { intros e' He'. rewrite !keys_set_present by auto. apply Hk. now right. }
    exists adj', ind'. rewrite keys_set_present in H2 by auto.
    rewrite keys_set_present in H3 by auto.
    repeat split; auto.
    + intros u. rewrite H4, get_set, succs_cons.
      destruct (String.eqb (DAGEdge.from_node e) u) eqn:E.
      * apply String.eqb_eq in E. subst u. rewrite Htg. simpl. now rewrite <- app_assoc.
      * destruct (PyDict.get adjacency u); auto.
    + intros v. rewrite H5, get_set, indeg_cons.
      destruct (String.eqb (DAGEdge.to_node e) v) eqn:E.
      * apply String.eqb_eq in E. subst v. rewrite Hd. simpl. f_equal. lia.
      * destruct (PyDict.get in_degree v); auto.
Qed.

Lemma build_tables_ok nodes edges :
  endpoints_known nodes edges ->
  exists K adjacency in_degree,
    build_tables nodes edges = Ok (adjacency, in_degree)
    /\ (forall v, In v K <-> In v (node_ids nodes))
    /\ (NoDup (node_ids nodes) -> K = node_ids nodes)
    /\ PyDict.keys adjacency = K
    /\ PyDict.keys in_degree = K
    /\ (forall u, In u (node_ids nodes) -> PyDict.get adjacency u = Some (succs edges u))
    /\ (forall v, In v (node_ids nodes) ->
          PyDict.get in_degree v = Some (Z.of_nat (indeg edges v))).
Proof.
  intros Hk. unfold build_tables.
  destruct (init_tables_spec nodes) as [K [H1 [H2 [H3 H4]]]]. rewrite H1.
  destruct (add_edges_ok edges (const_dict K []) (const_dict K 0%Z))
    as [adj' [ind' [G1 [G2 [G3 [G4 G5]]]]]].
  { intros e He. rewrite !keys_const_dict. rewrite !H2. now apply Hk. }
  exists K, adj', ind'. rewrite keys_const_dict in G2. rewrite keys_const_dict in G3.
  repeat split; auto; try apply H2; auto.
  - intros u Hu. rewrite G4, get_const_dict.
    apply H2 in Hu. apply str_in_spec in Hu. now rewrite Hu.
  - intros v Hv. rewrite G5, get_const_dict.
    apply H2 in Hv. apply str_in_spec in Hv. now rewrite Hv.
Qed.

(** ** One round of the loop: the neighbours of the current node *)

Lemma count_occ_cons_str (t : string) ts v :
  count_occ string_dec (t :: ts) v
  = (if String.eqb t v then 1 else 0) + count_occ string_dec ts v.
Proof.
  simpl. destruct (string_dec t v) as [->|Hne].
  - now rewrite String.eqb_refl.
  - apply String.eqb_neq in Hne. now rewrite Hne.
Qed.

Lemma relax_fold nodes ts : forall in_degree queue,
  (forall t, In t ts -> In t (node_ids nodes)) ->
  (forall t, In t ts -> In t (PyDict.keys in_degree)) ->
  exists in_degree' newq,
    for_each (relax nodes) ts (in_degree, queue) = Ok (in_degree', queue ++ newq)
    /\ PyDict.keys in_degree' = PyDict.keys in_degree
    /\ (forall v, PyDict.get in_degree' v
          = option_map (fun d => (d - Z.of_nat (count_occ string_dec ts v))%Z)
              (PyDict.get in_degree v))
    /\ NoDup (node_ids newq)
    /\ (forall n, In n newq -> In n nodes)
    /\ (forall v, In v (node_ids newq) <->
          exists d, PyDict.get in_degree v = Some d
                    /\ (0 < d <= Z.of_nat (count_occ string_dec ts v))%Z).
Proof.
  induction ts as [|t ts IH]; intros in_degree queue Hids Hkeys.
  - exists in_degree, []. simpl. rewrite app_nil_r. repeat split; auto.
    + intros v. destruct (PyDict.get in_degree v); simpl; auto. f_equal. lia.
    + constructor.
    + contradiction.
    + contradiction.
    + intros [d [_ Hd]]. lia.
  - destruct (in_keys_get _ _ (Hkeys t (or_introl eq_refl))) as [d Hd].
    destruct (find_node_in nodes t (Hids t (or_introl eq_refl))) as [n Hn].
    destruct (find_node_some _ _ Hn) as [Hnin Hnid].
    set (ind1 := PyDict.set in_degree t (d - 1)%Z).
    assert (Hk1 : PyDict.keys ind1 = PyDict.keys in_degree).
    { apply keys_set_present. apply Hkeys. now left. }
    assert (Hids' : forall t0, In t0 ts -> In t0 (node_ids nodes)).
    { intros; apply Hids; now right. }
    assert (Hkeys' : forall t0, In t0 ts -> In t0 (PyDict.keys ind1)).
    { intros; rewrite Hk1; apply Hkeys; now right. }
    assert (Hg1 : forall v, PyDict.get ind1 v
                    = if String.eqb t v then Some (d - 1)%Z else PyDict.get in_degree v).
    { intros v. apply get_set. }
    cbn [for_each]. unfold relax at 1, PyDict.getitem at 1. rewrite Hd. cbn [bind]. fold ind1.
    destruct (d - 1 =? 0)%Z eqn:Ez.
    + apply Z.eqb_eq in Ez. rewrite Hn.
      destruct (IH ind1 (queue ++ [n]) Hids' Hkeys')
        as [ind' [newq [H1 [H2 [H3 [H4 [H5 H6]]]]]]].
      exists ind', (n :: newq). rewrite <- app_assoc in H1. simpl in H1.
      repeat split; auto.
      * congruence.
      * intros v. rewrite H3, Hg1, count_occ_cons_str.
        destruct (String.eqb t v) eqn:E.
        -- apply String.eqb_eq in E. subst v. rewrite Hd. simpl. f_equal. lia.
        -- destruct (PyDict.get in_degree v); simpl; auto.
      * simpl. constructor; auto. rewrite Hnid. intros Hin.
        apply H6 in Hin. destruct Hin as [d' [Hd' Hrange]].
        rewrite Hg1, String.eqb_refl in Hd'. inversion Hd'. lia.
      * intros m [<-|Hm]; auto.
      * cbn [node_ids map In]. rewrite Hnid. intros [<-|Hin].
        -- exists d. split; auto. rewrite count_occ_cons_str, String.eqb_refl. lia.
        -- apply H6 in Hin. destruct Hin as [d' [Hd' Hrange]].
           rewrite Hg1 in Hd'. rewrite count_occ_cons_str.
           destruct (String.eqb t v) eqn:E.
           ++ apply String.eqb_eq in E. subst v. inversion Hd'. lia.
           ++ exists d'. split; auto.
      * intros [d' [Hd' Hrange]]. cbn [node_ids map In]. rewrite Hnid.
        rewrite count_occ_cons_str in Hrange.
        destruct (String.eqb t v) eqn:E.
        -- apply String.eqb_eq in E. now left.
        -- right. apply H6. exists d'. rewrite Hg1, E. split; auto.
    + apply Z.eqb_neq in Ez.
      destruct (IH ind1 queue Hids' Hkeys')
        as [ind' [newq [H1 [H2 [H3 [H4 [H5 H6]]]]]]].
      exists ind', newq. repeat split; auto.
      * congruence.
      * intros v. rewrite H3, Hg1, count_occ_cons_str.
        destruct (String.eqb t v) eqn:E.
        -- apply String.eqb_eq in E. subst v. rewrite Hd. simpl. f_equal. lia.
        -- destruct (PyDict.get in_degree v); simpl; auto.
      * intros Hin. apply H6 in Hin. destruct Hin as [d' [Hd' Hrange]].
        rewrite Hg1 in Hd'. rewrite count_occ_cons_str.
        destruct (String.eqb t v) eqn:E.
        -- apply String.eqb_eq in E. subst v. inversion Hd'. subst d'.
           exists d. split; auto. lia.
        -- exists d'. split; auto.
      * intros [d' [Hd' Hrange]]. apply H6.
        rewrite count_occ_cons_str in Hrange. rewrite Hg1.
        destruct (String.eqb t v) eqn:E.
        -- apply String.eqb_eq in E. subst v. rewrite Hd in Hd'. inversion Hd'. subst d'.
           exists (d - 1)%Z. split; auto. lia.
        -- exists d'. split; auto.
Qed.

(** ** Positions in a list *)

Lemma precedes_nil {A : Type} (v w : A) : ~ precedes [] v w.
Proof. intros [i [j [_ [Hi _]]]]. destruct i; discriminate. Qed.

Lemma precedes_cons_inv {A : Type} (x : A) l v w :
  precedes (x :: l) v w -> (v = x /\ In w l) \/ precedes l v w.
Proof.
  intros [i [j [Hlt [Hi Hj]]]]. destruct j as [|j]; [lia|]. simpl in Hj.
  destruct i as [|i].
  - left. simpl in Hi. inversion Hi. split; auto. eapply nth_error_In; eauto.
  - right. exists i, j. simpl in Hi. repeat split; auto. lia.
Qed.

Lemma precedes_app_left {A : Type} (l1 l2 : list A) v w :
  ~ In v l2 -> ~ In w l2 -> precedes (l1 ++ l2) v w -> precedes l1 v w.
Proof.
  intros Hv Hw [i [j [Hlt [Hi Hj]]]].
  assert (Hj' : j < List.length l1).
  { destruct (Nat.lt_ge_cases j (List.length l1)) as [H|H]; auto.
    rewrite nth_error_app2 in Hj by auto. apply nth_error_In in Hj. contradiction. }
  exists i, j. rewrite nth_error_app1 in Hi by lia. rewrite nth_error_app1 in Hj by lia.
  auto.
Qed.

Lemma precedes_app_right {A : Type} (l1 l2 : list A) v w :
  ~ In v l1 -> ~ In w l1 -> precedes (l1 ++ l2) v w -> precedes l2 v w.
Proof.
  intros Hv Hw [i [j [Hlt [Hi Hj]]]].
  assert (Hi' : List.length l1 <= i).
  { destruct (Nat.lt_ge_cases i (List.length l1)) as [H|H]; auto.
    rewrite nth_error_app1 in Hi by auto. apply nth_error_In in Hi. contradiction. }
  exists (i - List.length l1), (j - List.length l1).
  rewrite nth_error_app2 in Hi by lia. rewrite nth_error_app2 in Hj by lia.
  repeat split; auto. lia.
Qed.

Lemma precedes_total {A : Type} (l : list A) v w :
  In v l -> In w l -> v <> w -> precedes l v w \/ precedes l w v.
Proof.
  intros Hv Hw Hne. apply In_nth_error in Hv, Hw.
  destruct Hv as [i Hi], Hw as [j Hj].
  destruct (Nat.lt_trichotomy i j) as [H|[H|H]].
  - left. exists i, j. auto.
  - subst. congruence.
  - right. exists j, i. auto.
Qed.

Lemma after_last_cons t ts v w : after_last ts v w -> after_last (t :: ts) v w.
Proof.
  intros [l1 [l2 [H1 [H2 H3]]]]. exists (t :: l1), l2. subst. auto.
Qed.

Lemma after_last_asym ts v w : after_last ts v w -> after_last ts w v -> False.
Proof.
  intros [l1 [l2 [H1 [H2 H3]]]] [m1 [m2 [G1 [G2 G3]]]]. subst ts.
  apply app_eq_app in G1. destruct G1 as [l [[E1 E2]|[E1 E2]]].
  - destruct l as [|x l]; simpl in E2; inversion E2; subst.
    + contradiction.
    + apply G2. apply in_or_app. right. now right.
  - destruct l as [|x l]; simpl in E2; inversion E2; subst.
    + contradiction.
    + apply H2. apply in_or_app. right. now right.
Qed.

(** The neighbours that reach zero are queued in the order of their last
    occurrence among the targets. *)
Lemma relax_fold_order nodes ts : forall in_degree queue in_degree' newq,
  (forall t, In t ts -> In t (node_ids nodes)) ->
  (forall t, In t ts -> In t (PyDict.keys in_degree)) ->
  (forall t d, In t ts -> PyDict.get in_degree t = Some d ->
     (Z.of_nat (count_occ string_dec ts t) <= d)%Z) ->
  for_each (relax nodes) ts (in_degree, queue) = Ok (in_degree', queue ++ newq) ->
  forall v w, precedes (node_ids newq) v w -> after_last ts v w.
Proof.
  induction ts as [|t ts IH]; intros ind queue ind' newq Hids Hkeys Hcount Hrun v w Hp.
  - simpl in Hrun. inversion Hrun as [[Hi Hq]].
    rewrite <- (app_nil_r queue) in Hq at 1. apply app_inv_head in Hq. subst newq.
    now apply precedes_nil in Hp.
  - destruct (in_keys_get _ _ (Hkeys t (or_introl eq_refl))) as [d Hd].
    destruct (find_node_in nodes t (Hids t (or_introl eq_refl))) as [n Hn].
    destruct (find_node_some _ _ Hn) as [Hnin Hnid].
    set (ind1 := PyDict.set ind t (d - 1)%Z).
    assert (Hk1 : PyDict.keys ind1 = PyDict.keys ind).
    { apply keys_set_present. apply Hkeys. now left. }
    assert (Hids' : forall t0, In t0 ts -> In t0 (node_ids nodes))
      by (intros; apply Hids; now right).
    assert (Hkeys' : forall t0, In t0 ts -> In t0 (PyDict.keys ind1))
      by (intros; rewrite Hk1; apply Hkeys; now right).
    assert (Hcount' : forall t0 d0, In t0 ts -> PyDict.get ind1 t0 = Some d0 ->
              (Z.of_nat (count_occ string_dec ts t0) <= d0)%Z).
    { intros t0 d0 Ht0 Hg. unfold ind1 in Hg. rewrite get_set in Hg.
      assert (Hc := fun dd => Hcount t0 dd (or_intror Ht0)).
      rewrite count_occ_cons_str in Hc.
      destruct (String.eqb t t0) eqn:E.
      - apply String.eqb_eq in E. subst t0. inversion Hg. subst d0.
        specialize (Hc d Hd). lia.
      - specialize (Hc d0 Hg). lia. }
    cbn [for_each] in Hrun. unfold relax at 1, PyDict.getitem at 1 in Hrun.
    rewrite Hd in Hrun. cbn [bind] in Hrun. fold ind1 in Hrun.
    destruct (d - 1 =? 0)%Z eqn:Ez.
    + apply Z.eqb_eq in Ez. rewrite Hn in Hrun.
      destruct (relax_fold nodes ts ind1 (queue ++ [n]) Hids' Hkeys')
        as [ind2 [newq' [H1 [_ [_ [_ [_ H6]]]]]]].
      cbn [bind] in Hrun. rewrite H1 in Hrun. inversion Hrun as [[Hi Hq]].
      rewrite <- app_assoc in Hq. apply app_inv_head in Hq. simpl in Hq. subst newq.
      rewrite <- app_assoc in H1. simpl in H1.
      cbn [node_ids map] in Hp. rewrite Hnid in Hp.
      apply precedes_cons_inv in Hp. destruct Hp as [[-> Hw]|Hp].
      * exists [], ts. split; auto. split.
        -- intros Hin. apply (count_occ_In string_dec) in Hin.
           pose proof (Hcount t d (or_introl eq_refl) Hd) as Hc.
           rewrite count_occ_cons_str, String.eqb_refl in Hc. lia.
        -- apply H6 in Hw. destruct Hw as [dw [_ Hr]].
           apply (count_occ_In string_dec). lia.
      * apply after_last_cons.
        apply (IH ind1 (queue ++ [n]) ind2 newq' Hids' Hkeys' Hcount'); auto.
        now rewrite <- app_assoc.
    + cbn [bind] in Hrun.
      apply after_last_cons. apply (IH ind1 queue ind' newq Hids' Hkeys' Hcount'); auto.
Qed.

(** ** Counting the edges that still wait for their source *)

Lemma pending_nil edges v : pending edges [] v = indeg edges v.
Proof.
  unfold pending, indeg. f_equal. apply filter_ext. intros e. simpl.
  now rewrite andb_true_r.
Qed.

Lemma pending_cons edges e done v :
  pending (e :: edges) done v
  = (if String.eqb (DAGEdge.to_node e) v && negb (str_in (DAGEdge.from_node e) done)
     then 1 else 0) + pending edges done v.
Proof.
  unfold pending. simpl.
  destruct (String.eqb (DAGEdge.to_node e) v && negb (str_in (DAGEdge.from_node e) done)); auto.
Qed.

Lemma str_in_app x l1 l2 : str_in x (l1 ++ l2) = str_in x l1 || str_in x l2.
Proof. unfold str_in. apply existsb_app. Qed.

Lemma pending_snoc edges done c v :
  ~ In c done ->
  pending edges (done ++ [c]) v + count_occ string_dec (succs edges c) v
  = pending edges done v.
Proof.
  intros Hc. induction edges as [|e edges IH].
  - reflexivity.
  - rewrite !pending_cons, succs_cons, count_occ_app, str_in_app.
    cbn [str_in existsb]. rewrite orb_false_r.
    destruct (String.eqb (DAGEdge.from_node e) c) eqn:Ef.
    + apply String.eqb_eq in Ef.
      assert (Hd : str_in (DAGEdge.from_node e) done = false).
      { apply str_in_false. now rewrite Ef. }
      rewrite Hd. rewrite count_occ_cons_str. cbn [count_occ].
      destruct (String.eqb (DAGEdge.to_node e) v); simpl; lia.
    + rewrite orb_false_r. cbn [count_occ]. lia.
Qed.

Lemma pending_zero edges done v :
  pending edges done v = 0 <->
  (forall e, In e edges -> DAGEdge.to_node e = v -> In (DAGEdge.from_node e) done).
Proof.
  induction edges as [|e edges IH].
  - split; auto. intros _ e [].
  - rewrite pending_cons. split.
    + intros H e' [<-|Hin] Hto.
      * rewrite Hto, String.eqb_refl in H. simpl in H.
        destruct (str_in (DAGEdge.from_node e) done) eqn:E; [|simpl in H; lia].
        now apply str_in_spec.
      * apply IH; auto. lia.
    + intros H.
      assert (H0 : pending edges done v = 0).
      { apply IH. intros; apply H; auto. now right. }
      rewrite H0. destruct (String.eqb (DAGEdge.to_node e) v) eqn:E; auto.
      apply String.eqb_eq in E.
      assert (Hin : In (DAGEdge.from_node e) done) by (apply H; auto; now left).
      apply str_in_spec in Hin. now rewrite Hin.
Qed.

Lemma pending_pos edges done v :
  pending edges done v <> 0 ->
  exists e, In e edges /\ DAGEdge.to_node e = v /\ ~ In (DAGEdge.from_node e) done.
Proof.
  induction edges as [|e edges IH].
  - intros H. now elim H.
  - rewrite pending_cons. intros H.
    destruct (String.eqb (DAGEdge.to_node e) v && negb (str_in (DAGEdge.from_node e) done)) eqn:E.
    + apply andb_true_iff in E. destruct E as [E1 E2].
      apply String.eqb_eq in E1. apply negb_true_iff in E2. apply str_in_false in E2.
      exists e. simpl. auto.
    + destruct IH as [e' [H1 [H2 H3]]]; [lia|]. exists e'. simpl. auto.
Qed.

Lemma in_succs edges u v :
  In v (succs edges u) <->
  exists e, In e edges /\ DAGEdge.from_node e = u /\ DAGEdge.to_node e = v.
Proof.
  unfold succs. rewrite in_map_iff. split.
  - intros [e [H1 H2]]. apply filter_In in H2. destruct H2 as [H2 H3].
    apply String.eqb_eq in H3. eauto.
  - intros [e [H1 [H2 H3]]]. exists e. split; auto. apply filter_In. split; auto.
    now apply String.eqb_eq.
Qed.

(** ** Which node releases which *)

Lemma snoc_split {A : Type} (T l1 l2 : list A) c c0 :
  T ++ [c] = l1 ++ c0 :: l2 ->
  (l2 = [] /\ T = l1 /\ c = c0) \/ (exists l2', l2 = l2' ++ [c] /\ T = l1 ++ c0 :: l2').
Proof.
  intros H. destruct l2 as [|y l2].
  - left. apply app_inj_tail in H. tauto.
  - right. destruct (exists_last (l := y :: l2)) as [l2' [z Hz]]; [discriminate|].
    rewrite Hz in H. rewrite app_comm_cons, app_assoc in H.
    apply app_inj_tail in H. destruct H as [HT Hc]. subst z.
    exists l2'. split; auto.
Qed.

Lemma released_last edges T c x :
  ~ In c T -> released_by edges (T ++ [c]) c x ->
  In x (succs edges c) /\ pending edges T x = count_occ string_dec (succs edges c) x.
Proof.
  intros Hc [l1 [l2 [Heq [Hin Hp]]]].
  destruct (@snoc_split _ _ _ _ _ _ Heq) as [[_ [-> _]]|[l2' [_ HT]]]; auto.
  exfalso. apply Hc. rewrite HT. apply in_or_app. right. now left.
Qed.

Lemma released_earlier edges T c c0 x :
  c0 <> c -> released_by edges (T ++ [c]) c0 x -> released_by edges T c0 x.
Proof.
  intros Hne [l1 [l2 [Heq [Hin Hp]]]].
  destruct (@snoc_split _ _ _ _ _ _ Heq) as [[_ [_ E]]|[l2' [_ HT]]]; [congruence|].
  exists l1, l2'. auto.
Qed.

Lemma released_done edges T c0 x :
  NoDup T -> released_by edges T c0 x -> pending edges T x = 0.
Proof.
  intros Hnd [l1 [l2 [Heq [Hin Hp]]]]. subst T.
  assert (Hc : ~ In c0 l1).
  { apply NoDup_remove_2 in Hnd. intros H. apply Hnd. apply in_or_app. now left. }
  pose proof (pending_snoc edges l1 c0 x Hc) as Hs.
  assert (Hz : pending edges (l1 ++ [c0]) x = 0) by lia.
  rewrite pending_zero in Hz. apply pending_zero.
  intros e He Hto. specialize (Hz e He Hto).
  apply in_app_or in Hz. apply in_or_app. destruct Hz as [Hz|[<-|[]]]; auto.
  right. now left.
Qed.

(** ** The invariant of Kahn's loop *)

Lemma NoDup_map_filter {A B : Type} (f : A -> B) (p : A -> bool) l :
  NoDup (map f l) -> NoDup (map f (filter p l)).
Proof.
  induction l as [|a l IH]; simpl; auto.
  intros H. inversion H as [|? ? Hn Hd]; subst.
  destruct (p a); simpl; auto. constructor; auto.
  intros Hin. apply Hn. apply in_map_iff in Hin. destruct Hin as [x [Hx Hin]].
  apply filter_In in Hin. rewrite <- Hx. apply in_map. tauto.
Qed.

Lemma NoDup_map_inj {A B : Type} (f : A -> B) l a b :
  NoDup (map f l) -> In a l -> In b l -> f a = f b -> a = b.
Proof.
  induction l as [|x l IH]; simpl; [contradiction|].
  intros H Ha Hb Hf. inversion H as [|? ? Hn Hd]; subst.
  destruct Ha as [->|Ha], Hb as [->|Hb]; auto.
  - exfalso. apply Hn. rewrite Hf. now apply in_map.
  - exfalso. apply Hn. rewrite <- Hf. now apply in_map.
Qed.

Lemma filter_r_zero_in_degree edges in_degree nodes0 :
  (forall n, In n nodes0 ->
     PyDict.get in_degree (DAGNode.id n) = Some (Z.of_nat (indeg edges (DAGNode.id n)))) ->
  filter_r (zero_in_degree in_degree) nodes0
  = Ok (filter (fun n => Nat.eqb (indeg edges (DAGNode.id n)) 0) nodes0).
Proof.
  induction nodes0 as [|n l IH]; intros H; simpl; auto.
  unfold zero_in_degree at 1, PyDict.getitem. rewrite (H n (or_introl eq_refl)). simpl.
  rewrite IH by (intros; apply H; now right). simpl. f_equal.
  destruct (indeg edges (DAGNode.id n)); reflexivity.
Qed.

Section Kahn.

Variable nodes : list DAGNode.t.
Variable edges : list DAGEdge.t.
Variable adjacency : PyDict.t (list string).

Hypothesis Huniq : NoDup (node_ids nodes).
Hypothesis Hends : endpoints_known nodes edges.
Hypothesis Hadj : forall u, In u (node_ids nodes) ->
  PyDict.get adjacency u = Some (succs edges u).

Lemma succs_known u t : In t (succs edges u) -> In t (node_ids nodes).
Proof.
  intros H. apply in_succs in H. destruct H as [e [H1 [H2 H3]]].
  subst t. now apply Hends.
Qed.

Lemma kahn_inv_init in_degree :
  (forall v, In v (node_ids nodes) ->
     PyDict.get in_degree v = Some (Z.of_nat (indeg edges v))) ->
  kahn_inv nodes edges in_degree
    (filter (fun n => Nat.eqb (indeg edges (DAGNode.id n)) 0) nodes) [].
Proof.
  intros Hind. constructor; simpl.
  - now apply NoDup_map_filter.
  - intros n Hn. apply filter_In in Hn. tauto.
  - intros v Hv. rewrite pending_nil. auto.
  - intros v Hv. rewrite pending_nil. unfold node_ids. rewrite in_map_iff. split.
    + intros [n [Hn Hin]]. apply filter_In in Hin. destruct Hin as [_ Hz].
      apply Nat.eqb_eq in Hz. now subst v.
    + intros Hz. apply in_map_iff in Hv. destruct Hv as [n [Hn Hin]].
      exists n. split; auto. apply filter_In. split; auto. subst v.
      now apply Nat.eqb_eq.
  - intros l1 v l2 e H. destruct l1; discriminate.
  - exists []. unfold sources. now rewrite app_nil_r.
  - intros c v w [l1 [l2 [H _]]] _ _. destruct l1; discriminate.
Qed.

Lemma kahn_inv_step in_degree current queue topo_order :
  kahn_inv nodes edges in_degree (current :: queue) topo_order ->
  exists in_degree' newq,
    for_each (relax nodes) (succs edges (DAGNode.id current)) (in_degree, queue)
    = Ok (in_degree', queue ++ newq)
    /\ kahn_inv nodes edges in_degree' (queue ++ newq) (topo_order ++ [current]).
Proof.
  intros [Hnd Hincl Hdeg Hready Hord Hsrc Hties].
  set (c := DAGNode.id current).
  set (T := node_ids topo_order) in *.
  assert (Hcin : In current nodes).
  { apply Hincl. apply in_or_app. right. now left. }
  assert (Hcids : In c (node_ids nodes)) by (now apply in_map).
  assert (Hsplit : node_ids (topo_order ++ current :: queue) = T ++ c :: node_ids queue).
  { now rewrite node_ids_app. }
  rewrite Hsplit in Hnd.
  assert (HcT : ~ In c T).
  { intros Hin. apply NoDup_remove_2 in Hnd. apply Hnd. apply in_or_app. now left. }
  destruct (relax_fold nodes (succs edges c) in_degree queue)
    as [ind' [newq [H1 [H2 [H3 [H4 [H5 H6]]]]]]].
  { intros t. apply succs_known. }
  { intros t Ht. apply succs_known in Ht. apply Hdeg in Ht.
    now apply get_some_in_keys in Ht. }
  assert (Hcount : forall t d, In t (succs edges c) -> PyDict.get in_degree t = Some d ->
            (Z.of_nat (count_occ string_dec (succs edges c) t) <= d)%Z).
  { intros t d Ht Hg. apply succs_known in Ht. rewrite (Hdeg t Ht) in Hg.
    inversion Hg. pose proof (pending_snoc edges T c t HcT). lia. }
  pose proof (fun v w => @relax_fold_order nodes (succs edges c) in_degree queue ind' newq
                (fun t => @succs_known c t)
                (fun t Ht => get_some_in_keys _ _ (Hdeg t (succs_known _ _ Ht)))
                Hcount H1 v w) as Horder.
  exists ind', newq. split; auto.
  assert (Hnew : forall v, In v (node_ids newq) ->
            In v (node_ids nodes) /\ pending edges T v <> 0
            /\ pending edges (T ++ [c]) v = 0).
  { intros v Hv. assert (Hvn : In v (node_ids nodes)).
    { apply in_map_iff in Hv. destruct Hv as [n [<- Hn]]. apply in_map. auto. }
    split; auto. apply H6 in Hv. destruct Hv as [d [Hd Hrange]].
    rewrite (Hdeg v Hvn) in Hd. inversion Hd. subst d.
    pose proof (pending_snoc edges T c v HcT). lia. }
  assert (Hsplit' : node_ids ((topo_order ++ [current]) ++ queue ++ newq)
                    = (T ++ c :: node_ids queue) ++ node_ids newq).
  { rewrite !node_ids_app. simpl. rewrite <- !app_assoc. reflexivity. }
  constructor.
  - rewrite Hsplit'. apply NoDup_app; auto.
    intros x Hx Hx'. destruct (Hnew x Hx') as [Hxn [Hp _]].
    apply Hp. apply Hready; auto. now rewrite Hsplit.
  - intros n Hn. rewrite <- app_assoc in Hn. simpl in Hn.
    apply in_app_or in Hn. destruct Hn as [Hn|[<-|Hn]]; auto.
    + apply Hincl. apply in_or_app. now left.
    + apply in_app_or in Hn. destruct Hn as [Hn|Hn]; auto.
      apply Hincl. apply in_or_app. right. now right.
  - intros v Hv. rewrite H3, (Hdeg v Hv). simpl. f_equal.
    rewrite node_ids_app. simpl. fold T c.
    pose proof (pending_snoc edges T c v HcT). lia.
  - intros v Hv. rewrite Hsplit'. rewrite (node_ids_app topo_order). simpl. fold T c.
    pose proof (pending_snoc edges T c v HcT) as Hps.
    rewrite in_app_iff. split.
    + intros [Hold|Hnw].
      * rewrite <- Hsplit in Hold. apply Hready in Hold; auto. fold T in Hold. lia.
      * now apply Hnew.
    + intros Hz. destruct (Nat.eq_dec (pending edges T v) 0) as [Hp|Hp].
      * left. rewrite <- Hsplit. now apply Hready.
      * right. apply H6. exists (Z.of_nat (pending edges T v)). split; auto. lia.
  - rewrite node_ids_app. simpl. fold T c.
    intros l1 v l2 e Heq He Hto.
    destruct (exists_last (l := v :: l2)) as [l2' [x Hl2]]; [discriminate|].
    rewrite Hl2, app_assoc in Heq. apply app_inj_tail in Heq. destruct Heq as [HT Hx].
    destruct l2' as [|y l2'].
    + simpl in Hl2. inversion Hl2. subst. rewrite app_nil_r in HT. subst l1.
      assert (Hz : pending edges T (DAGEdge.to_node e) = 0).
      { apply Hready. { now apply Hends. }
        rewrite Hsplit. apply in_or_app. right. left. auto. }
      rewrite pending_zero in Hz. now apply Hz.
    + simpl in Hl2. inversion Hl2. subst y.
      apply (Hord l1 v l2' e); auto.
  - destruct Hsrc as [rest Hrest]. exists (rest ++ newq).
    rewrite <- app_assoc. simpl. rewrite app_assoc, <- Hrest.
    rewrite <- !app_assoc. reflexivity.
  - rewrite Hsplit'. rewrite node_ids_app. simpl. fold T c.
    intros c0 v w Hv Hw Hp.
    assert (HndT : NoDup T).
    { apply NoDup_app_remove_r in Hnd. exact Hnd. }
    destruct (string_dec c0 c) as [->|Hne].
    + destruct (@released_last edges T c v HcT Hv) as [Hvin Hvp].
      destruct (@released_last edges T c w HcT Hw) as [Hwin Hwp].
      assert (Hq : forall x, In x (succs edges c) ->
                pending edges T x = count_occ string_dec (succs edges c) x ->
                In x (node_ids newq)).
      { intros x Hx Hxp. apply H6. exists (Z.of_nat (pending edges T x)).
        split; [apply Hdeg; now apply (@succs_known c)|].
        apply (count_occ_In string_dec) in Hx. lia. }
      pose proof (Hq v Hvin Hvp) as Hvq. pose proof (Hq w Hwin Hwp) as Hwq.
      apply Horder. apply precedes_app_right with (l1 := T ++ c :: node_ids queue); auto.
      * intros Hin. destruct (Hnew v Hvq) as [Hvn [Hpos _]]. apply Hpos.
        apply Hready; auto. now rewrite Hsplit.
      * intros Hin. destruct (Hnew w Hwq) as [Hwn [Hpos _]]. apply Hpos.
        apply Hready; auto. now rewrite Hsplit.
    + apply released_earlier in Hv; auto. apply released_earlier in Hw; auto.
      apply (Hties c0 v w Hv Hw). rewrite Hsplit.
      apply precedes_app_left with (l2 := node_ids newq); auto.
      * intros Hin. destruct (Hnew v Hin) as [_ [Hpos _]]. apply Hpos.
        now apply (@released_done edges T c0 v HndT Hv).
      * intros Hin. destruct (Hnew w Hin) as [_ [Hpos _]]. apply Hpos.
        now apply (@released_done edges T c0 w HndT Hw).
Qed.

Lemma kahn_inv_length in_degree queue topo_order :
  kahn_inv nodes edges in_degree queue topo_order ->
  List.length topo_order + List.length queue <= List.length nodes.
Proof.
  intros [Hnd Hincl _ _ _].
  rewrite <- length_app. apply NoDup_incl_length.
  - apply (NoDup_map_inv _ _ Hnd).
  - exact Hincl.
Qed.

Lemma topo_loop_inv fuel : forall in_degree queue topo_order,
  kahn_inv nodes edges in_degree queue topo_order ->
  List.length nodes <= fuel + List.length topo_order ->
  exists order in_degree',
    topo_loop fuel nodes adjacency in_degree queue topo_order = Ok order
    /\ kahn_inv nodes edges in_degree' [] order.
Proof.
  induction fuel as [|fuel IH]; intros in_degree queue topo_order Hinv Hfuel.
  - pose proof (kahn_inv_length Hinv) as Hlen.
    destruct queue as [|current queue]; simpl in *.
    + eauto.
    + lia.
  - destruct queue as [|current queue].
    + simpl. eauto.
    + pose proof (kahn_inv_length Hinv) as Hlen. simpl in Hlen.
      destruct (kahn_inv_step Hinv) as [ind' [newq [Hfold Hinv']]].
      assert (Hcin : In (DAGNode.id current) (node_ids nodes)).
      { apply in_map. apply (inv_incl Hinv). apply in_or_app. right. now left. }
      cbn [topo_loop]. unfold PyDict.getitem. rewrite (Hadj _ Hcin). cbn [bind].
      rewrite Hfold. cbn [bind].
      apply (IH ind' (queue ++ newq) (topo_order ++ [current]) Hinv').
      rewrite length_app. simpl. lia.
Qed.

End Kahn.

(** ** Paths and cycles *)

Lemma path_trans edges a b c : path edges a b -> path edges b c -> path edges a c.
Proof.
  induction 1 as [a b Hab|a b m Hab Hbm IH]; intros Hc.
  - eapply path_step; eauto.
  - eapply path_step; eauto.
Qed.

Lemma path_source_known nodes edges a b :
  endpoints_known nodes edges -> path edges a b -> In a (node_ids nodes).
Proof.
  intros Hk Hp. destruct Hp as [a b [e [He [<- _]]]|a b c [e [He [<- _]]] _];
    now apply Hk.
Qed.

(** In an acyclic graph no non-empty set of identifiers is closed under
    taking a predecessor. *)
Lemma acyclic_has_minimal edges :
  acyclic edges ->
  forall S, S <> [] ->
    (forall s, In s S -> exists s', In s' S /\ path edges s' s) -> False.
Proof.
  intros Hac S. induction S as [|x S IH]; intros Hne Hpred; [now apply Hne|].
  destruct S as [|y S].
  - destruct (Hpred x (or_introl eq_refl)) as [s' [[<-|[]] Hp]].
    now apply (Hac x).
  - apply IH; [discriminate|].
    intros s Hs. destruct (Hpred s (or_intror Hs)) as [s' [[<-|Hs'] Hp]]; eauto.
    destruct (Hpred x (or_introl eq_refl)) as [x' [[<-|Hx'] Hp']].
    + exfalso. now apply (Hac x).
    + exists x'. split; auto. eapply path_trans; eauto.
Qed.

Lemma sources_first_path edges order a b :
  sources_first edges order -> path edges a b -> In b order ->
  exists l1 l2, order = l1 ++ b :: l2 /\ In a l1.
Proof.
  intros Hsf Hp. induction Hp as [a b [e [He [Hf Ht]]]|a m b [e [He [Hf Ht]]] Hp IH];
    intros Hin.
  - apply in_split in Hin. destruct Hin as [l1 [l2 Heq]].
    exists l1, l2. split; auto. subst a. eapply Hsf; eauto.
  - destruct (IH Hin) as [l1 [l2 [Heq Hm]]].
    exists l1, l2. split; auto.
    apply in_split in Hm. destruct Hm as [l1a [l1b Hl1]].
    subst l1. rewrite <- app_assoc in Heq. simpl in Heq.
    apply in_or_app. left. subst a. eapply Hsf; eauto.
Qed.

Lemma cycle_not_ordered edges order v :
  NoDup order -> sources_first edges order -> path edges v v -> ~ In v order.
Proof.
  intros Hnd Hsf Hp Hin.
  destruct (sources_first_path Hsf Hp Hin) as [l1 [l2 [Heq Hv]]].
  subst order. apply NoDup_remove_2 in Hnd. apply Hnd. apply in_or_app. now left.
Qed.

Lemma precedes_of_split {A : Type} (l1 l2 : list A) a b :
  In a l1 -> precedes (l1 ++ b :: l2) a b.
Proof.
  intros Ha. apply In_nth_error in Ha. destruct Ha as [i Hi].
  assert (Hlt : i < List.length l1).
  { apply nth_error_Some. congruence. }
  exists i, (List.length l1). repeat split; auto.
  - rewrite nth_error_app1; auto.
  - rewrite nth_error_app2, Nat.sub_diag; auto.
Qed.

(** ** What the loop returns on a graph of the data model *)

Lemma topological_order_ok (g : DAGElement.t) :
  well_formed g ->
  exists order in_degree,
    get_topological_order g = Ok order
    /\ kahn_inv (DAGElement.nodes g) (DAGElement.edges g) in_degree [] order.
Proof.
  intros [Huniq Hends]. unfold get_topological_order.
  destruct (build_tables_ok Hends) as [K [adj [ind [Hb [HK [HKeq [Hka [Hki [Hadj Hind]]]]]]]]].
  rewrite Hb. cbn [bind].
  rewrite (filter_r_zero_in_degree (DAGElement.edges g)).
  2:{ intros n Hn. apply Hind. now apply in_map. }
  cbn [bind].
  apply (@topo_loop_inv _ _ adj Hends Hadj).
  - now apply kahn_inv_init.
  - unfold kahn_fuel. simpl. lia.
Qed.

Lemma kahn_final_nodup nodes edges in_degree order :
  kahn_inv nodes edges in_degree [] order -> NoDup (node_ids order).
Proof. intros H. pose proof (inv_nodup H) as Hn. now rewrite app_nil_r in Hn. Qed.

Lemma kahn_final_incl nodes edges in_degree order :
  kahn_inv nodes edges in_degree [] order -> incl order nodes.
Proof. intros H n Hn. apply (inv_incl H). now rewrite app_nil_r. Qed.

Lemma kahn_final_all nodes edges in_degree order :
  endpoints_known nodes edges -> acyclic edges ->
  kahn_inv nodes edges in_degree [] order ->
  forall v, In v (node_ids nodes) -> In v (node_ids order).
Proof.
  intros Hends Hac Hinv v Hv.
  destruct (str_in v (node_ids order)) eqn:E; [now apply str_in_spec|].
  exfalso.
  set (S := filter (fun x => negb (str_in x (node_ids order))) (node_ids nodes)).
  apply (acyclic_has_minimal Hac (S := S)).
  - intros HS. assert (Hin : In v S).
    { apply filter_In. split; auto. now rewrite E. }
    rewrite HS in Hin. contradiction.
  - intros s Hs. apply filter_In in Hs. destruct Hs as [Hs Hno].
    apply negb_true_iff in Hno. apply str_in_false in Hno.
    destruct (pending_pos edges (node_ids order) s) as [e [He [Hto Hfrom]]].
    { intros Hz. apply Hno. pose proof (inv_ready Hinv s Hs) as Hr.
      rewrite app_nil_r in Hr. now apply Hr. }
    exists (DAGEdge.from_node e). split.
    + apply filter_In. split; [now apply Hends|].
      apply negb_true_iff. now apply str_in_false.
    + apply path_edge. exists e. auto.
Qed.

Lemma climbs_acyclic rank edges : climbs rank edges = true -> acyclic edges.
Proof.
  unfold climbs. rewrite forallb_forall. intros Hc.
  assert (Hp : forall a b, path edges a b -> rank a < rank b).
  { induction 1 as [a b [e [He [<- <-]]]|a m b [e [He [<- <-]]] _ IH].
    - apply Nat.ltb_lt. now apply Hc.
    - apply Hc in He. apply Nat.ltb_lt in He. lia. }
  intros v Hv. apply Hp in Hv. lia.
Qed.

Lemma known_by_eval nodes edges :
  forallb (fun e => str_in (DAGEdge.from_node e) (node_ids nodes)
                    && str_in (DAGEdge.to_node e) (node_ids nodes)) edges = true ->
  endpoints_known nodes edges.
Proof.
  rewrite forallb_forall. intros H e He. apply H in He.
  apply andb_true_iff in He. now rewrite !str_in_spec in He.
Qed.

Lemma NoDup_by_eval (l : list string) :
  (List.length (nodup string_dec l) =? List.length l)%nat = true -> NoDup l.
Proof.
  intros H. apply Nat.eqb_eq in H.
  induction l as [|x l IH]; [constructor|].
  simpl in H. destruct (in_dec string_dec x l) as [Hin|Hin].
  - assert (Hle : List.length (nodup string_dec l) <= List.length l).
    { apply NoDup_incl_length; [apply NoDup_nodup|]. intros y Hy. now apply nodup_In in Hy. }
    lia.
  - constructor; auto.
Qed.

(** Without a cycle the loop outputs every node. *)
Lemma kahn_complete nodes edges in_degree order :
  NoDup (node_ids nodes) -> endpoints_known nodes edges -> acyclic edges ->
  kahn_inv nodes edges in_degree [] order ->
  Permutation order nodes.
Proof.
  intros Huniq Hends Hac Hinv.
  pose proof (kahn_final_nodup Hinv) as Hnd.
  pose proof (kahn_final_incl Hinv) as Hincl.
  pose proof (kahn_final_all Hends Hac Hinv) as Hall.
  apply NoDup_Permutation.
  - apply (NoDup_map_inv _ _ Hnd).
  - now apply NoDup_node_ids_nodes.
  - intros n. split; [apply Hincl|].
    intros Hn. assert (Hid : In (DAGNode.id n) (node_ids order)).
    { apply Hall. now apply in_map. }
    apply in_map_iff in Hid. destruct Hid as [m [Hm Hin]].
    assert (m = n).
    { apply (NoDup_map_inj DAGNode.id nodes); auto. }
    now subst.
Qed.

(** A node on a cycle is never output. *)
Lemma kahn_short_on_cycle nodes edges in_degree order :
  endpoints_known nodes edges -> has_cycle edges ->
  kahn_inv nodes edges in_degree [] order ->
  List.length order < List.length nodes.
Proof.
  intros Hends [v Hv] Hinv.
  pose proof (kahn_final_nodup Hinv) as Hnd.
  pose proof (kahn_final_incl Hinv) as Hincl.
  assert (Hnot : ~ In v (node_ids order)).
  { apply (cycle_not_ordered Hnd (inv_order Hinv) Hv). }
  assert (Hvin : In v (node_ids nodes)).
  { eapply path_source_known; eauto. }
  assert (Hle : List.length (v :: node_ids order) <= List.length (node_ids nodes)).
  { apply NoDup_incl_length.
    - constructor; auto.
    - intros x [<-|Hx]; auto.
      apply in_map_iff in Hx. destruct Hx as [n [<- Hn]]. apply in_map. auto. }
  unfold node_ids in Hle. simpl in Hle. rewrite !length_map in Hle. lia.
Qed.

(** C1. For every acyclic graph of the data model (pairwise distinct node
    identifiers, every edge endpoint a known identifier),
    [get_topological_order] returns a permutation of the node list in
    which, for every edge [a -> b], [a] stands at a strictly smaller index
    than [b]. *)
Theorem topological_order_sorts_acyclic (g : DAGElement.t) :
  well_formed g ->
  acyclic (DAGElement.edges g) ->
  exists order,
    get_topological_order g = Ok order
    /\ Permutation order (DAGElement.nodes g)
    /\ forall e, In e (DAGElement.edges g) ->
         precedes (node_ids order) (DAGEdge.from_node e) (DAGEdge.to_node e).
Proof.
  intros Hwf Hac. destruct (topological_order_ok Hwf) as [order [ind [Hrun Hinv]]].
  destruct Hwf as [Huniq Hends].
  exists order. split; [exact Hrun|]. split.
  - apply (kahn_complete Huniq Hends Hac Hinv).
  - intros e He.
    assert (Hto : In (DAGEdge.to_node e) (node_ids order)).
    { apply (kahn_final_all Hends Hac Hinv). now apply Hends. }
    apply in_split in Hto. destruct Hto as [l1 [l2 Heq]].
    rewrite Heq. apply precedes_of_split.
    eapply (inv_order Hinv); eauto.
Qed.

Lemma topological_order_sorts_acyclic_witness :
  exists order,
    get_topological_order chain_abc = Ok order
    /\ Permutation order (DAGElement.nodes chain_abc)
    /\ forall e, In e (DAGElement.edges chain_abc) ->
         precedes (node_ids order) (DAGEdge.from_node e) (DAGEdge.to_node e).
Proof.
  apply (topological_order_sorts_acyclic (g := chain_abc)).
  - split.
    + apply NoDup_by_eval. reflexivity.
    + apply known_by_eval. reflexivity.
  - apply (climbs_acyclic (index_of ["a"; "b"; "c"])). reflexivity.
Defined.

(** C3, as the code has it. On every graph of the data model the nodes
    without incoming edge are output first, in node-list order; of two
    nodes that reach in-degree zero while the same node [c] is processed,
    the first one output is the one whose last edge from [c] comes first
    in the edge list (the queue is first-in first-out and the adjacency
    list of [c] follows the edge list), whatever their order in the node
    list. *)
Theorem ties_follow_edge_order (g : DAGElement.t) :
  well_formed g ->
  exists order,
    get_topological_order g = Ok order
    /\ (exists rest, order = sources (DAGElement.nodes g) (DAGElement.edges g) ++ rest)
    /\ (forall c v w,
          released_by (DAGElement.edges g) (node_ids order) c v ->
          released_by (DAGElement.edges g) (node_ids order) c w ->
          v <> w ->
          (precedes (node_ids order) v w
           <-> after_last (succs (DAGElement.edges g) c) v w)).
Proof.
  intros Hwf. destruct (topological_order_ok Hwf) as [order [ind [Hrun Hinv]]].
  destruct Hwf as [Huniq Hends].
  exists order. split; [exact Hrun|]. split.
  - destruct (inv_sources Hinv) as [rest Hrest]. exists rest.
    now rewrite app_nil_r in Hrest.
  - intros c v w Hv Hw Hne.
    pose proof (inv_ties Hinv) as Hties. rewrite app_nil_r in Hties.
    split; [now apply Hties|].
    intros Hal.
    assert (Hin : forall x, released_by (DAGElement.edges g) (node_ids order) c x ->
              In x (node_ids order)).
    { intros x Hx.
      pose proof (@released_done _ _ _ _ (kahn_final_nodup Hinv) Hx) as Hz.
      destruct Hx as [_ [_ [_ [Hsucc _]]]].
      apply in_succs in Hsucc. destruct Hsucc as [e [He [_ Hto]]].
      pose proof (inv_ready Hinv x) as Hr. rewrite app_nil_r in Hr.
      apply Hr; auto. subst x. now apply Hends. }
    destruct (@precedes_total _ _ _ _ (Hin v Hv) (Hin w Hw) Hne) as [H|H]; auto.
    exfalso. apply (after_last_asym Hal). now apply Hties.
Qed.

Lemma ties_follow_edge_order_witness :
  exists order,
    get_topological_order fork_acb = Ok order
    /\ (exists rest,
          order = sources (DAGElement.nodes fork_acb) (DAGElement.edges fork_acb) ++ rest)
    /\ (forall c v w,
          released_by (DAGElement.edges fork_acb) (node_ids order) c v ->
          released_by (DAGElement.edges fork_acb) (node_ids order) c w ->
          v <> w ->
          (precedes (node_ids order) v w
           <-> after_last (succs (DAGElement.edges fork_acb) c) v w)).
Proof.
  apply (@ties_follow_edge_order fork_acb).
  split.
  - apply NoDup_by_eval. reflexivity.
  - apply known_by_eval. reflexivity.
Defined.

(** C3 as stated fails: [b] and [c] both reach in-degree zero while [a] is
    processed, [b] comes first in the node list, and [c] is output first
    because the edge to [c] comes first in the edge list. *)
Lemma fork_breaks_node_list_order :
  well_formed fork_acb
  /\ acyclic (DAGElement.edges fork_acb)
  /\ exists order,
       get_topological_order fork_acb = Ok order
       /\ node_ids order = ["a"; "c"; "b"]
       /\ ~ node_list_tie_break (DAGElement.nodes fork_acb) (DAGElement.edges fork_acb) order.
Proof.
  split; [split; [apply NoDup_by_eval; reflexivity|apply known_by_eval; reflexivity]|].
  split; [apply (climbs_acyclic (index_of ["a"; "b"; "c"])); reflexivity|].
  eexists. split; [reflexivity|]. split; [reflexivity|].
  intros H. specialize (H "a" "b" "c").
  assert (Hb : released_by (DAGElement.edges fork_acb) ["a"; "c"; "b"] "a" "b").
  { exists [], ["c"; "b"]. split; [reflexivity|]. split; [simpl; auto|reflexivity]. }
  assert (Hc : released_by (DAGElement.edges fork_acb) ["a"; "c"; "b"] "a" "c").
  { exists [], ["c"; "b"]. split; [reflexivity|]. split; [simpl; auto|reflexivity]. }
  assert (Hp : precedes (node_ids (DAGElement.nodes fork_acb)) "b" "c").
  { exists 1, 2. repeat split. lia. }
  destruct (H Hb Hc Hp) as [i [j [Hlt [Hi Hj]]]].
  repeat (destruct i as [|i]; simpl in Hi; try discriminate);
    repeat (destruct j as [|j]; simpl in Hj; try discriminate); lia.
Qed.

(** ** [_check_acyclic] runs the same loop on identifiers *)

Lemma bind_ok_inv {A B : Type} (c : result A) (k : A -> result B) b :
  bind c k = Ok b -> exists a, c = Ok a /\ k a = Ok b.
Proof. destruct c; simpl; intros H; try discriminate. eauto. Qed.

Lemma relax_sim nodes ts : forall in_degree queue in_degree' queue',
  (forall t, In t ts -> In t (node_ids nodes)) ->
  for_each (relax nodes) ts (in_degree, queue) = Ok (in_degree', queue') ->
  for_each relax_id ts (in_degree, node_ids queue) = Ok (in_degree', node_ids queue').
Proof.
  induction ts as [|t ts IH]; intros ind queue ind' queue' Hids Hrun.
  - simpl in *. now inversion Hrun.
  - cbn [for_each] in *. apply bind_ok_inv in Hrun. destruct Hrun as [[ind1 q1] [Hstep Hrest]].
    unfold relax in Hstep. apply bind_ok_inv in Hstep. destruct Hstep as [d [Hd Hstep]].
    unfold relax_id at 1. rewrite Hd. cbn [bind].
    destruct (find_node_in nodes t (Hids t (or_introl eq_refl))) as [n Hn].
    rewrite Hn in Hstep. destruct (find_node_some _ _ Hn) as [_ Hnid].
    assert (Hids' : forall t0, In t0 ts -> In t0 (node_ids nodes))
      by (intros; apply Hids; now right).
    destruct (d - 1 =? 0)%Z; inversion Hstep; subst ind1 q1; cbn [bind].
    + specialize (IH _ _ _ _ Hids' Hrest).
      rewrite node_ids_app in IH. simpl in IH. now rewrite Hnid in IH.
    + now apply IH.
Qed.

Lemma loop_sim nodes adjacency fuel : forall in_degree queue topo_order order c,
  (forall u ts, PyDict.get adjacency u = Some ts ->
     forall t, In t ts -> In t (node_ids nodes)) ->
  topo_loop fuel nodes adjacency in_degree queue topo_order = Ok order ->
  exists k, List.length order = List.length topo_order + k
            /\ acyclic_loop fuel adjacency in_degree (node_ids queue) c = Ok (c + k).
Proof.
  induction fuel as [|fuel IH]; intros ind queue topo order c Hadj Hrun.
  - destruct queue; simpl in *; [|discriminate].
    inversion Hrun. subst. exists 0. split; [lia|]. f_equal. lia.
  - destruct queue as [|current queue].
    + simpl in *. inversion Hrun. subst. exists 0. split; [lia|]. f_equal. lia.
    + cbn [topo_loop] in Hrun. apply bind_ok_inv in Hrun.
      destruct Hrun as [targets [Htg Hrun]].
      apply bind_ok_inv in Hrun. destruct Hrun as [[ind1 q1] [Hfold Hrun]].
      cbn [node_ids map acyclic_loop]. rewrite Htg. cbn [bind].
      apply getitem_inv in Htg.
      change (map DAGNode.id queue) with (node_ids queue).
      rewrite (relax_sim nodes targets _ _ (Hadj _ _ Htg) Hfold). cbn [bind].
      destruct (IH _ _ _ _ (c + 1) Hadj Hrun) as [k [Hlen Hloop]].
      exists (S k). rewrite length_app in Hlen. simpl in Hlen. split; [lia|].
      rewrite Hloop. f_equal. lia.
Qed.

Lemma zero_keys_in_order {V : Type} (f : V -> bool) (d : PyDict.t V) :
  NoDup (PyDict.keys d) ->
  map fst (filter (fun kv => f (snd kv)) (PyDict.items d))
  = filter (fun k => match PyDict.get d k with Some v => f v | None => false end)
      (PyDict.keys d).
Proof.
  unfold PyDict.items, PyDict.keys. induction d as [|[k v] d IH]; intros Hnd; auto.
  inversion Hnd as [|? ? Hnotin Hnd']; subst.
  cbn [map filter fst snd PyDict.get]. rewrite String.eqb_refl.
  assert (Htail : filter (fun k0 => match (if String.eqb k k0 then Some v else PyDict.get d k0)
                                     with Some v0 => f v0 | None => false end) (map fst d)
                  = filter (fun k0 => match PyDict.get d k0 with
                                      | Some v0 => f v0 | None => false end) (map fst d)).
  { apply filter_ext_in. intros k0 Hk0.
    destruct (String.eqb k k0) eqn:E; auto.
    apply String.eqb_eq in E. subst k0. contradiction. }
  rewrite Htail, <- IH by auto.
  destruct (f v); reflexivity.
Qed.

Lemma filter_node_ids (p : string -> bool) nodes :
  filter p (node_ids nodes) = node_ids (filter (fun n => p (DAGNode.id n)) nodes).
Proof.
  induction nodes as [|n nodes IH]; simpl; auto.
  destruct (p (DAGNode.id n)); simpl; now rewrite IH.
Qed.

Lemma check_acyclic_counts (g : DAGElement.t) order :
  well_formed g ->
  get_topological_order g = Ok order ->
  _check_acyclic (DAGElement.nodes g) (DAGElement.edges g)
  = Ok (List.length order =? List.length (DAGElement.nodes g))%nat.
Proof.
  intros [Huniq Hends] Hrun. unfold get_topological_order in Hrun. unfold _check_acyclic.
  destruct (build_tables_ok Hends) as [K [adj [ind [Hb [HK [HKeq [Hka [Hki [Hadj Hind]]]]]]]]].
  rewrite Hb in *. cbn [bind] in *.
  rewrite (filter_r_zero_in_degree (DAGElement.edges g)) in Hrun.
  2:{ intros n Hn. apply Hind. now apply in_map. }
  cbn [bind] in Hrun.
  specialize (HKeq Huniq). subst K.
  assert (Hq : map fst (filter (fun kv : string * Z => (snd kv =? 0)%Z) (PyDict.items ind))
               = node_ids (filter (fun n => Nat.eqb (indeg (DAGElement.edges g) (DAGNode.id n)) 0)
                             (DAGElement.nodes g))).
  { rewrite (zero_keys_in_order (fun z => (z =? 0)%Z)) by (rewrite Hki; auto).
    rewrite Hki.
    rewrite <- (filter_node_ids (fun k => Nat.eqb (indeg (DAGElement.edges g) k) 0)).
    apply filter_ext_in. intros k Hk.
    rewrite (Hind k Hk). destruct (indeg (DAGElement.edges g) k); reflexivity. }
  rewrite Hq.
  assert (Htargets : forall u ts, PyDict.get adj u = Some ts ->
            forall t, In t ts -> In t (node_ids (DAGElement.nodes g))).
  { intros u ts Hu t Ht.
    assert (Hin : In u (node_ids (DAGElement.nodes g))).
    { rewrite <- Hka. eapply get_some_in_keys; eauto. }
    rewrite (Hadj u Hin) in Hu. inversion Hu. subst ts.
    apply in_succs in Ht. destruct Ht as [e [He [_ <-]]]. now apply Hends. }
  destruct (@loop_sim _ _ _ _ _ _ _ 0 Htargets Hrun) as [k [Hlen Hloop]].
  rewrite Hloop. cbn [bind]. simpl in Hlen. now rewrite Hlen.
Qed.

(** C2. On every graph of the data model that contains a directed cycle,
    [_check_acyclic] returns [False] and [get_topological_order] returns
    fewer nodes than the graph has. *)
Theorem cycle_detected (g : DAGElement.t) :
  well_formed g ->
  has_cycle (DAGElement.edges g) ->
  _check_acyclic (DAGElement.nodes g) (DAGElement.edges g) = Ok false
  /\ exists order,
       get_topological_order g = Ok order
       /\ List.length order < List.length (DAGElement.nodes g).
Proof.
  intros Hwf Hcyc. destruct (topological_order_ok Hwf) as [order [ind [Hrun Hinv]]].
  pose proof (kahn_short_on_cycle (proj2 Hwf) Hcyc Hinv) as Hlt.
  split.
  - rewrite (check_acyclic_counts Hwf Hrun). f_equal. apply Nat.eqb_neq. lia.
  - eauto.
Qed.

Lemma cycle_detected_witness :
  _check_acyclic (DAGElement.nodes cycle_ab) (DAGElement.edges cycle_ab) = Ok false
  /\ exists order,
       get_topological_order cycle_ab = Ok order
       /\ List.length order < List.length (DAGElement.nodes cycle_ab).
Proof.
  apply (cycle_detected (g := cycle_ab)).
  - split.
    + apply NoDup_by_eval. reflexivity.
    + apply known_by_eval. reflexivity.
  - exists "a". apply path_step with (b := "b").
    + exists (plain_edge ("a", "b")). simpl. auto.
    + apply path_edge. exists (plain_edge ("b", "a")). simpl. auto.
Defined.

(** ** Statistics *)

Lemma fold_add_shift l : forall a, fold_left Z.add l a = (a + fold_left Z.add l 0)%Z.
Proof.
  induction l as [|x l IH]; intros a; simpl; [lia|].
  rewrite (IH (a + x)%Z), (IH x). lia.
Qed.

Lemma sum_values_cons k v (d : PyDict.t Z) :
  sum_values ((k, v) :: d) = (v + sum_values d)%Z.
Proof. unfold sum_values. simpl. now rewrite fold_add_shift. Qed.

Lemma sum_values_set (d : PyDict.t Z) k v v' :
  PyDict.get d k = Some v ->
  sum_values (PyDict.set d k v') = (sum_values d - v + v')%Z.
Proof.
  induction d as [|[k0 v0] d IH]; simpl; [discriminate|].
  destruct (String.eqb k0 k).
  - intros H. inversion H. subst. rewrite !sum_values_cons. lia.
  - intros H. rewrite !sum_values_cons, IH by auto. lia.
Qed.

Lemma sum_values_const ks : sum_values (const_dict ks 0%Z) = 0%Z.
Proof.
  induction ks as [|k ks IH]; auto.
Qed.

Lemma init_degree_tables_gen nodes : forall a i o,
  fold_left
    (fun (tb : degree_tables) node =>
       let '(adjacency, in_degree, out_degree) := tb in
       (PyDict.set adjacency (DAGNode.id node) [],
        PyDict.set in_degree (DAGNode.id node) 0%Z,
        PyDict.set out_degree (DAGNode.id node) 0%Z))
    nodes (a, i, o)
  = (fst (fold_left
            (fun (tb : tables) node =>
               let '(adjacency, in_degree) := tb in
               (PyDict.set adjacency (DAGNode.id node) [],
                PyDict.set in_degree (DAGNode.id node) 0%Z))
            nodes (a, i)),
     snd (fold_left
            (fun (tb : tables) node =>
               let '(adjacency, in_degree) := tb in
               (PyDict.set adjacency (DAGNode.id node) [],
                PyDict.set in_degree (DAGNode.id node) 0%Z))
            nodes (a, i)),
     snd (fold_left
            (fun (tb : tables) node =>
               let '(adjacency, in_degree) := tb in
               (PyDict.set adjacency (DAGNode.id node) [],
                PyDict.set in_degree (DAGNode.id node) 0%Z))
            nodes (a, o))).
Proof.
  induction nodes as [|n nodes IH]; intros a i o; simpl; auto.
Qed.

Lemma init_degree_tables_spec nodes :
  exists K,
    init_degree_tables nodes = (const_dict K [], const_dict K 0%Z, const_dict K 0%Z)
    /\ (forall v, In v K <-> In v (node_ids nodes))
    /\ NoDup K
    /\ (NoDup (node_ids nodes) -> K = node_ids nodes).
Proof.
  destruct (init_tables_spec nodes) as [K [H1 H2]].
  exists K. split; auto.
  unfold init_degree_tables. rewrite init_degree_tables_gen.
  unfold init_tables in H1. unfold PyDict.empty in *. now rewrite H1.
Qed.

Lemma count_edges_spec edges : forall adjacency in_degree out_degree adj' ind' out',
  for_each count_edge edges (adjacency, in_degree, out_degree) = Ok (adj', ind', out') ->
  PyDict.keys adj' = PyDict.keys adjacency
  /\ PyDict.keys ind' = PyDict.keys in_degree
  /\ PyDict.keys out' = PyDict.keys out_degree
  /\ sum_values ind' = (sum_values in_degree + len edges)%Z
  /\ sum_values out' = (sum_values out_degree + len edges)%Z
  /\ (forall e, In e edges ->
        In (DAGEdge.from_node e) (PyDict.keys adjacency)
        /\ In (DAGEdge.to_node e) (PyDict.keys in_degree)).
Proof.
  unfold len.
  induction edges as [|e edges IH]; intros adj ind out adj' ind' out' Hrun.
  - simpl in Hrun. inversion Hrun. subst. simpl. repeat split; try lia; contradiction.
  - cbn [for_each] in Hrun. apply bind_ok_inv in Hrun.
    destruct Hrun as [[[adj1 ind1] out1] [Hstep Hrest]].
    unfold count_edge in Hstep.
    apply bind_ok_inv in Hstep. destruct Hstep as [targets [Htg Hstep]].
    apply bind_ok_inv in Hstep. destruct Hstep as [d [Hd Hstep]].
    apply bind_ok_inv in Hstep. destruct Hstep as [o [Ho Hstep]].
    inversion Hstep. subst adj1 ind1 out1. clear Hstep.
    apply getitem_inv in Htg, Hd, Ho.
    pose proof (get_some_in_keys _ _ Htg) as Hk1.
    pose proof (get_some_in_keys _ _ Hd) as Hk2.
    pose proof (get_some_in_keys _ _ Ho) as Hk3.
    destruct (IH _ _ _ _ _ _ Hrest) as [G1 [G2 [G3 [G4 [G5 G6]]]]].
    rewrite keys_set_present in G1 by auto.
    rewrite keys_set_present in G2 by auto.
    rewrite keys_set_present in G3 by auto.
    erewrite sum_values_set in G4 by exact Hd.
    erewrite sum_values_set in G5 by exact Ho.
    repeat split; auto.
    + rewrite G4. simpl List.length. lia.
    + rewrite G5. simpl List.length. lia.
    + destruct H as [<-|H]; auto. apply G6 in H.
      rewrite keys_set_present in H by auto. tauto.
    + destruct H as [<-|H]; auto. apply G6 in H.
      rewrite (keys_set_present ind) in H by auto. tauto.
Qed.

Lemma truediv_ok a b q : truediv a b = Ok q -> q = (a / b)%Q /\ ~ (b == 0)%Q.
Proof.
  unfold truediv. destruct (Qeq_bool b 0) eqn:E; intros H; inversion H.
  split; [reflexivity|]. now apply Qeq_bool_neq.
Qed.

Lemma get_dag_statistics_inv g st :
  get_dag_statistics g = Ok st ->
  endpoints_known (DAGElement.nodes g) (DAGElement.edges g)
  /\ density st
     = (inject_Z (len (DAGElement.edges g))
        / inject_Z (Z.max 1 (len (DAGElement.nodes g) * (len (DAGElement.nodes g) - 1))))%Q
  /\ avg_in_degree st
     = match DAGElement.nodes g with
       | [] => 0%Q
       | _ => (inject_Z (len (DAGElement.edges g)) / inject_Z (len (DAGElement.nodes g)))%Q
       end
  /\ avg_out_degree st
     = match DAGElement.nodes g with
       | [] => 0%Q
       | _ => (inject_Z (len (DAGElement.edges g)) / inject_Z (len (DAGElement.nodes g)))%Q
       end
  /\ total_nodes st = len (DAGElement.nodes g)
  /\ total_edges st = len (DAGElement.edges g).
Proof.
  unfold get_dag_statistics. intros Hrun.
  apply bind_ok_inv in Hrun. destruct Hrun as [[[adj ind] out] [Hcount Hrun]].
  apply bind_ok_inv in Hrun. destruct Hrun as [starts [_ Hrun]].
  apply bind_ok_inv in Hrun. destruct Hrun as [ends [_ Hrun]].
  apply bind_ok_inv in Hrun. destruct Hrun as [dens [Hdens Hrun]].
  apply bind_ok_inv in Hrun. destruct Hrun as [avi [Havi Hrun]].
  apply bind_ok_inv in Hrun. destruct Hrun as [avo [Havo Hrun]].
  inversion Hrun. subst st. clear Hrun. simpl.
  destruct (init_degree_tables_spec (DAGElement.nodes g)) as [K [HK1 [HK2 _]]].
  rewrite HK1 in Hcount.
  destruct (count_edges_spec _ _ _ _ Hcount) as [_ [_ [_ [G4 [G5 G6]]]]].
  rewrite sum_values_const in G4, G5. simpl in G4, G5.
  repeat split.
  - apply HK2. apply G6 in H. now rewrite keys_const_dict in H.
  - apply HK2. apply G6 in H. now rewrite !keys_const_dict in H.
  - now apply truediv_ok in Hdens.
  - destruct (DAGElement.nodes g); [now inversion Havi|].
    apply truediv_ok in Havi. rewrite G4 in Havi. tauto.
  - destruct (DAGElement.nodes g); [now inversion Havo|].
    apply truediv_ok in Havo. rewrite G5 in Havo. tauto.
Qed.

Lemma count_edges_ok edges : forall adjacency in_degree out_degree,
  (forall e, In e edges ->
     In (DAGEdge.from_node e) (PyDict.keys adjacency)
     /\ In (DAGEdge.to_node e) (PyDict.keys in_degree)
     /\ In (DAGEdge.from_node e) (PyDict.keys out_degree)) ->
  exists adj' ind' out',
    for_each count_edge edges (adjacency, in_degree, out_degree) = Ok (adj', ind', out').
Proof.
  induction edges as [|e edges IH]; intros adj ind out Hk.
  - simpl. eauto.
  - destruct (Hk e (or_introl eq_refl)) as [H1 [H2 H3]].
    destruct (in_keys_get _ _ H1) as [targets Htg].
    destruct (in_keys_get _ _ H2) as [d Hd].
    destruct (in_keys_get _ _ H3) as [o Ho].
    cbn [for_each]. unfold count_edge at 1, PyDict.getitem.
    rewrite Htg, Hd, Ho. cbn [bind].
    apply IH. intros e' He'. rewrite !keys_set_present by auto.
    apply Hk. now right.
Qed.

Lemma filter_r_zero_ok in_degree nodes0 :
  (forall n, In n nodes0 -> In (DAGNode.id n) (PyDict.keys in_degree)) ->
  exists r, filter_r (zero_in_degree in_degree) nodes0 = Ok r.
Proof.
  induction nodes0 as [|n l IH]; intros H; simpl; eauto.
  destruct (in_keys_get _ _ (H n (or_introl eq_refl))) as [d Hd].
  unfold zero_in_degree at 1, PyDict.getitem. rewrite Hd. cbn [bind].
  destruct IH as [r Hr]; [intros; apply H; now right|].
  rewrite Hr. cbn [bind]. eauto.
Qed.

Lemma truediv_nonzero a b : ~ (b == 0)%Q -> truediv a b = Ok (a / b)%Q.
Proof.
  intros H. unfold truediv. destruct (Qeq_bool b 0) eqn:E; auto.
  apply Qeq_bool_eq in E. contradiction.
Qed.

Lemma inject_Z_nonzero z : z <> 0%Z -> ~ (inject_Z z == 0)%Q.
Proof. intros H E. apply H. unfold Qeq in E. simpl in E. lia. Qed.

(** The call returns on every graph whose edge endpoints are known. *)
Lemma get_dag_statistics_returns g :
  endpoints_known (DAGElement.nodes g) (DAGElement.edges g) ->
  exists st, get_dag_statistics g = Ok st.
Proof.
  intros Hends. unfold get_dag_statistics.
  destruct (init_degree_tables_spec (DAGElement.nodes g)) as [K [HK1 [HK2 _]]].
  rewrite HK1.
  destruct (count_edges_ok (DAGElement.edges g) (const_dict K []) (const_dict K 0%Z)
              (const_dict K 0%Z)) as [adj [ind [out Hc]]].
  { intros e He. rewrite !keys_const_dict, !HK2. destruct (Hends e He). auto. }
  rewrite Hc. cbn [bind].
  destruct (count_edges_spec _ _ _ _ Hc) as [_ [G2 [G3 _]]].
  rewrite keys_const_dict in G2, G3.
  destruct (filter_r_zero_ok ind (DAGElement.nodes g)) as [starts Hs].
  { intros n Hn. rewrite G2, HK2. now apply in_map. }
  destruct (filter_r_zero_ok out (DAGElement.nodes g)) as [ends He].
  { intros n Hn. rewrite G3, HK2. now apply in_map. }
  rewrite Hs, He. cbn [bind].
  rewrite truediv_nonzero by (apply inject_Z_nonzero; lia). cbn [bind].
  destruct (DAGElement.nodes g) as [|n l] eqn:En.
  - cbn [bind]. eauto.
  - rewrite !truediv_nonzero by (apply inject_Z_nonzero; unfold len; simpl; lia).
    cbn [bind]. eauto.
Qed.

(** Every edge counts once in the degree table of its endpoint. *)
Lemma list_sum_add {A : Type} (a b : A -> nat) l :
  list_sum (map (fun v => a v + b v) l) = list_sum (map a l) + list_sum (map b l).
Proof. induction l as [|x l IH]; simpl; auto. rewrite IH. lia. Qed.

Lemma indicator_sum (k : string) K :
  NoDup K -> In k K ->
  list_sum (map (fun v => if String.eqb k v then 1 else 0) K) = 1.
Proof.
  induction 1 as [|x K Hx Hnd IH]; intros Hin; [destruct Hin|]. simpl.
  assert (Hzero : forall K0, ~ In k K0 ->
            list_sum (map (fun v => if String.eqb k v then 1 else 0) K0) = 0).
  { induction K0 as [|y K0 IH0]; intros Hn; simpl; auto.
    destruct (String.eqb k y) eqn:E.
    - apply String.eqb_eq in E. subst. exfalso. apply Hn. now left.
    - apply IH0. intros H. apply Hn. now right. }
  destruct Hin as [->|Hin].
  - rewrite String.eqb_refl. rewrite Hzero; auto.
  - destruct (String.eqb k x) eqn:E.
    + apply String.eqb_eq in E. subst. contradiction.
    + now apply IH.
Qed.

Lemma degree_sum_edges (key : DAGEdge.t -> string) K edges :
  NoDup K ->
  (forall e, In e edges -> In (key e) K) ->
  list_sum
    (map (fun v => List.length (filter (fun e => String.eqb (key e) v) edges)) K)
  = List.length edges.
Proof.
  intros Hnd. induction edges as [|e edges IH]; intros Hk.
  - simpl. clear Hnd Hk. induction K as [|x K IHK]; simpl; auto.
  - rewrite (map_ext
               (fun v => List.length (filter (fun e0 => String.eqb (key e0) v) (e :: edges)))
               (fun v => (if String.eqb (key e) v then 1 else 0)
                         + List.length (filter (fun e0 => String.eqb (key e0) v) edges))).
    + rewrite list_sum_add, indicator_sum; auto.
      * rewrite IH; [reflexivity|]. intros e' He'. apply Hk. now right.
      * apply Hk. now left.
    + intros v. simpl. destruct (String.eqb (key e) v); reflexivity.
Qed.

(** C10. On every graph the call accepts (every edge endpoint names a
    node), the returned record counts the graph: [total_nodes] and
    [total_edges] are the lengths of the node and the edge list, and the
    in-degrees as well as the out-degrees of the distinct identifiers add
    up to [total_edges], every edge counting once in each. With at least
    one node, [total_nodes] is positive and the two degree means are equal
    to each other and to [total_edges / total_nodes], the number of edges
    divided by the number of nodes; on the empty graph both means are 0. *)
Theorem degree_means_agree (g : DAGElement.t) :
  endpoints_known (DAGElement.nodes g) (DAGElement.edges g) ->
  exists st,
    get_dag_statistics g = Ok st
    /\ total_nodes st = len (DAGElement.nodes g)
    /\ total_edges st = len (DAGElement.edges g)
    /\ Z.of_nat (list_sum (map (indeg (DAGElement.edges g))
                             (set_of (node_ids (DAGElement.nodes g)))))
       = total_edges st
    /\ Z.of_nat (list_sum (map (outdeg (DAGElement.edges g))
                             (set_of (node_ids (DAGElement.nodes g)))))
       = total_edges st
    /\ (DAGElement.nodes g <> [] ->
          (0 < total_nodes st)%Z
          /\ avg_in_degree st = (inject_Z (total_edges st) / inject_Z (total_nodes st))%Q
          /\ avg_out_degree st = (inject_Z (total_edges st) / inject_Z (total_nodes st))%Q
          /\ avg_in_degree st = avg_out_degree st
          /\ avg_in_degree st
             = (inject_Z (len (DAGElement.edges g))
                / inject_Z (len (DAGElement.nodes g)))%Q)
    /\ (DAGElement.nodes g = [] ->
          avg_in_degree st = 0%Q /\ avg_out_degree st = 0%Q).
Proof.
  intros Hends. destruct (get_dag_statistics_returns g Hends) as [st Hst].
  exists st. split; auto.
  destruct (get_dag_statistics_inv g Hst) as [_ [_ [Hin [Hout [Hn He]]]]].
  assert (Hnd : NoDup (set_of (node_ids (DAGElement.nodes g))))
    by (unfold set_of; apply NoDup_nodup).
  split; [exact Hn|]. split; [exact He|]. split; [|split].
  - rewrite He. unfold len. f_equal. unfold indeg.
    apply (@degree_sum_edges DAGEdge.to_node _ (DAGElement.edges g) Hnd).
    intros e Hin'. unfold set_of. apply nodup_In. now apply Hends.
  - rewrite He. unfold len. f_equal. unfold outdeg.
    apply (@degree_sum_edges DAGEdge.from_node _ (DAGElement.edges g) Hnd).
    intros e Hin'. unfold set_of. apply nodup_In. now apply Hends.
  - rewrite Hn, He.
    destruct (DAGElement.nodes g) as [|n l].
    + split; [intros H; now elim H|]. auto.
    + split; [|discriminate]. intros _. rewrite Hin, Hout.
      split; [unfold len; simpl; lia|]. auto.
Qed.

Lemma degree_means_agree_witness :
  exists st,
    get_dag_statistics chain_abc = Ok st
    /\ total_nodes st = len (DAGElement.nodes chain_abc)
    /\ total_edges st = len (DAGElement.edges chain_abc)
    /\ Z.of_nat (list_sum (map (indeg (DAGElement.edges chain_abc))
                             (set_of (node_ids (DAGElement.nodes chain_abc)))))
       = total_edges st
    /\ Z.of_nat (list_sum (map (outdeg (DAGElement.edges chain_abc))
                             (set_of (node_ids (DAGElement.nodes chain_abc)))))
       = total_edges st
    /\ (DAGElement.nodes chain_abc <> [] ->
          (0 < total_nodes st)%Z
          /\ avg_in_degree st = (inject_Z (total_edges st) / inject_Z (total_nodes st))%Q
          /\ avg_out_degree st = (inject_Z (total_edges st) / inject_Z (total_nodes st))%Q
          /\ avg_in_degree st = avg_out_degree st
          /\ avg_in_degree st
             = (inject_Z (len (DAGElement.edges chain_abc))
                / inject_Z (len (DAGElement.nodes chain_abc)))%Q)
    /\ (DAGElement.nodes chain_abc = [] ->
          avg_in_degree st = 0%Q /\ avg_out_degree st = 0%Q).
Proof.
  apply (degree_means_agree chain_abc).
  apply known_by_eval. reflexivity.
Defined.

(** A simple graph on [k] distinct identifiers has at most [k * (k - 1)]
    edges: its endpoint pairs and the [k] diagonal pairs are distinct
    elements of the square. *)
Lemma simple_edges_bound (K : list string) edges :
  NoDup K ->
  (forall e, In e edges -> In (DAGEdge.from_node e) K /\ In (DAGEdge.to_node e) K) ->
  simple_edges edges ->
  List.length edges + List.length K <= List.length K * List.length K.
Proof.
  intros HK Hends [Hloop Hnd].
  set (P := map (fun e => (DAGEdge.from_node e, DAGEdge.to_node e)) edges) in *.
  set (D := map (fun x : string => (x, x)) K).
  assert (HD : NoDup D).
  { unfold D. clear -HK. induction HK as [|x l Hx Hl IH]; simpl; constructor; auto.
    intros Hin. apply in_map_iff in Hin. destruct Hin as [y [Hy Hin]].
    inversion Hy. now subst. }
  assert (Hlen : List.length (P ++ D) <= List.length (list_prod K K)).
  { apply NoDup_incl_length.
    - apply NoDup_app; auto. intros [a b] Ha Hb.
      apply in_map_iff in Ha. destruct Ha as [e [He Hin]].
      apply in_map_iff in Hb. destruct Hb as [x [Hx _]].
      inversion He. inversion Hx. subst. apply (Hloop e Hin). congruence.
    - intros [a b] Hab. apply in_prod_iff. apply in_app_or in Hab.
      destruct Hab as [Hab|Hab].
      + apply in_map_iff in Hab. destruct Hab as [e [He Hin]].
        inversion He. subst. now apply Hends.
      + apply in_map_iff in Hab. destruct Hab as [x [Hx Hin]].
        inversion Hx. subst. auto. }
  rewrite length_app, length_prod in Hlen. unfold P, D in Hlen.
  now rewrite !length_map in Hlen.
Qed.

Lemma edges_of_small_graph nodes edges :
  endpoints_known nodes edges ->
  List.length nodes <= 1 ->
  (forall e, In e edges -> DAGEdge.from_node e <> DAGEdge.to_node e) ->
  edges = [].
Proof.
  intros Hends Hn Hloop. destruct edges as [|e edges]; auto. exfalso.
  destruct (Hends e (or_introl eq_refl)) as [Hf Ht].
  apply (Hloop e (or_introl eq_refl)).
  destruct nodes as [|n [|n' l]]; simpl in *; try lia; try tauto.
  destruct Hf as [<-|[]], Ht as [<-|[]]. reflexivity.
Qed.

Lemma ratio_in_unit (a b : Z) :
  (0 <= a <= b)%Z -> (0 < b)%Z ->
  (0 <= inject_Z a / inject_Z b)%Q /\ (inject_Z a / inject_Z b <= 1)%Q.
Proof.
  intros Ha Hb.
  assert (Hb' : (0 < inject_Z b)%Q).
  { change 0%Q with (inject_Z 0). rewrite <- Zlt_Qlt. exact Hb. }
  split.
  - apply Qle_shift_div_l; auto. rewrite Qmult_0_l.
    change 0%Q with (inject_Z 0). rewrite <- Zle_Qle. lia.
  - apply Qle_shift_div_r; auto. rewrite Qmult_1_l.
    rewrite <- Zle_Qle. lia.
Qed.

(** C4, as the code has it. On every graph the call accepts, [density] is
    the edge count divided by [max(1, n * (n - 1))]: for [n >= 2] nodes it
    is [edges / (n * (n - 1))]; for [n <= 1] it is the edge count itself,
    hence 0 when the graph has no self-loop; for a simple graph (no
    self-loop, no two edges with the same endpoints) it lies in [0, 1]. *)
Theorem density_formula (g : DAGElement.t) :
  endpoints_known (DAGElement.nodes g) (DAGElement.edges g) ->
  exists st,
    get_dag_statistics g = Ok st
    /\ (2 <= len (DAGElement.nodes g) ->
          density st
          = (inject_Z (len (DAGElement.edges g))
             / inject_Z (len (DAGElement.nodes g) * (len (DAGElement.nodes g) - 1)))%Q)%Z
    /\ (len (DAGElement.nodes g) <= 1 ->
          (density st == inject_Z (len (DAGElement.edges g)))%Q)%Z
    /\ (len (DAGElement.nodes g) <= 1 ->
          (forall e, In e (DAGElement.edges g) ->
             DAGEdge.from_node e <> DAGEdge.to_node e) ->
          (density st == 0)%Q)%Z
    /\ (simple_edges (DAGElement.edges g) ->
          (0 <= density st)%Q /\ (density st <= 1)%Q).
Proof.
  intros Hends. destruct (get_dag_statistics_returns g Hends) as [st Hst].
  exists st. split; auto.
  destruct (get_dag_statistics_inv g Hst) as [_ [Hd _]]. rewrite Hd.
  set (n := len (DAGElement.nodes g)). set (m := len (DAGElement.edges g)).
  assert (Hn0 : (0 <= n)%Z) by (unfold n, len; lia).
  assert (Hm0 : (0 <= m)%Z) by (unfold m, len; lia).
  assert (Hsmall : (n <= 1 -> Z.max 1 (n * (n - 1)) = 1)%Z) by nia.
  assert (Hbig : (2 <= n -> Z.max 1 (n * (n - 1)) = n * (n - 1))%Z) by nia.
  assert (Hsimple : simple_edges (DAGElement.edges g) ->
            (0 <= m <= Z.max 1 (n * (n - 1)))%Z).
  { intros [Hloop Hnd]. split; auto.
    destruct (Z_le_gt_dec n 1) as [Hle|Hgt].
    - assert (He : DAGElement.edges g = []).
      { apply (edges_of_small_graph Hends); auto. unfold n, len in Hle. lia. }
      unfold m. rewrite He. unfold len. simpl. lia.
    - rewrite Hbig by lia.
      set (K := nodup string_dec (node_ids (DAGElement.nodes g))).
      assert (HK : List.length K <= List.length (DAGElement.nodes g)).
      { rewrite <- (length_map DAGNode.id). apply NoDup_incl_length.
        - apply NoDup_nodup.
        - intros x Hx. now apply nodup_In in Hx. }
      assert (Hb : List.length (DAGElement.edges g) + List.length K
                   <= List.length K * List.length K).
      { apply simple_edges_bound; [apply NoDup_nodup| |split; auto].
        intros e He. unfold K. rewrite !nodup_In. now apply Hends. }
      unfold m, n, len in *. nia. }
  split; [|split; [|split]].
  - intros H. now rewrite Hbig.
  - intros H. rewrite Hsmall by auto. unfold Qdiv, Qinv. simpl. apply Qmult_1_r.
  - intros H Hloop. rewrite Hsmall by auto.
    assert (He : DAGElement.edges g = []).
    { apply (edges_of_small_graph Hends); auto. unfold n, len in H. lia. }
    unfold m. rewrite He. reflexivity.
  - intros H. apply ratio_in_unit; [now apply Hsimple|lia].
Qed.

(** C4 as stated fails on one node with a self-loop: the density is 1. *)
Lemma density_one_node_self_loop :
  exists st,
    get_dag_statistics loop_a = Ok st
    /\ len (DAGElement.nodes loop_a) = 1%Z
    /\ ~ (density st == 0)%Q.
Proof.
  eexists. split; [reflexivity|]. split; [reflexivity|].
  simpl. intros H. discriminate H.
Qed.

Lemma density_formula_witness :
  exists st,
    get_dag_statistics chain_abc = Ok st
    /\ (2 <= len (DAGElement.nodes chain_abc) ->
          density st
          = (inject_Z (len (DAGElement.edges chain_abc))
             / inject_Z (len (DAGElement.nodes chain_abc)
                         * (len (DAGElement.nodes chain_abc) - 1)))%Q)%Z
    /\ (len (DAGElement.nodes chain_abc) <= 1 ->
          (density st == inject_Z (len (DAGElement.edges chain_abc)))%Q)%Z
    /\ (len (DAGElement.nodes chain_abc) <= 1 ->
          (forall e, In e (DAGElement.edges chain_abc) ->
             DAGEdge.from_node e <> DAGEdge.to_node e) ->
          (density st == 0)%Q)%Z
    /\ (simple_edges (DAGElement.edges chain_abc) ->
          (0 <= density st)%Q /\ (density st <= 1)%Q).
Proof.
  apply (density_formula chain_abc).
  apply known_by_eval. reflexivity.
Defined.

(** ** Validation *)

Lemma first_dangling_none ids edges :
  first_dangling_edge ids edges = None <->
  (forall e, In e edges -> In (DAGEdge.from_node e) ids /\ In (DAGEdge.to_node e) ids).
Proof.
  induction edges as [|e edges IH]; simpl.
  - split; auto. intros _ e [].
  - destruct (str_in (DAGEdge.from_node e) ids) eqn:Ef; simpl.
    + destruct (str_in (DAGEdge.to_node e) ids) eqn:Et; simpl.
      * rewrite IH. apply str_in_spec in Ef, Et. split.
        -- intros H e' [<-|He']; auto.
        -- intros H e' He'. apply H. now right.
      * split; [discriminate|]. intros H. apply str_in_false in Et.
        exfalso. apply Et. apply (H e). now left.
    + split; [discriminate|]. intros H. apply str_in_false in Ef.
      exfalso. apply Ef. apply (H e). now left.
Qed.

Lemma first_dangling_some ids edges msg :
  first_dangling_edge ids edges = Some msg -> structural_reason msg.
Proof.
  induction edges as [|e edges IH]; simpl; [discriminate|].
  destruct (negb (str_in (DAGEdge.from_node e) ids)).
  - intros H. inversion H. constructor.
  - destruct (negb (str_in (DAGEdge.to_node e) ids)); auto.
    intros H. inversion H. constructor.
Qed.

Lemma distinct_by_size (l : list string) :
  Nat.eqb (List.length l) (List.length (set_of l)) = true <-> NoDup l.
Proof.
  unfold set_of. split.
  - intros H. apply NoDup_by_eval. now rewrite Nat.eqb_sym.
  - intros H. rewrite nodup_fixed_point by auto. apply Nat.eqb_refl.
Qed.

Lemma check_acyclic_decides (g : DAGElement.t) :
  well_formed g ->
  exists b, _check_acyclic (DAGElement.nodes g) (DAGElement.edges g) = Ok b
            /\ (b = true <-> acyclic (DAGElement.edges g)).
Proof.
  intros Hwf. destruct (topological_order_ok Hwf) as [order [ind [Hrun Hinv]]].
  rewrite (check_acyclic_counts Hwf Hrun). eexists. split; [reflexivity|].
  destruct Hwf as [Huniq Hends]. rewrite Nat.eqb_eq. split.
  - intros Hlen v Hv.
    assert (Hc : has_cycle (DAGElement.edges g)) by (now exists v).
    pose proof (kahn_short_on_cycle Hends Hc Hinv). lia.
  - intros Hac. apply Permutation_length. apply (kahn_complete Huniq Hends Hac Hinv).
Qed.

(** C7, as the code has it. [validate_dag_config] always returns a verdict;
    a [False] verdict records exactly one reason, which is the empty node
    list, a duplicated node identifier, an edge naming an unknown node, or
    a cycle; the verdict is [True], with no reason recorded, exactly for the
    graphs that have at least one node, pairwise distinct identifiers,
    known edge endpoints and no cycle. *)
Theorem validate_verdict (g : DAGElement.t) :
  exists verdict reasons,
    validate_dag_config g = Ok (verdict, reasons)
    /\ (verdict = false ->
          exists msg, reasons = [msg] /\ failure_reason msg)
    /\ (verdict = true -> reasons = [])
    /\ (verdict = true <->
          DAGElement.nodes g <> [] /\ well_formed g /\ acyclic (DAGElement.edges g)).
Proof.
  unfold validate_dag_config, well_formed.
  destruct (DAGElement.nodes g) as [|n l] eqn:En.
  - exists false, [msg_no_nodes]. simpl. repeat split; try discriminate.
    + intros _. exists msg_no_nodes. split; auto. now left.
    + intros [H _]. now elim H.
  - rewrite <- En. fold (node_ids (DAGElement.nodes g)).
    destruct (Nat.eqb (List.length (node_ids (DAGElement.nodes g)))
                (List.length (set_of (node_ids (DAGElement.nodes g))))) eqn:Ed; simpl.
    + apply distinct_by_size in Ed.
      destruct (first_dangling_edge (node_ids (DAGElement.nodes g)) (DAGElement.edges g))
        as [msg|] eqn:Ee.
      * exists false, [msg]. repeat split; try discriminate.
        -- intros _. exists msg. split; auto. right. eapply first_dangling_some; eauto.
        -- intros [_ [[_ Hk] _]]. apply (proj2 (first_dangling_none _ _)) in Hk. congruence.
      * pose proof (proj1 (first_dangling_none _ _) Ee) as Hk.
        destruct (@check_acyclic_decides g (conj Ed Hk)) as [b [Hb Hiff]].
        rewrite Hb. cbn [bind]. destruct b; simpl.
        -- exists true, []. split; [reflexivity|]. split; [discriminate|].
           split; [reflexivity|]. split; [|reflexivity]. intros _.
           split; [rewrite En; discriminate|]. split; [now split|]. now apply Hiff.
        -- exists false, [msg_cycle]. repeat split; try discriminate.
           ++ intros _. exists msg_cycle. split; auto. right. constructor.
           ++ intros [_ [_ Hac]]. apply Hiff in Hac. discriminate.
    + exists false, [msg_duplicate_id]. repeat split; try discriminate.
      * intros _. exists msg_duplicate_id. split; auto. right. constructor.
      * intros [_ [[Hnd _] _]]. apply distinct_by_size in Hnd. congruence.
Qed.

Lemma empty_graph_well_formed : well_formed empty_graph.
Proof. split; [constructor|]. intros e []. Qed.

Lemma empty_graph_acyclic : acyclic (DAGElement.edges empty_graph).
Proof. apply (climbs_acyclic (fun _ => 0)). reflexivity. Qed.

Lemma no_nodes_not_structural : ~ structural_reason msg_no_nodes.
Proof.
  intros H. inversion H as [E|i E|i E|E]; vm_compute in E; discriminate E.
Qed.

(** C7 as stated fails on the empty graph: it is structurally sound and
    acyclic, yet the verdict is [False], and the recorded reason is none of
    the three kinds. *)
Lemma empty_graph_rejected :
  well_formed empty_graph
  /\ acyclic (DAGElement.edges empty_graph)
  /\ validate_dag_config empty_graph = Ok (false, [msg_no_nodes])
  /\ ~ structural_reason msg_no_nodes.
Proof.
  split; [apply empty_graph_well_formed|].
  split; [apply empty_graph_acyclic|].
  split; [reflexivity|]. apply no_nodes_not_structural.
Qed.

(** ** Rendering *)

Lemma append_assoc (a b c : string) : ((a ++ b) ++ c = a ++ (b ++ c))%string.
Proof. induction a as [|x a IH]; simpl; auto. now rewrite IH. Qed.

Lemma append_nil_r (a : string) : (a ++ "" = a)%string.
Proof. induction a as [|x a IH]; simpl; auto. now rewrite IH. Qed.

Lemma replace_char_app c new (s1 s2 : string) :
  replace_char c new (s1 ++ s2)%string
  = (replace_char c new s1 ++ replace_char c new s2)%string.
Proof.
  induction s1 as [|a s1 IH]; simpl; auto.
  destruct (Ascii.eqb a c); rewrite IH; auto. now rewrite append_assoc.
Qed.

Lemma escape_with_app chars : forall (s1 s2 : string),
  fold_left
    (fun escaped_text char =>
       replace_char char (String backslash (String char EmptyString)) escaped_text)
    chars (s1 ++ s2)%string
  = (fold_left
       (fun escaped_text char =>
          replace_char char (String backslash (String char EmptyString)) escaped_text)
       chars s1
     ++ fold_left
          (fun escaped_text char =>
             replace_char char (String backslash (String char EmptyString)) escaped_text)
          chars s2)%string.
Proof.
  induction chars as [|c chars IH]; intros s1 s2; simpl; auto.
  now rewrite replace_char_app, IH.
Qed.

Lemma escape_app (s1 s2 : string) :
  _escape_mermaid_text (s1 ++ s2)%string
  = (_escape_mermaid_text s1 ++ _escape_mermaid_text s2)%string.
Proof. apply escape_with_app. Qed.

(** A special character alone: the two quotes come out behind two
    backslashes (the one inserted for them is doubled when the backslash is
    escaped in its turn), the others behind one. *)
Lemma escape_special c :
  In c special_chars ->
  exists mark,
    _escape_mermaid_text (String c EmptyString)
    = (mark ++ String backslash (String c EmptyString))%string
    /\ (mark = EmptyString \/ mark = String backslash EmptyString).
Proof.
  intros H. unfold special_chars in H. simpl in H.
  repeat (destruct H as [<-|H];
          [first [ exists EmptyString; split; [reflexivity | now left]
                 | exists (String backslash EmptyString); split; [reflexivity | now right] ]|]).
  contradiction.
Qed.

Lemma concat_contains sep (x : string) l :
  In x l -> exists a b, String.concat sep l = (a ++ x ++ b)%string.
Proof.
  induction l as [|y l IH]; [contradiction|].
  intros [->|Hin].
  - destruct l as [|z l].
    + exists EmptyString, EmptyString. simpl. now rewrite append_nil_r.
    + exists EmptyString, (sep ++ String.concat sep (z :: l))%string. reflexivity.
  - destruct (IH Hin) as [a [b Hab]]. destruct l as [|z l]; [contradiction|].
    exists (y ++ sep ++ a)%string, b.
    change (String.concat sep (y :: z :: l))
      with (y ++ sep ++ String.concat sep (z :: l))%string.
    rewrite Hab. now rewrite !append_assoc.
Qed.

(** C9. Every occurrence of one of the sixteen special characters in a
    node's display name stands, in the text that [convert_to_mermaid]
    returns, immediately behind a backslash: the text holds the node's
    line, whose label is the escaped name, and there the occurrence appears
    between the escaped text before it and the escaped text after it,
    preceded by the backslash. *)
Theorem special_chars_escaped (g : DAGElement.t) (node : DAGNode.t)
    (before : string) (c : ascii) (after : string) :
  In node (DAGElement.nodes g) ->
  DAGNode.name node = (before ++ String c after)%string ->
  In c special_chars ->
  exists lead mark trail,
    convert_to_mermaid g
    = (lead ++ "    " ++ DAGNode.id node ++ String "[" (String dquote EmptyString)
         ++ _escape_mermaid_text before ++ mark
         ++ String backslash (String c (_escape_mermaid_text after ++ trail)))%string
    /\ (mark = EmptyString \/ mark = String backslash EmptyString).
Proof.
  intros Hnode Hname Hc.
  destruct (escape_special Hc) as [mark [Hesc Hmark]].
  assert (Hline : In (node_line node)
            ([if (len (DAGElement.nodes g) <=? 10)%Z && (len (DAGElement.edges g) <=? 15)%Z
              then "flowchart TD" else "graph TD"]
             ++ map node_line (DAGElement.nodes g)
             ++ map edge_line (DAGElement.edges g))).
  { apply in_or_app. right. apply in_or_app. left. now apply in_map. }
  destruct (@concat_contains (String newline EmptyString) _ _ Hline) as [a [b Hab]].
  unfold convert_to_mermaid. rewrite Hab. clear Hab Hline.
  assert (Hescname : _escape_mermaid_text (DAGNode.name node)
            = (_escape_mermaid_text before ++ mark
               ++ String backslash (String c (_escape_mermaid_text after)))%string).
  { rewrite Hname.
    change (String c after) with (String c EmptyString ++ after)%string.
    rewrite !escape_app, Hesc. now rewrite !append_assoc. }
  unfold node_line. rewrite Hescname.
  destruct (DAGNode.description node) as [[|d ds]|].
  - exists a, mark,
      (String dquote "]" ++ _get_node_status_style (DAGNode.status node) ++ b)%string.
    split; auto. repeat (rewrite ?append_assoc; simpl). reflexivity.
  - exists a, mark,
      ("\n\n*" ++ String d ds ++ "*" ++ String dquote "]"
         ++ _get_node_status_style (DAGNode.status node) ++ b)%string.
    split; auto. repeat (rewrite ?append_assoc; simpl). reflexivity.
  - exists a, mark,
      (String dquote "]" ++ _get_node_status_style (DAGNode.status node) ++ b)%string.
    split; auto. repeat (rewrite ?append_assoc; simpl). reflexivity.
Qed.

(** ** Layout of a single isolated node *)

Lemma lone_levels node :
  compute_levels [node] [] = Ok [(DAGNode.id node, 0%Z)].
Proof.
  unfold compute_levels, layout_in_degree, zero_in_degree. simpl.
  unfold PyDict.getitem. simpl. rewrite String.eqb_refl. simpl.
  reflexivity.
Qed.

Lemma lone_hierarchical g node :
  DAGElement.nodes g = [node] -> DAGElement.edges g = [] ->
  hierarchical_state g
  = Ok (with_nodes g [set_position node (xy (-150 # 2) 0)]).
Proof.
  intros Hn He. unfold hierarchical_state. rewrite Hn, He, lone_levels. cbn [bind].
  unfold group_by_level, place_in_level. simpl. rewrite String.eqb_refl. simpl.
  rewrite String.eqb_refl. reflexivity.
Qed.

Lemma lone_statistics g node :
  DAGElement.nodes g = [node] -> DAGElement.edges g = [] ->
  exists st,
    get_dag_statistics g = Ok st
    /\ (density st == 0)%Q
    /\ start_nodes st = [DAGNode.id node]
    /\ end_nodes st = [DAGNode.id node].
Proof.
  intros Hn He. unfold get_dag_statistics. rewrite Hn, He. simpl.
  unfold zero_in_degree, PyDict.getitem. simpl. rewrite String.eqb_refl. simpl.
  eexists. split; [reflexivity|]. simpl. repeat split; reflexivity.
Qed.

(** C5, as the code has it. For a graph of one node and no edge, the
    hierarchical policy of [optimize_dag_layout] puts the node on level 0
    at position (-75, 0) (index 0 minus half the level size 1, times 150),
    and the statistics report density 0 and the node as the only source
    and the only sink. *)
Theorem lone_node_layout (pow_half : Q -> Q) (random : nat -> Q)
    (h : heap) (r : ref) (node : DAGNode.t) :
  DAGElement.nodes (h r) = [node] ->
  DAGElement.edges (h r) = [] ->
  compute_levels (DAGElement.nodes (h r)) (DAGElement.edges (h r))
  = Ok [(DAGNode.id node, 0%Z)]
  /\ (exists x y,
        optimize_dag_layout pow_half random h r "hierarchical"
        = Ok (r, store h r (with_nodes (h r) [set_position node (xy x y)]))
        /\ (x == -75)%Q /\ (y == 0)%Q)
  /\ (exists st,
        get_dag_statistics (h r) = Ok st
        /\ (density st == 0)%Q
        /\ start_nodes st = [DAGNode.id node]
        /\ end_nodes st = [DAGNode.id node]).
Proof.
  intros Hn He. split; [|split].
  - rewrite Hn, He. apply lone_levels.
  - exists (-150 # 2)%Q, 0%Q. split; [|split; reflexivity].
    unfold optimize_dag_layout, _hierarchical_layout, in_place. simpl.
    now rewrite (lone_hierarchical _ Hn He).
  - now apply lone_statistics.
Qed.

Lemma lone_node_layout_witness :
  compute_levels (DAGElement.nodes (heap_of (lone (plain_node "a")) 0))
    (DAGElement.edges (heap_of (lone (plain_node "a")) 0))
  = Ok [(DAGNode.id (plain_node "a"), 0%Z)]
  /\ (exists x y,
        optimize_dag_layout (fun q => q) (fun _ => 0%Q)
          (heap_of (lone (plain_node "a"))) 0 "hierarchical"
        = Ok (0, store (heap_of (lone (plain_node "a"))) 0
                   (with_nodes (heap_of (lone (plain_node "a")) 0)
                      [set_position (plain_node "a") (xy x y)]))
        /\ (x == -75)%Q /\ (y == 0)%Q)
  /\ (exists st,
        get_dag_statistics (heap_of (lone (plain_node "a")) 0) = Ok st
        /\ (density st == 0)%Q
        /\ start_nodes st = [DAGNode.id (plain_node "a")]
        /\ end_nodes st = [DAGNode.id (plain_node "a")]).
Proof.
  apply (lone_node_layout (fun q => q) (fun _ => 0%Q)
           (heap_of (lone (plain_node "a"))) 0 (node := plain_node "a"));
    reflexivity.
Defined.

(** C5 as stated fails: the lone node is not placed at (0, 0), its
    abscissa is -75. *)
Lemma lone_node_not_at_origin :
  exists h' x y,
    optimize_dag_layout (fun q => q) (fun _ => 0%Q)
      (heap_of (lone (plain_node "a"))) 0 "hierarchical" = Ok (0, h')
    /\ map DAGNode.position (DAGElement.nodes (h' 0)) = [Some (xy x y)]
    /\ ~ (x == 0)%Q.
Proof.
  eexists. exists (-150 # 2)%Q, 0%Q. split; [reflexivity|]. split; [reflexivity|].
  intros H. discriminate H.
Qed.

(** ** Force layout *)

Lemma placed_set_position node x y : placed (set_position node (xy x y)).
Proof. exists x, y. reflexivity. Qed.

Lemma scatter_placed random nodes : forall k, Forall placed (scatter random k nodes).
Proof.
  induction nodes as [|n l IH]; intros k; simpl; constructor; auto.
  apply placed_set_position.
Qed.

Lemma scatter_same random nodes : forall k,
  Forall2 same_node nodes (scatter random k nodes).
Proof.
  induction nodes as [|n l IH]; intros k; simpl; constructor; auto.
  repeat split.
Qed.

Lemma positive_nonzero (q : Q) : Qle_bool q 0 = false -> ~ (q == 0)%Q.
Proof.
  intros H E. assert (Hle : (q <= 0)%Q) by (rewrite E; apply Qle_refl).
  apply Qle_bool_iff in Hle. congruence.
Qed.

Lemma repel_ok pow_half node other force :
  placed node -> placed other ->
  exists force', repel pow_half node force other = Ok force'.
Proof.
  intros [nx [ny Hn]] [ox [oy Ho]]. destruct force as [fx fy].
  unfold repel, coordinate, placed_at in *. rewrite Hn, Ho.
  destruct (negb (String.eqb (DAGNode.id node) (DAGNode.id other))); [|eauto].
  unfold PyDict.getitem. cbn [xy PyDict.set PyDict.empty PyDict.get String.eqb Ascii.eqb Bool.eqb bind].
  destruct (Qle_bool (pow_half ((nx - ox) * (nx - ox) + (ny - oy) * (ny - oy))%Q) 0) eqn:E;
    cbn [negb]; [eauto|].
  apply positive_nonzero in E.
  repeat (rewrite truediv_nonzero by exact E; cbn [bind]). eauto.
Qed.

(** The guard: a pair at distance zero (or whatever [** 0.5] returns that
    is not positive) adds nothing to the force, and nothing is divided. *)
Lemma repel_guard pow_half a b nx ny ox oy force :
  (pow_half ((nx - ox) * (nx - ox) + (ny - oy) * (ny - oy)) <= 0)%Q ->
  repel pow_half (set_position a (xy nx ny)) force (set_position b (xy ox oy)) = Ok force.
Proof.
  intros Hd. destruct force as [fx fy]. unfold repel, coordinate. simpl.
  destruct (negb (String.eqb (DAGNode.id a) (DAGNode.id b))); auto.
  unfold PyDict.getitem. cbn [xy PyDict.set PyDict.empty PyDict.get String.eqb Ascii.eqb Bool.eqb bind].
  apply Qle_bool_iff in Hd. rewrite Hd. reflexivity.
Qed.

Lemma repel_all_ok pow_half node others : forall force,
  placed node -> Forall placed others ->
  exists force', for_each (repel pow_half node) others force = Ok force'.
Proof.
  induction others as [|o l IH]; intros force Hn Ho; simpl; eauto.
  inversion Ho; subst.
  destruct (repel_ok pow_half force Hn H1) as [f' Hf]. rewrite Hf. simpl. auto.
Qed.

Lemma nudge_ok node fx fy :
  placed node ->
  exists node', nudge node fx fy = Ok node' /\ placed node' /\ same_node node node'.
Proof.
  intros [x [y Hn]]. unfold nudge, placed_at in *. rewrite Hn.
  unfold PyDict.getitem. simpl. eexists. split; [reflexivity|].
  split; [eexists; eexists; reflexivity|]. repeat split.
Qed.

Lemma same_node_refl n : same_node n n.
Proof. repeat split. Qed.

Lemma same_node_trans a b c : same_node a b -> same_node b c -> same_node a c.
Proof.
  unfold same_node. intros [? [? [? [? [? ?]]]]] [? [? [? [? [? ?]]]]].
  repeat split; congruence.
Qed.

Lemma Forall2_same_refl l : Forall2 same_node l l.
Proof. induction l; constructor; auto using same_node_refl. Qed.

Lemma Forall2_same_trans l1 : forall l2 l3,
  Forall2 same_node l1 l2 -> Forall2 same_node l2 l3 -> Forall2 same_node l1 l3.
Proof.
  induction l1 as [|a l1 IH]; intros l2 l3 H12 H23.
  - inversion H12; subst. inversion H23; subst. constructor.
  - inversion H12; subst. inversion H23; subst. constructor; eauto using same_node_trans.
Qed.

Lemma sweep_ok pow_half todo : forall moved,
  Forall placed moved -> Forall placed todo ->
  exists nodes,
    sweep pow_half moved todo = Ok nodes
    /\ Forall placed nodes
    /\ Forall2 same_node (moved ++ todo) nodes.
Proof.
  induction todo as [|n rest IH]; intros moved Hm Ht.
  - exists moved. simpl. rewrite app_nil_r. auto using Forall2_same_refl.
  - inversion Ht as [|? ? Hn Hrest]; subst.
    destruct (@repel_all_ok pow_half n (moved ++ n :: rest) (0%Q, 0%Q) Hn)
      as [[fx fy] Hf].
    { apply Forall_app. split; auto. }
    destruct (nudge_ok fx fy Hn) as [n' [Hn' [Hp Hs]]].
    cbn [sweep]. rewrite Hf. cbn [bind]. rewrite Hn'. cbn [bind].
    destruct (IH (moved ++ [n'])) as [nodes [H1 [H2 H3]]]; auto.
    { apply Forall_app. split; auto. }
    exists nodes. repeat split; auto.
    apply Forall2_same_trans with (l2 := (moved ++ [n']) ++ rest); auto.
    rewrite <- app_assoc. simpl. apply Forall2_app.
    + apply Forall2_same_refl.
    + constructor; auto. apply Forall2_same_refl.
Qed.

Lemma sweeps_ok pow_half n : forall nodes,
  Forall placed nodes ->
  exists nodes',
    sweeps pow_half n nodes = Ok nodes'
    /\ Forall placed nodes'
    /\ Forall2 same_node nodes nodes'.
Proof.
  induction n as [|n IH]; intros nodes Hp; simpl.
  - exists nodes. auto using Forall2_same_refl.
  - destruct (sweep_ok pow_half (moved := []) (Forall_nil _) Hp) as [l [H1 [H2 H3]]].
    rewrite H1. cbn [bind].
    destruct (IH l H2) as [l' [G1 [G2 G3]]].
    exists l'. repeat split; auto. eapply Forall2_same_trans; eauto.
Qed.

(** A node alone feels no force: every pass leaves it where it is. *)
Lemma sweeps_single pow_half node n : forall x y x0 y0,
  (x == x0)%Q -> (y == y0)%Q ->
  exists x' y',
    sweeps pow_half n [set_position node (xy x y)] = Ok [set_position node (xy x' y')]
    /\ (x' == x0)%Q /\ (y' == y0)%Q.
Proof.
  induction n as [|n IH]; intros x y x0 y0 Hx Hy.
  - exists x, y. simpl. auto.
  - cbn [sweeps sweep app for_each]. unfold repel. cbn [set_position DAGNode.id].
    rewrite String.eqb_refl. cbn [negb bind].
    unfold nudge. cbn [set_position DAGNode.position]. unfold PyDict.getitem. simpl.
    apply IH.
    + rewrite Hx. ring.
    + rewrite Hy. ring.
Qed.

Lemma force_state_ok pow_half random g :
  exists nodes,
    force_state pow_half random g = Ok (with_nodes g nodes)
    /\ Forall placed nodes
    /\ Forall2 same_node (DAGElement.nodes g) nodes.
Proof.
  unfold force_state.
  destruct (sweeps_ok pow_half 5 (scatter_placed random (DAGElement.nodes g) 0))
    as [nodes [H1 [H2 H3]]].
  exists nodes. rewrite H1. repeat split; auto.
  eapply Forall2_same_trans; eauto. apply scatter_same.
Qed.

(** C6, as the code has it. [_force_layout] returns on every graph,
    whatever [** 0.5] and the random source deliver: every node ends with
    a position; a pair of nodes whose distance is not positive adds no
    force and divides nothing; with no node nothing is placed; a single
    node receives its random initial position, which the five passes
    leave where it is. *)
Theorem force_layout_never_raises (pow_half : Q -> Q) (random : nat -> Q)
    (h : heap) (r : ref) :
  (exists nodes,
     _force_layout pow_half random h r = Ok (r, store h r (with_nodes (h r) nodes))
     /\ Forall placed nodes
     /\ Forall2 same_node (DAGElement.nodes (h r)) nodes
     /\ (DAGElement.nodes (h r) = [] -> nodes = [])
     /\ (forall node, DAGElement.nodes (h r) = [node] ->
           exists x y,
             nodes = [set_position node (xy x y)]
             /\ (x == uniform random (-300) 300 0)%Q
             /\ (y == uniform random (-200) 200 1)%Q))
  /\ (forall a b nx ny ox oy force,
        (pow_half ((nx - ox) * (nx - ox) + (ny - oy) * (ny - oy)) <= 0)%Q ->
        repel pow_half (set_position a (xy nx ny)) force (set_position b (xy ox oy))
        = Ok force).
Proof.
  split; [|intros; now apply repel_guard].
  destruct (force_state_ok pow_half random (h r)) as [nodes [H1 [H2 H3]]].
  exists nodes. unfold _force_layout, in_place. rewrite H1. cbn [bind].
  repeat split; auto.
  - intros Hn. rewrite Hn in H3. now inversion H3.
  - intros node Hn. unfold force_state in H1. rewrite Hn in H1. cbn [scatter] in H1.
    destruct (@sweeps_single pow_half node 5
                (uniform random (-300) 300 0) (uniform random (-200) 200 1)
                (uniform random (-300) 300 0) (uniform random (-200) 200 1))
      as [x [y [Hs [Hx Hy]]]]; try reflexivity.
    rewrite Hs in H1. cbn [bind] in H1. exists x, y. repeat split; auto.
    inversion H1. reflexivity.
Qed.

(** C6 as stated fails on one node: the call gives the node a position
    where it had none. *)
Lemma force_layout_places_single_node :
  DAGNode.position (plain_node "a") = None
  /\ exists h' node,
       _force_layout (fun q => q) (fun _ => 0%Q) (heap_of (lone (plain_node "a"))) 0
       = Ok (0, h')
       /\ DAGElement.nodes (h' 0) = [node]
       /\ DAGNode.position node <> None.
Proof.
  split; [reflexivity|]. eexists. eexists.
  split; [reflexivity|]. split; [reflexivity|]. discriminate.
Qed.

(** ** Hierarchical and circular layout return and touch only positions *)

Lemma keys_set_iff {V : Type} (d : PyDict.t V) k v x :
  In x (PyDict.keys (PyDict.set d k v)) <-> x = k \/ In x (PyDict.keys d).
Proof.
  induction d as [|[k' v'] d IH]; simpl.
  - split; intros [H|H]; auto; try contradiction.
  - destruct (String.eqb k' k) eqn:E; simpl.
    + apply String.eqb_eq in E. subst. split; intros H; intuition (subst; auto).
    + rewrite IH. split; intros H; intuition (subst; auto).
Qed.

Lemma layout_in_degree_init nodes : forall (d : PyDict.t Z) x,
  In x (PyDict.keys
          (fold_left (fun in_degree node => PyDict.set in_degree (DAGNode.id node) 0%Z)
             nodes d))
  <-> In x (PyDict.keys d) \/ In x (node_ids nodes).
Proof.
  induction nodes as [|n l IH]; intros d x; simpl.
  - tauto.
  - rewrite IH, keys_set_iff. split; intros H; intuition auto.
Qed.

Lemma count_in_edges_ok edges : forall in_degree,
  (forall e, In e edges -> In (DAGEdge.to_node e) (PyDict.keys in_degree)) ->
  exists in_degree',
    for_each count_in_edge edges in_degree = Ok in_degree'
    /\ PyDict.keys in_degree' = PyDict.keys in_degree.
Proof.
  induction edges as [|e edges IH]; intros ind Hk; simpl; eauto.
  destruct (in_keys_get _ _ (Hk e (or_introl eq_refl))) as [d Hd].
  unfold count_in_edge at 1, PyDict.getitem. rewrite Hd. cbn [bind].
  destruct (IH (PyDict.set ind (DAGEdge.to_node e) (d + 1)%Z)) as [ind' [H1 H2]].
  { intros e' He'. rewrite keys_set_present; auto.
    - apply Hk. now right.
    - apply Hk. now left. }
  exists ind'. split; auto. rewrite H2. apply keys_set_present. apply Hk. now left.
Qed.

Lemma filter_r_sub {A : Type} (test : A -> result bool) l : forall r,
  filter_r test l = Ok r -> incl r l /\ List.length r <= List.length l.
Proof.
  induction l as [|a l IH]; intros r H; simpl in H.
  - inversion H. split; [apply incl_refl|auto].
  - apply bind_ok_inv in H. destruct H as [b [_ H]].
    apply bind_ok_inv in H. destruct H as [r' [Hr' H]].
    destruct (IH r' Hr') as [Hi Hl]. inversion H. subst r. destruct b; simpl; split.
    + intros x [<-|Hx]; [now left|right; auto].
    + lia.
    + intros x Hx. right. auto.
    + lia.
Qed.

Lemma push_children_bound nodes c lvl visited edges : forall queue,
  List.length (fold_left (push_child nodes c lvl visited) edges queue)
  <= List.length queue + List.length edges
  /\ (forall p, In p (fold_left (push_child nodes c lvl visited) edges queue) ->
        In p queue \/ In (fst p) nodes).
Proof.
  induction edges as [|e edges IH]; intros queue; simpl.
  - split; [lia|auto].
  - destruct (IH (push_child nodes c lvl visited queue e)) as [Hl Hin].
    assert (Hstep : List.length (push_child nodes c lvl visited queue e)
                    <= List.length queue + 1
                    /\ (forall p, In p (push_child nodes c lvl visited queue e) ->
                          In p queue \/ In (fst p) nodes)).
    { unfold push_child. destruct (String.eqb (DAGEdge.from_node e) c); [|split; [lia|auto]].
      destruct (find_node nodes (DAGEdge.to_node e)) as [child|] eqn:Ef; [|split; [lia|auto]].
      destruct (negb (str_in (DAGNode.id child) visited)); [|split; [lia|auto]].
      split.
      - rewrite length_app. simpl. lia.
      - intros p Hp. apply in_app_or in Hp. destruct Hp as [Hp|[<-|[]]]; auto.
        right. simpl. now apply find_node_some in Ef. }
    destruct Hstep as [Hs1 Hs2]. split; [lia|].
    intros p Hp. apply Hin in Hp. destruct Hp as [Hp|Hp]; auto.
Qed.

Lemma filter_length_lt {A : Type} (p q : A -> bool) l a :
  (forall x, q x = true -> p x = true) ->
  In a l -> p a = true -> q a = false ->
  List.length (filter q l) < List.length (filter p l).
Proof.
  intros Hqp. induction l as [|x l IH]; intros Hin Hp Hq; [contradiction|].
  assert (Hle : forall l0 : list A, List.length (filter q l0) <= List.length (filter p l0)).
  { induction l0 as [|y l0 IH0]; simpl; auto.
    destruct (q y) eqn:Eq.
    - rewrite (Hqp y Eq). simpl. lia.
    - destruct (p y); simpl; lia. }
  simpl. destruct Hin as [->|Hin].
  - rewrite Hp, Hq. simpl. specialize (Hle l). lia.
  - specialize (IH Hin Hp Hq). destruct (q x) eqn:Eq.
    + rewrite (Hqp x Eq). simpl. lia.
    + destruct (p x); simpl; lia.
Qed.

(** The search stops within its fuel on every input. *)
Lemma level_loop_total nodes edges fuel : forall queue visited node_levels,
  (forall p, In p queue -> In (fst p) nodes) ->
  List.length queue + (List.length edges + 1) * unvisited nodes visited <= fuel ->
  exists r, level_loop fuel nodes edges queue visited node_levels = Ok r.
Proof.
  induction fuel as [|fuel IH]; intros queue visited levels Hq Hm.
  - destruct queue as [|[cur lvl] q]; simpl in *; [eauto|lia].
  - destruct queue as [|[cur lvl] q]; [simpl; eauto|].
    cbn [level_loop]. simpl in Hm.
    destruct (str_in (DAGNode.id cur) visited) eqn:Ev.
    + apply IH; [|lia]. intros p Hp. apply Hq. now right.
    + set (visited' := DAGNode.id cur :: visited).
      destruct (push_children_bound nodes (DAGNode.id cur) lvl visited' edges q)
        as [Hl Hin].
      assert (Hu : unvisited nodes visited' < unvisited nodes visited).
      { unfold unvisited. apply filter_length_lt with (a := cur).
        - intros x Hx. apply negb_true_iff in Hx. apply negb_true_iff.
          unfold visited' in Hx. simpl in Hx. now apply orb_false_iff in Hx.
        - apply (Hq (cur, lvl)). now left.
        - now rewrite Ev.
        - unfold visited'. simpl. now rewrite String.eqb_refl. }
      apply IH.
      * intros p Hp. apply Hin in Hp. destruct Hp as [Hp|Hp]; auto.
        apply Hq. now right.
      * nia.
Qed.

Lemma compute_levels_ok nodes edges :
  (forall e, In e edges -> In (DAGEdge.to_node e) (node_ids nodes)) ->
  exists node_levels, compute_levels nodes edges = Ok node_levels.
Proof.
  intros Hk. unfold compute_levels, layout_in_degree.
  destruct (count_in_edges_ok edges
              (fold_left (fun in_degree node => PyDict.set in_degree (DAGNode.id node) 0%Z)
                 nodes PyDict.empty)) as [ind [H1 H2]].
  { intros e He. apply layout_in_degree_init. right. auto. }
  rewrite H1. cbn [bind].
  destruct (filter_r_zero_ok ind nodes) as [starts Hs].
  { intros n Hn. rewrite H2. apply layout_in_degree_init. right. now apply in_map. }
  rewrite Hs. cbn [bind].
  destruct (filter_r_sub _ _ Hs) as [Hi Hl].
  apply level_loop_total.
  - intros p Hp. apply in_map_iff in Hp. destruct Hp as [n [<- Hn]]. simpl. auto.
  - rewrite length_map. unfold level_fuel, unvisited.
    pose proof (filter_length_le (fun n => negb (str_in (DAGNode.id n) [])) nodes).
    nia.
Qed.

Module PyIntDictFacts.
Import PyIntDict.

Lemma int_get_set_eq {V : Type} (d : t V) k v : get (set d k v) k = Some v.
Proof.
  induction d as [|[k' v'] d IH]; simpl.
  - now rewrite Z.eqb_refl.
  - destruct (Z.eqb k' k) eqn:E; simpl; rewrite E; auto.
Qed.

Lemma int_get_set_neq {V : Type} (d : t V) k k' v :
  k <> k' -> get (set d k v) k' = get d k'.
Proof.
  intros Hne. induction d as [|[k0 v0] d IH]; simpl.
  - destruct (Z.eqb k k') eqn:E; auto. apply Z.eqb_eq in E. contradiction.
  - destruct (Z.eqb k0 k) eqn:E; simpl.
    + apply Z.eqb_eq in E. subst k0.
      destruct (Z.eqb k k') eqn:E'; auto. apply Z.eqb_eq in E'. contradiction.
    + now rewrite IH.
Qed.

End PyIntDictFacts.

(** One step of the grouping keeps every member and adds the new one. *)
Lemma group_step_spec (acc : PyIntDict.t (list string)) node_id level :
  (exists members,
     PyIntDict.get (group_step acc (node_id, level)) level = Some members
     /\ In node_id members)
  /\ (forall l members, PyIntDict.get acc l = Some members ->
        exists members',
          PyIntDict.get (group_step acc (node_id, level)) l = Some members'
          /\ incl members members').
Proof.
  unfold group_step. destruct (PyIntDict.get acc level) as [ms|] eqn:E.
  - rewrite E. split.
    + exists (ms ++ [node_id]). rewrite PyIntDictFacts.int_get_set_eq. split; auto.
      apply in_or_app. right. now left.
    + intros l members Hl. destruct (Z.eq_dec level l) as [->|Hne].
      * rewrite PyIntDictFacts.int_get_set_eq. exists (ms ++ [node_id]). split; auto.
        rewrite E in Hl. inversion Hl. subst. apply incl_appl, incl_refl.
      * rewrite PyIntDictFacts.int_get_set_neq by auto. exists members. split; auto.
        apply incl_refl.
  - rewrite PyIntDictFacts.int_get_set_eq. split.
    + exists ([] ++ [node_id]). rewrite PyIntDictFacts.int_get_set_eq. split; auto.
      simpl. now left.
    + intros l members Hl. destruct (Z.eq_dec level l) as [->|Hne].
      * congruence.
      * rewrite !PyIntDictFacts.int_get_set_neq by auto. exists members. split; auto.
        apply incl_refl.
Qed.

Lemma group_by_level_gen items : forall acc,
  (forall l members, PyIntDict.get acc l = Some members ->
     exists members',
       PyIntDict.get (fold_left group_step items acc) l = Some members'
       /\ incl members members')
  /\ (forall node_id level, In (node_id, level) items ->
        exists members,
          PyIntDict.get (fold_left group_step items acc) level = Some members
          /\ In node_id members).
Proof.
  induction items as [|[k lv] items IH]; intros acc.
  - split.
    + intros l members H. exists members. split; auto. apply incl_refl.
    + intros ? ? [].
  - cbn [fold_left].
    destruct (group_step_spec acc k lv) as [Hnew Hold].
    destruct (IH (group_step acc (k, lv))) as [IH1 IH2].
    split.
    + intros l members Hl. destruct (Hold l members Hl) as [m1 [Hm1 Hi1]].
      destruct (IH1 l m1 Hm1) as [m2 [Hm2 Hi2]].
      exists m2. split; auto. eapply incl_tran; eauto.
    + intros node_id level [Heq|Hin].
      * inversion Heq. subst. destruct Hnew as [m1 [Hm1 Hi1]].
        destruct (IH1 level m1 Hm1) as [m2 [Hm2 Hi2]].
        exists m2. split; auto.
      * apply IH2. exact Hin.
Qed.

Lemma get_in_items {V : Type} (d : PyDict.t V) k v :
  PyDict.get d k = Some v -> In (k, v) (PyDict.items d).
Proof.
  unfold PyDict.items. induction d as [|[k' v'] d IH]; simpl; [discriminate|].
  destruct (String.eqb k' k) eqn:E.
  - apply String.eqb_eq in E. intros H. inversion H. subst. now left.
  - intros H. right. auto.
Qed.

Lemma list_index_ok l x : In x l -> exists i, list_index l x = Ok i.
Proof.
  induction l as [|y l IH]; [contradiction|]. intros Hin. simpl.
  destruct (String.eqb y x) eqn:E; [eauto|].
  destruct IH as [i Hi].
  - destruct Hin as [->|Hin]; auto. rewrite String.eqb_refl in E. discriminate.
  - rewrite Hi. simpl. eauto.
Qed.

Lemma place_in_level_ok node_levels node :
  exists node',
    place_in_level node_levels (group_by_level node_levels) node = Ok node'
    /\ same_node node node'.
Proof.
  unfold place_in_level.
  destruct (PyDict.get node_levels (DAGNode.id node)) as [level|] eqn:E.
  - apply get_in_items in E.
    destruct (group_by_level_gen (PyDict.items node_levels) []) as [_ H].
    destruct (H _ _ E) as [members [Hm Hin]].
    unfold PyIntDict.getitem. unfold group_by_level. rewrite Hm. cbn [bind].
    destruct (list_index_ok _ _ Hin) as [i Hi]. rewrite Hi. cbn [bind].
    rewrite truediv_nonzero by discriminate. cbn [bind].
    eexists. split; [reflexivity|]. repeat split.
  - exists node. split; auto. apply same_node_refl.
Qed.

Lemma map_r_same (f : DAGNode.t -> result DAGNode.t) nodes :
  (forall n, exists n', f n = Ok n' /\ same_node n n') ->
  exists nodes', map_r f nodes = Ok nodes' /\ Forall2 same_node nodes nodes'.
Proof.
  intros Hf. induction nodes as [|n l IH]; simpl.
  - exists []. split; auto.
  - destruct (Hf n) as [n' [Hn Hs]]. destruct IH as [l' [Hl Hs']].
    rewrite Hn, Hl. simpl. exists (n' :: l'). split; auto.
Qed.

Lemma hierarchical_state_ok g :
  targets_known g ->
  exists nodes,
    hierarchical_state g = Ok (with_nodes g nodes)
    /\ Forall2 same_node (DAGElement.nodes g) nodes.
Proof.
  intros Hk. unfold hierarchical_state.
  destruct (compute_levels_ok (DAGElement.nodes g) (DAGElement.edges g) Hk) as [lv Hlv].
  rewrite Hlv. cbn [bind].
  destruct (@map_r_same (place_in_level lv (group_by_level lv)) (DAGElement.nodes g))
    as [nodes [H1 H2]].
  { intros n. apply place_in_level_ok. }
  rewrite H1. cbn [bind]. eauto.
Qed.

Lemma place_on_circle_ok n radius nodes : forall i,
  n <> 0%Z ->
  exists nodes',
    place_on_circle n radius i nodes = Ok nodes'
    /\ Forall2 same_node nodes nodes'.
Proof.
  induction nodes as [|node rest IH]; intros i Hn; simpl.
  - exists []. split; auto.
  - rewrite truediv_nonzero by (now apply inject_Z_nonzero). cbn [bind].
    destruct (IH (i + 1)%Z Hn) as [rest' [H1 H2]]. rewrite H1. cbn [bind].
    eexists. split; [reflexivity|]. constructor; auto. repeat split.
Qed.

Lemma circular_state_ok g :
  exists nodes,
    circular_state g = Ok (with_nodes g nodes)
    /\ Forall2 same_node (DAGElement.nodes g) nodes.
Proof.
  unfold circular_state. destruct (DAGElement.nodes g) as [|n l] eqn:En.
  - exists []. simpl. split; auto.
  - destruct (@place_on_circle_ok (len (n :: l)) (Z.max 200 (len (n :: l) * 50))
                (n :: l) 0%Z) as [nodes [H1 H2]].
    { unfold len. simpl. lia. }
    rewrite H1. cbn [bind]. eauto.
Qed.

Lemma with_nodes_same g nodes :
  Forall2 same_node (DAGElement.nodes g) nodes ->
  same_but_positions g (with_nodes g nodes).
Proof. intros H. repeat split; auto. Qed.

Lemma store_frame h r g r' : r' <> r -> store h r g r' = h r'.
Proof. intros H. unfold store. apply Nat.eqb_neq in H. now rewrite H. Qed.

Lemma store_here h r g : store h r g r = g.
Proof. unfold store. now rewrite Nat.eqb_refl. Qed.

Lemma in_place_frame (mutate : DAGElement.t -> result DAGElement.t) h r nodes :
  mutate (h r) = Ok (with_nodes (h r) nodes) ->
  Forall2 same_node (DAGElement.nodes (h r)) nodes ->
  exists h',
    in_place mutate h r = Ok (r, h')
    /\ (forall r', r' <> r -> h' r' = h r')
    /\ same_but_positions (h r) (h' r).
Proof.
  intros Hm Hs. unfold in_place. rewrite Hm. cbn [bind].
  exists (store h r (with_nodes (h r) nodes)). split; auto. split.
  - intros r' Hr. now apply store_frame.
  - rewrite store_here. now apply with_nodes_same.
Qed.

Lemma same_but_positions_refl g : same_but_positions g g.
Proof. repeat split. apply Forall2_same_refl. Qed.

(** C8. For every graph and every policy name, [optimize_dag_layout]
    returns the reference it was given; the object behind it differs from
    before at most in the position fields of its nodes (same node list
    length, identifiers, names, descriptions, statuses, timestamps and
    results; same edges and graph fields); no other object changes; and
    under a policy name other than the three known ones the heap is left
    as it was. The hierarchical policy indexes its in-degree table by edge
    target, so there the edge targets must name nodes, as the graph
    invariant says. *)
Theorem layout_changes_positions_only (pow_half : Q -> Q) (random : nat -> Q)
    (h : heap) (r : ref) (layout_type : string) :
  (layout_type = "hierarchical" -> targets_known (h r)) ->
  exists h',
    optimize_dag_layout pow_half random h r layout_type = Ok (r, h')
    /\ (forall r', r' <> r -> h' r' = h r')
    /\ same_but_positions (h r) (h' r)
    /\ (~ known_policy layout_type -> h' = h).
Proof.
  intros Hk. unfold optimize_dag_layout.
  destruct (String.eqb layout_type "hierarchical") eqn:E1.
  { apply String.eqb_eq in E1.
    destruct (hierarchical_state_ok (Hk E1)) as [nodes [H1 H2]].
    destruct (in_place_frame hierarchical_state h r H1 H2) as [h' [G1 [G2 G3]]].
    exists h'. repeat split; auto; try apply G3.
    intros Hn. exfalso. apply Hn. now left. }
  destruct (String.eqb layout_type "circular") eqn:E2.
  { apply String.eqb_eq in E2.
    destruct (circular_state_ok (h r)) as [nodes [H1 H2]].
    destruct (in_place_frame circular_state h r H1 H2) as [h' [G1 [G2 G3]]].
    exists h'. repeat split; auto; try apply G3.
    intros Hn. exfalso. apply Hn. right. now left. }
  destruct (String.eqb layout_type "force") eqn:E3.
  { apply String.eqb_eq in E3.
    destruct (force_state_ok pow_half random (h r)) as [nodes [H1 [_ H2]]].
    destruct (in_place_frame (force_state pow_half random) h r H1 H2) as [h' [G1 [G2 G3]]].
    exists h'. repeat split; auto; try apply G3.
    intros Hn. exfalso. apply Hn. right. now right. }
  exists h. repeat split; auto. apply Forall2_same_refl.
Qed.

Lemma targets_known_by_eval g :
  forallb (fun e => str_in (DAGEdge.to_node e) (node_ids (DAGElement.nodes g)))
    (DAGElement.edges g) = true ->
  targets_known g.
Proof.
  rewrite forallb_forall. intros H e He. apply str_in_spec. now apply H.
Qed.

Lemma layout_changes_positions_only_witness :
  exists h',
    optimize_dag_layout (fun q => q) (fun _ => 0%Q) (heap_of chain_abc) 0 "hierarchical"
    = Ok (0, h')
    /\ (forall r', r' <> 0 -> h' r' = heap_of chain_abc r')
    /\ same_but_positions (heap_of chain_abc 0) (h' 0)
    /\ (~ known_policy "hierarchical" -> h' = heap_of chain_abc).
Proof.
  apply (layout_changes_positions_only (fun q => q) (fun _ => 0%Q)
           (heap_of chain_abc) 0 (layout_type := "hierarchical")).
  intros _. apply targets_known_by_eval. reflexivity.
Defined.

Lemma special_chars_escaped_witness :
  exists lead mark trail,
    convert_to_mermaid bracket_graph
    = (lead ++ "    " ++ DAGNode.id bracket_node ++ String "[" (String dquote EmptyString)
         ++ _escape_mermaid_text "load" ++ mark
         ++ String backslash (String "["%char (_escape_mermaid_text "0]" ++ trail)))%string
    /\ (mark = EmptyString \/ mark = String backslash EmptyString).
Proof.
  apply (@special_chars_escaped bracket_graph bracket_node "load" "["%char "0]").
  - simpl. auto.
  - reflexivity.
  - simpl. auto 10.
Defined.

(** ** The loops never exhaust their fuel

    On any input, well formed or not, the three [while] loops stop within
    the fuel the model gives them: a round of a Kahn loop takes one entry
    off the queue, and an entry is added only when an in-degree goes from
    positive to zero. *)

Lemma positives_set (d : PyDict.t Z) k v v' :
  PyDict.get d k = Some v ->
  positives (PyDict.set d k v') + (if (0 <? v)%Z then 1 else 0)
  = positives d + (if (0 <? v')%Z then 1 else 0).
Proof.
  unfold positives. induction d as [|[k0 v0] d IH]; simpl; [discriminate|].
  destruct (String.eqb k0 k).
  - intros H. inversion H. subst v0. simpl.
    destruct (0 <? v)%Z, (0 <? v')%Z; simpl; lia.
  - intros H. specialize (IH H). simpl. destruct (0 <? v0)%Z; simpl; lia.
Qed.

Lemma positives_le (d : PyDict.t Z) : positives d <= List.length (PyDict.keys d).
Proof.
  unfold positives, PyDict.keys. rewrite length_map. apply filter_length_le.
Qed.

Lemma relax_measure nodes ts : forall in_degree queue,
  match for_each (relax nodes) ts (in_degree, queue) with
  | Ok (in_degree', queue') =>
      List.length queue' + positives in_degree' <= List.length queue + positives in_degree
  | Raise _ => True
  | OutOfFuel => False
  end.
Proof.
  induction ts as [|t ts IH]; intros ind queue; [simpl; lia|].
  cbn [for_each]. unfold relax at 1, PyDict.getitem at 1.
  destruct (PyDict.get ind t) as [d|] eqn:Hd; cbn [bind]; auto.
  pose proof (@positives_set ind t d (d - 1)%Z Hd) as Hp.
  assert (Hstep : forall q1,
            List.length q1 + positives (PyDict.set ind t (d - 1)%Z)
            <= List.length queue + positives ind ->
            match for_each (relax nodes) ts (PyDict.set ind t (d - 1)%Z, q1) with
            | Ok (in_degree', queue') =>
                List.length queue' + positives in_degree'
                <= List.length queue + positives ind
            | Raise _ => True
            | OutOfFuel => False
            end).
  { intros q1 Hq1. specialize (IH (PyDict.set ind t (d - 1)%Z) q1).
    destruct (for_each (relax nodes) ts (PyDict.set ind t (d - 1)%Z, q1)) as [[i' q']| |];
      auto. lia. }
  assert (Hp' : positives (PyDict.set ind t (d - 1)%Z) <= positives ind
                /\ (d = 1%Z -> positives (PyDict.set ind t (d - 1)%Z) + 1 = positives ind)).
  { destruct (0 <? d)%Z eqn:E1, (0 <? d - 1)%Z eqn:E2;
      try apply Z.ltb_lt in E1; try apply Z.ltb_ge in E1;
      try apply Z.ltb_lt in E2; try apply Z.ltb_ge in E2; lia. }
  destruct Hp' as [Hle Heq].
  destruct (d - 1 =? 0)%Z eqn:Ez.
  - apply Z.eqb_eq in Ez. assert (Hd1 : d = 1%Z) by lia. specialize (Heq Hd1).
    destruct (find_node nodes t); cbn [bind]; apply Hstep.
    + rewrite length_app. simpl. lia.
    + lia.
  - cbn [bind]. apply Hstep. lia.
Qed.

Lemma topo_loop_fuel nodes adjacency fuel : forall in_degree queue topo_order,
  List.length queue + positives in_degree <= fuel ->
  topo_loop fuel nodes adjacency in_degree queue topo_order <> OutOfFuel.
Proof.
  induction fuel as [|fuel IH]; intros ind queue topo Hm.
  - destruct queue; simpl in *; [discriminate|lia].
  - destruct queue as [|cur q]; [discriminate|].
    cbn [topo_loop]. destruct (PyDict.getitem adjacency (DAGNode.id cur)) as [ts| |] eqn:Hg;
      cbn [bind]; try discriminate.
    + pose proof (relax_measure nodes ts ind q) as Hr.
      destruct (for_each (relax nodes) ts (ind, q)) as [[ind' q']| |];
        cbn [bind]; try discriminate; try contradiction.
      apply IH. simpl in Hm. lia.
    + unfold PyDict.getitem in Hg. destruct (PyDict.get adjacency (DAGNode.id cur)); discriminate.
Qed.

Lemma add_edges_keys edges : forall adjacency in_degree adj' ind',
  for_each add_edge edges (adjacency, in_degree) = Ok (adj', ind') ->
  PyDict.keys ind' = PyDict.keys in_degree.
Proof.
  induction edges as [|e edges IH]; intros adj ind adj' ind' Hrun.
  - simpl in Hrun. now inversion Hrun.
  - cbn [for_each] in Hrun. apply bind_ok_inv in Hrun.
    destruct Hrun as [[adj1 ind1] [Hstep Hrest]].
    unfold add_edge in Hstep.
    apply bind_ok_inv in Hstep. destruct Hstep as [targets [_ Hstep]].
    apply bind_ok_inv in Hstep. destruct Hstep as [d [Hd Hstep]].
    inversion Hstep. subst adj1 ind1.
    rewrite (IH _ _ _ _ Hrest). apply keys_set_present.
    apply getitem_inv in Hd. eapply get_some_in_keys; eauto.
Qed.

Lemma build_tables_size nodes edges adjacency in_degree :
  build_tables nodes edges = Ok (adjacency, in_degree) ->
  positives in_degree <= List.length nodes.
Proof.
  unfold build_tables. intros Hrun.
  destruct (init_tables_spec nodes) as [K [HK1 [HK2 [HK3 _]]]].
  rewrite HK1 in Hrun. apply add_edges_keys in Hrun.
  rewrite keys_const_dict in Hrun.
  pose proof (positives_le in_degree) as Hp. rewrite Hrun in Hp.
  assert (List.length K <= List.length (node_ids nodes)).
  { apply NoDup_incl_length; auto. intros x Hx. now apply HK2. }
  unfold node_ids in *. rewrite length_map in *. lia.
Qed.

(** [get_topological_order] returns or raises on every input. *)
Lemma get_topological_order_stops (g : DAGElement.t) :
  get_topological_order g <> OutOfFuel.
Proof.
  unfold get_topological_order.
  destruct (build_tables (DAGElement.nodes g) (DAGElement.edges g))
    as [[adj ind]| |] eqn:Hb; cbn [bind]; try discriminate.
  - destruct (filter_r (zero_in_degree ind) (DAGElement.nodes g)) as [q| |] eqn:Hq;
      cbn [bind]; try discriminate.
    + apply topo_loop_fuel. apply filter_r_sub in Hq. destruct Hq as [_ Hq].
      apply build_tables_size in Hb. unfold kahn_fuel. lia.
    + exfalso. clear -Hq. revert Hq. generalize (DAGElement.nodes g) as l.
      induction l as [|n l IH]; simpl; [discriminate|].
      unfold zero_in_degree at 1, PyDict.getitem.
      destruct (PyDict.get ind (DAGNode.id n)); cbn [bind]; try discriminate.
      destruct (filter_r (zero_in_degree ind) l); cbn [bind]; try discriminate. auto.
  - exfalso. unfold build_tables in Hb. revert Hb.
    generalize (init_tables (DAGElement.nodes g)) as tb.
    generalize (DAGElement.edges g) as es.
    induction es as [|e es IH]; intros [adj ind]; simpl; [discriminate|].
    unfold PyDict.getitem.
    destruct (PyDict.get adj (DAGEdge.from_node e)); cbn [bind]; try discriminate.
    destruct (PyDict.get ind (DAGEdge.to_node e)); cbn [bind]; try discriminate.
    apply IH.
Qed.

Lemma relax_id_measure ts : forall in_degree (queue : list string),
  match for_each relax_id ts (in_degree, queue) with
  | Ok (in_degree', queue') =>
      List.length queue' + positives in_degree' <= List.length queue + positives in_degree
  | Raise _ => True
  | OutOfFuel => False
  end.
Proof.
  induction ts as [|t ts IH]; intros ind queue; [simpl; lia|].
  cbn [for_each]. unfold relax_id at 1, PyDict.getitem at 1.
  destruct (PyDict.get ind t) as [d|] eqn:Hd; cbn [bind]; auto.
  pose proof (@positives_set ind t d (d - 1)%Z Hd) as Hp.
  assert (Hstep : forall q1,
            List.length q1 + positives (PyDict.set ind t (d - 1)%Z)
            <= List.length queue + positives ind ->
            match for_each relax_id ts (PyDict.set ind t (d - 1)%Z, q1) with
            | Ok (in_degree', queue') =>
                List.length queue' + positives in_degree'
                <= List.length queue + positives ind
            | Raise _ => True
            | OutOfFuel => False
            end).
  { intros q1 Hq1. specialize (IH (PyDict.set ind t (d - 1)%Z) q1).
    destruct (for_each relax_id ts (PyDict.set ind t (d - 1)%Z, q1)) as [[i' q']| |];
      auto. lia. }
  assert (Hp' : positives (PyDict.set ind t (d - 1)%Z) <= positives ind
                /\ (d = 1%Z -> positives (PyDict.set ind t (d - 1)%Z) + 1 = positives ind)).
  { destruct (0 <? d)%Z eqn:E1, (0 <? d - 1)%Z eqn:E2;
      try apply Z.ltb_lt in E1; try apply Z.ltb_ge in E1;
      try apply Z.ltb_lt in E2; try apply Z.ltb_ge in E2; lia. }
  destruct Hp' as [Hle Heq].
  destruct (d - 1 =? 0)%Z eqn:Ez; cbn [bind]; apply Hstep.
  - apply Z.eqb_eq in Ez. assert (Hd1 : d = 1%Z) by lia. specialize (Heq Hd1).
    rewrite length_app. simpl. lia.
  - lia.
Qed.

Lemma acyclic_loop_fuel adjacency fuel : forall in_degree queue processed_count,
  List.length queue + positives in_degree <= fuel ->
  acyclic_loop fuel adjacency in_degree queue processed_count <> OutOfFuel.
Proof.
  induction fuel as [|fuel IH]; intros ind queue c Hm.
  - destruct queue; simpl in *; [discriminate|lia].
  - destruct queue as [|cur q]; [discriminate|].
    cbn [acyclic_loop]. destruct (PyDict.getitem adjacency cur) as [ts| |] eqn:Hg;
      cbn [bind]; try discriminate.
    + pose proof (relax_id_measure ts ind q) as Hr.
      destruct (for_each relax_id ts (ind, q)) as [[ind' q']| |];
        cbn [bind]; try discriminate; try contradiction.
      apply IH. simpl in Hm. lia.
    + unfold PyDict.getitem in Hg. destruct (PyDict.get adjacency cur); discriminate.
Qed.

Lemma build_tables_stops nodes edges : build_tables nodes edges <> OutOfFuel.
Proof.
  unfold build_tables. generalize (init_tables nodes) as tb.
  induction edges as [|e es IH]; intros [adj ind]; simpl; [discriminate|].
  unfold PyDict.getitem.
  destruct (PyDict.get adj (DAGEdge.from_node e)); cbn [bind]; try discriminate.
  destruct (PyDict.get ind (DAGEdge.to_node e)); cbn [bind]; try discriminate.
  apply IH.
Qed.

(** [_check_acyclic] returns or raises on every input. *)
Lemma check_acyclic_stops nodes edges : _check_acyclic nodes edges <> OutOfFuel.
Proof.
  unfold _check_acyclic.
  destruct (build_tables nodes edges) as [[adj ind]| |] eqn:Hb; cbn [bind];
    try discriminate; [|now apply build_tables_stops in Hb].
  match goal with
  | |- context [acyclic_loop ?f ?a ?i ?q ?c] =>
      pose proof (@acyclic_loop_fuel a f i q c) as Hl;
      destruct (acyclic_loop f a i q c) eqn:Hrun
  end; cbn [bind]; try discriminate.
  exfalso. apply Hl; auto.
  rewrite length_map. unfold PyDict.items.
  pose proof (filter_length_le (fun kv : string * Z => (snd kv =? 0)%Z) ind) as H1.
  pose proof (positives_le ind) as H2.
  unfold build_tables in Hb.
  destruct (init_tables_spec nodes) as [K [HK1 [HK2 [HK3 _]]]].
  rewrite HK1 in Hb. apply add_edges_keys in Hb. rewrite keys_const_dict in Hb.
  assert (HK : List.length K <= List.length (node_ids nodes)).
  { apply NoDup_incl_length; auto. intros x Hx. now apply HK2. }
  assert (Hlen : List.length ind = List.length K).
  { rewrite <- Hb. unfold PyDict.keys. now rewrite length_map. }
  rewrite Hb in H2. unfold node_ids in HK. rewrite length_map in HK.
  unfold kahn_fuel. lia.
Qed.

(** The level search of the hierarchical layout returns or raises on every
    input. *)
Lemma compute_levels_stops nodes edges : compute_levels nodes edges <> OutOfFuel.
Proof.
  unfold compute_levels.
  destruct (layout_in_degree nodes edges) as [ind| |] eqn:Hi; cbn [bind]; try discriminate.
  - destruct (filter_r (zero_in_degree ind) nodes) as [starts| |] eqn:Hs;
      cbn [bind]; try discriminate.
    + destruct (filter_r_sub _ _ Hs) as [Hincl Hlen].
      destruct (@level_loop_total nodes edges (level_fuel nodes edges)
                  (map (fun node => (node, 0%Z)) starts) [] PyDict.empty)
        as [r Hr].
      * intros p Hp. apply in_map_iff in Hp. destruct Hp as [n [<- Hn]]. simpl. auto.
      * rewrite length_map. unfold level_fuel, unvisited.
        pose proof (filter_length_le (fun n => negb (str_in (DAGNode.id n) [])) nodes).
        nia.
      * rewrite Hr. discriminate.
    + exfalso. clear -Hs. revert Hs. generalize nodes as l.
      induction l as [|n l IH]; simpl; [discriminate|].
      unfold zero_in_degree at 1, PyDict.getitem.
      destruct (PyDict.get ind (DAGNode.id n)); cbn [bind]; try discriminate.
      destruct (filter_r (zero_in_degree ind) l); cbn [bind]; try discriminate. auto.
  - exfalso. unfold layout_in_degree in Hi. revert Hi.
    generalize (fold_left (fun in_degree node => PyDict.set in_degree (DAGNode.id node) 0%Z)
                  nodes PyDict.empty) as ind.
    induction edges as [|e es IH]; intros ind; simpl; [discriminate|].
    unfold count_in_edge at 1, PyDict.getitem.
    destruct (PyDict.get ind (DAGEdge.to_node e)); cbn [bind]; try discriminate.
    apply IH.
Qed.

(** With duplicated identifiers the order can hold every node of a cyclic
    graph: distinct identifiers are needed for the count to detect a
    cycle. *)
Lemma duplicate_ids_hide_cycle :
  has_cycle (DAGElement.edges twice_x)
  /\ exists order,
       get_topological_order twice_x = Ok order
       /\ List.length order = List.length (DAGElement.nodes twice_x).
Proof.
  split.
  - exists "y". apply path_step with (b := "a").
    + exists (plain_edge ("y", "a")). simpl. auto.
    + apply path_edge. exists (plain_edge ("a", "y")). simpl. auto.
  - eexists. split; reflexivity.
Qed.

(* ------------------------------------------------------------------ *)
(** * Further properties of the handler *)

(** ** When the order exists *)

Lemma add_edges_outcome edges : forall adjacency in_degree (K : list string),
  PyDict.keys adjacency = K -> PyDict.keys in_degree = K ->
  match for_each add_edge edges (adjacency, in_degree) with
  | Ok _ =>
      forall e, In e edges -> In (DAGEdge.from_node e) K /\ In (DAGEdge.to_node e) K
  | Raise (KeyError k) =>
      ~ In k K
      /\ exists e, In e edges /\ (k = DAGEdge.from_node e \/ k = DAGEdge.to_node e)
  | _ => False
  end.
Proof.
  induction edges as [|e edges IH]; intros adj ind K Ha Hi.
  - simpl. intros e [].
  - cbn [for_each]. unfold add_edge at 1, PyDict.getitem.
    destruct (PyDict.get adj (DAGEdge.from_node e)) as [ts|] eqn:Hf; cbn [bind].
    + destruct (PyDict.get ind (DAGEdge.to_node e)) as [d|] eqn:Ht; cbn [bind].
      * pose proof (get_some_in_keys _ _ Hf) as Hfk.
        pose proof (get_some_in_keys _ _ Ht) as Htk.
        specialize (IH (PyDict.set adj (DAGEdge.from_node e) (ts ++ [DAGEdge.to_node e]))
                       (PyDict.set ind (DAGEdge.to_node e) (d + 1)%Z) K).
        rewrite !keys_set_present in IH by auto. specialize (IH Ha Hi).
        match goal with
        | |- match ?r with _ => _ end => destruct r as [st|[k| | |]|]
        end; auto.
        -- intros e' [<-|He']; auto. rewrite <- Ha at 1. rewrite <- Hi. auto.
        -- destruct IH as [Hk [e' [He' Hor]]]. split; auto. exists e'. split; auto. now right.
      * split.
        -- rewrite <- Hi. intros Hin. apply in_keys_get in Hin. destruct Hin. congruence.
        -- exists e. split; [now left|now right].
    + split.
      * rewrite <- Ha. intros Hin. apply in_keys_get in Hin. destruct Hin. congruence.
      * exists e. split; [now left|now left].
Qed.

Lemma build_tables_outcome nodes edges :
  match build_tables nodes edges with
  | Ok _ => endpoints_known nodes edges
  | Raise (KeyError k) =>
      ~ In k (node_ids nodes)
      /\ exists e, In e edges /\ (k = DAGEdge.from_node e \/ k = DAGEdge.to_node e)
  | _ => False
  end.
Proof.
  unfold build_tables. destruct (init_tables_spec nodes) as [K [HK1 [HK2 _]]].
  rewrite HK1.
  pose proof (@add_edges_outcome edges (const_dict K []) (const_dict K 0%Z) K
                (keys_const_dict _ _) (keys_const_dict _ _)) as H.
  destruct (for_each add_edge edges (const_dict K [], const_dict K 0%Z)) as [st|[k| | |]|];
    auto.
  - intros e He. destruct (H e He). split; now apply HK2.
  - destruct H as [Hk He]. split; auto. intros Hin. apply Hk. now apply HK2.
Qed.

(** Once the tables are built the loop raises nothing, with or without
    duplicated identifiers. *)
Lemma relax_no_raise nodes ts : forall in_degree queue,
  (forall t, In t ts -> In t (PyDict.keys in_degree)) ->
  exists in_degree' queue',
    for_each (relax nodes) ts (in_degree, queue) = Ok (in_degree', queue')
    /\ PyDict.keys in_degree' = PyDict.keys in_degree
    /\ (forall n, In n queue' -> In n queue \/ In n nodes).
Proof.
  induction ts as [|t ts IH]; intros ind queue Hk.
  - exists ind, queue. simpl. auto.
  - destruct (in_keys_get _ _ (Hk t (or_introl eq_refl))) as [d Hd].
    cbn [for_each]. unfold relax at 1, PyDict.getitem at 1. rewrite Hd. cbn [bind].
    assert (Hk1 : PyDict.keys (PyDict.set ind t (d - 1)%Z) = PyDict.keys ind).
    { apply keys_set_present. apply Hk. now left. }
    assert (Hk' : forall t0, In t0 ts ->
              In t0 (PyDict.keys (PyDict.set ind t (d - 1)%Z))).
    { intros t0 Ht0. rewrite Hk1. apply Hk. now right. }
    destruct (d - 1 =? 0)%Z.
    + destruct (find_node nodes t) as [n|] eqn:Hn; cbn [bind].
      * destruct (IH (PyDict.set ind t (d - 1)%Z) (queue ++ [n]) Hk')
          as [ind' [q' [H1 [H2 H3]]]].
        exists ind', q'. split; auto. split; [congruence|].
        intros m Hm. apply H3 in Hm. destruct Hm as [Hm|Hm]; auto.
        apply in_app_or in Hm. destruct Hm as [Hm|[<-|[]]]; auto.
        right. now apply find_node_some in Hn.
      * destruct (IH (PyDict.set ind t (d - 1)%Z) queue Hk') as [ind' [q' [H1 [H2 H3]]]].
        exists ind', q'. split; auto. split; [congruence|auto].
    + cbn [bind].
      destruct (IH (PyDict.set ind t (d - 1)%Z) queue Hk') as [ind' [q' [H1 [H2 H3]]]].
      exists ind', q'. split; auto. split; [congruence|auto].
Qed.

Lemma topo_loop_returns nodes adjacency fuel : forall in_degree queue topo_order,
  (forall n, In n nodes -> In (DAGNode.id n) (PyDict.keys adjacency)) ->
  (forall u ts, PyDict.get adjacency u = Some ts ->
     forall t, In t ts -> In t (PyDict.keys in_degree)) ->
  (forall n, In n queue -> In n nodes) ->
  List.length queue + positives in_degree <= fuel ->
  exists order, topo_loop fuel nodes adjacency in_degree queue topo_order = Ok order.
Proof.
  induction fuel as [|fuel IH]; intros ind queue topo Hadj Htg Hq Hm.
  - destruct queue; simpl in *; [eauto|lia].
  - destruct queue as [|cur q]; [simpl; eauto|].
    cbn [topo_loop].
    destruct (in_keys_get _ _ (Hadj cur (Hq cur (or_introl eq_refl)))) as [ts Hts].
    unfold PyDict.getitem. rewrite Hts. cbn [bind].
    destruct (@relax_no_raise nodes ts ind q (Htg _ _ Hts)) as [ind' [q' [H1 [H2 H3]]]].
    pose proof (relax_measure nodes ts ind q) as Hr. rewrite H1 in Hr.
    rewrite H1. cbn [bind]. apply IH; auto.
    + intros u ts' Hu t Ht. rewrite H2. eapply Htg; eauto.
    + intros n Hn. apply H3 in Hn. destruct Hn as [Hn|Hn]; auto. apply Hq. now right.
    + simpl in Hm. lia.
Qed.

Lemma get_topological_order_returns (g : DAGElement.t) :
  endpoints_known (DAGElement.nodes g) (DAGElement.edges g) ->
  exists order, get_topological_order g = Ok order.
Proof.
  intros Hends. unfold get_topological_order.
  destruct (build_tables_ok Hends) as [K [adj [ind [Hb [HK [_ [Hka [Hki [Hadj Hind]]]]]]]]].
  pose proof (build_tables_size _ _ Hb) as Hsize.
  rewrite Hb. cbn [bind].
  rewrite (filter_r_zero_in_degree (DAGElement.edges g)).
  2:{ intros n Hn. apply Hind. now apply in_map. }
  cbn [bind]. apply topo_loop_returns.
  - intros n Hn. rewrite Hka. apply HK. now apply in_map.
  - intros u ts Hu t Ht. rewrite Hki. apply HK.
    assert (Hin : In u (node_ids (DAGElement.nodes g))).
    { apply HK. rewrite <- Hka. eapply get_some_in_keys; eauto. }
    rewrite (Hadj u Hin) in Hu. inversion Hu. subst ts.
    apply in_succs in Ht. destruct Ht as [e [He [_ <-]]]. now apply Hends.
  - intros n Hn. apply filter_In in Hn. tauto.
  - pose proof (filter_length_le
                  (fun n => Nat.eqb (indeg (DAGElement.edges g) (DAGNode.id n)) 0)
                  (DAGElement.nodes g)).
    unfold kahn_fuel. lia.
Qed.

Lemma get_topological_order_inv (g : DAGElement.t) order :
  get_topological_order g = Ok order ->
  endpoints_known (DAGElement.nodes g) (DAGElement.edges g).
Proof.
  intros Hrun. unfold get_topological_order in Hrun.
  pose proof (build_tables_outcome (DAGElement.nodes g) (DAGElement.edges g)) as Hb.
  destruct (build_tables (DAGElement.nodes g) (DAGElement.edges g)) as [st|e|]; auto;
    discriminate.
Qed.

(** X1. [get_topological_order] returns exactly when every edge endpoint
    names a node, whether or not identifiers repeat or edges form a cycle;
    otherwise it raises [KeyError] with an endpoint that names no node. It
    raises nothing else. *)
Theorem topological_order_raises_iff_dangling (g : DAGElement.t) :
  (endpoints_known (DAGElement.nodes g) (DAGElement.edges g)
   <-> exists order, get_topological_order g = Ok order)
  /\ match get_topological_order g with
     | Ok _ => True
     | Raise (KeyError k) =>
         ~ In k (node_ids (DAGElement.nodes g))
         /\ exists e, In e (DAGElement.edges g)
                      /\ (k = DAGEdge.from_node e \/ k = DAGEdge.to_node e)
     | _ => False
     end.
Proof.
  pose proof (build_tables_outcome (DAGElement.nodes g) (DAGElement.edges g)) as Hb.
  split; [split|].
  - apply get_topological_order_returns.
  - intros [order Hrun]. unfold get_topological_order in Hrun.
    destruct (build_tables (DAGElement.nodes g) (DAGElement.edges g)) as [st|e|]; auto;
      discriminate.
  - destruct (build_tables (DAGElement.nodes g) (DAGElement.edges g)) as [st|e|] eqn:E.
    + destruct (get_topological_order_returns g Hb) as [order Hrun]. now rewrite Hrun.
    + unfold get_topological_order. rewrite E. cbn [bind]. exact Hb.
    + contradiction.
Qed.

(** X2. on a graph of the data model [_check_acyclic] is exact: it returns
    [True] when there is no directed cycle and [False] when it is not the
    case that there is none. *)
Theorem check_acyclic_exact (g : DAGElement.t) :
  well_formed g ->
  (acyclic (DAGElement.edges g) ->
     _check_acyclic (DAGElement.nodes g) (DAGElement.edges g) = Ok true)
  /\ (~ acyclic (DAGElement.edges g) ->
        _check_acyclic (DAGElement.nodes g) (DAGElement.edges g) = Ok false).
Proof.
  intros Hwf. destruct (check_acyclic_decides Hwf) as [b [Hb Hiff]].
  rewrite Hb. split; intros H.
  - f_equal. now apply Hiff.
  - f_equal. destruct b; auto. exfalso. apply H. now apply Hiff.
Qed.

Lemma check_acyclic_exact_witness :
  (acyclic (DAGElement.edges chain_abc) ->
     _check_acyclic (DAGElement.nodes chain_abc) (DAGElement.edges chain_abc) = Ok true)
  /\ (~ acyclic (DAGElement.edges chain_abc) ->
        _check_acyclic (DAGElement.nodes chain_abc) (DAGElement.edges chain_abc) = Ok false).
Proof.
  apply (@check_acyclic_exact chain_abc). split.
  - apply NoDup_by_eval. reflexivity.
  - apply known_by_eval. reflexivity.
Defined.

(** X3. the length of the order is a cycle test: on a graph of the data
    model the order has as many nodes as the graph exactly when the graph
    has no directed cycle, and it never has more. *)
Theorem order_complete_iff_acyclic (g : DAGElement.t) :
  well_formed g ->
  exists order,
    get_topological_order g = Ok order
    /\ List.length order <= List.length (DAGElement.nodes g)
    /\ (List.length order = List.length (DAGElement.nodes g)
        <-> acyclic (DAGElement.edges g)).
Proof.
  intros Hwf. destruct (topological_order_ok Hwf) as [order [ind [Hrun Hinv]]].
  destruct Hwf as [Huniq Hends]. exists order. split; auto. split.
  - pose proof (kahn_inv_length Hinv). simpl in *. lia.
  - split.
    + intros Hlen v Hv.
      assert (Hc : has_cycle (DAGElement.edges g)) by (now exists v).
      pose proof (kahn_short_on_cycle Hends Hc Hinv). lia.
    + intros Hac. apply Permutation_length. apply (kahn_complete Huniq Hends Hac Hinv).
Qed.

Lemma order_complete_iff_acyclic_witness :
  exists order,
    get_topological_order cycle_ab = Ok order
    /\ List.length order <= List.length (DAGElement.nodes cycle_ab)
    /\ (List.length order = List.length (DAGElement.nodes cycle_ab)
        <-> acyclic (DAGElement.edges cycle_ab)).
Proof.
  apply (@order_complete_iff_acyclic cycle_ab). split.
  - apply NoDup_by_eval. reflexivity.
  - apply known_by_eval. reflexivity.
Defined.

(** X4. with or without cycles, what [get_topological_order] returns on a
    graph of the data model is sound as far as it goes: no node twice,
    only nodes of the graph, every edge into a listed node comes from a
    node listed earlier, and no node on a cycle or downstream of one is
    listed. *)
Theorem partial_order_sound (g : DAGElement.t) :
  well_formed g ->
  exists order,
    get_topological_order g = Ok order
    /\ NoDup (node_ids order)
    /\ incl order (DAGElement.nodes g)
    /\ (forall e, In e (DAGElement.edges g) ->
          In (DAGEdge.to_node e) (node_ids order) ->
          precedes (node_ids order) (DAGEdge.from_node e) (DAGEdge.to_node e))
    /\ (forall v, behind_cycle (DAGElement.edges g) v -> ~ In v (node_ids order)).
Proof.
  intros Hwf. destruct (topological_order_ok Hwf) as [order [ind [Hrun Hinv]]].
  pose proof (kahn_final_nodup Hinv) as Hnd.
  exists order. split; auto. split; auto. split; [apply (kahn_final_incl Hinv)|]. split.
  - intros e He Hto. apply in_split in Hto. destruct Hto as [l1 [l2 Heq]].
    rewrite Heq. apply precedes_of_split. eapply (inv_order Hinv); eauto.
  - intros v [c [Hc [<-|Hp]]].
    + apply (cycle_not_ordered Hnd (inv_order Hinv) Hc).
    + intros Hv.
      destruct (sources_first_path (inv_order Hinv) Hp Hv) as [l1 [l2 [Heq Hin]]].
      apply (cycle_not_ordered Hnd (inv_order Hinv) Hc).
      rewrite Heq. apply in_or_app. now left.
Qed.

Lemma partial_order_sound_witness :
  exists order,
    get_topological_order cycle_ab = Ok order
    /\ NoDup (node_ids order)
    /\ incl order (DAGElement.nodes cycle_ab)
    /\ (forall e, In e (DAGElement.edges cycle_ab) ->
          In (DAGEdge.to_node e) (node_ids order) ->
          precedes (node_ids order) (DAGEdge.from_node e) (DAGEdge.to_node e))
    /\ (forall v, behind_cycle (DAGElement.edges cycle_ab) v -> ~ In v (node_ids order)).
Proof.
  apply (@partial_order_sound cycle_ab). split.
  - apply NoDup_by_eval. reflexivity.
  - apply known_by_eval. reflexivity.
Defined.

(** ** The execution order *)

Lemma number_steps_numbers edges order : forall i,
  map ExecutionStep.step (number_steps edges i order)
  = count_from (i + 1) (List.length order).
Proof.
  induction order as [|n l IH]; intros i; simpl; auto. now rewrite IH.
Qed.

Lemma number_steps_ids edges order : forall i,
  map ExecutionStep.node_id (number_steps edges i order) = node_ids order.
Proof.
  induction order as [|n l IH]; intros i; simpl; auto. now rewrite IH.
Qed.

Lemma number_steps_nth edges order : forall i k n,
  nth_error order k = Some n ->
  exists st,
    nth_error (number_steps edges i order) k = Some st
    /\ ExecutionStep.step st = (i + Z.of_nat k + 1)%Z
    /\ ExecutionStep.node_id st = DAGNode.id n
    /\ ExecutionStep.dependencies st = dependencies_of edges (DAGNode.id n).
Proof.
  induction order as [|m l IH]; intros i k n Hk; [destruct k; discriminate|].
  destruct k as [|k]; simpl in Hk.
  - inversion Hk. subst. eexists. simpl. split; [reflexivity|].
    simpl. split; [lia|]. split; reflexivity.
  - destruct (IH (i + 1)%Z k n Hk) as [st [H1 [H2 [H3 H4]]]].
    exists st. simpl. repeat split; auto. lia.
Qed.

Lemma layout_in_degree_ok nodes edges :
  (forall e, In e edges -> In (DAGEdge.to_node e) (node_ids nodes)) ->
  exists in_degree,
    layout_in_degree nodes edges = Ok in_degree
    /\ (forall n, In n nodes -> In (DAGNode.id n) (PyDict.keys in_degree)).
Proof.
  intros Hk. unfold layout_in_degree.
  destruct (count_in_edges_ok edges
              (fold_left (fun in_degree node => PyDict.set in_degree (DAGNode.id node) 0%Z)
                 nodes PyDict.empty)) as [ind [H1 H2]].
  { intros e He. apply layout_in_degree_init. right. auto. }
  exists ind. split; auto. intros n Hn. rewrite H2.
  apply layout_in_degree_init. right. now apply in_map.
Qed.

Lemma execution_order_unfold (g : DAGElement.t) (start_nodes : option (list string)) :
  generate_execution_order g start_nodes
  = (order <- get_topological_order g ;; Ok (number_steps (DAGElement.edges g) 0 order)).
Proof.
  unfold generate_execution_order.
  destruct (get_topological_order g) as [order|e|] eqn:Hrun; cbn [bind]; auto.
  pose proof (get_topological_order_inv g Hrun) as Hk.
  destruct start_nodes as [[|s l]|]; cbn [bind]; auto;
    (destruct (@layout_in_degree_ok (DAGElement.nodes g) (DAGElement.edges g))
       as [ind [H1 H2]];
     [intros e He; now apply Hk|];
     rewrite H1; cbn [bind];
     destruct (filter_r_zero_ok ind (DAGElement.nodes g) H2) as [starts Hs];
     rewrite Hs; reflexivity).
Qed.

(** X5. [generate_execution_order] is the topological order, numbered:
    whatever is passed as [start_nodes] (nothing, an empty list or any
    list), the call returns the steps 1, 2, ..., one per node of the
    topological order and in that order, and it raises exactly what
    [get_topological_order] raises. The start nodes it works out when
    none are passed change nothing and raise nothing. *)
Theorem execution_order_numbers_topological_order (g : DAGElement.t)
    (start_nodes : option (list string)) :
  generate_execution_order g start_nodes
  = (order <- get_topological_order g ;; Ok (number_steps (DAGElement.edges g) 0 order))
  /\ forall steps, generate_execution_order g start_nodes = Ok steps ->
       exists order,
         get_topological_order g = Ok order
         /\ map ExecutionStep.step steps = count_from 1 (List.length order)
         /\ map ExecutionStep.node_id steps = node_ids order.
Proof.
  split; [apply execution_order_unfold|].
  intros steps Hsteps. rewrite execution_order_unfold in Hsteps.
  apply bind_ok_inv in Hsteps. destruct Hsteps as [order [Hrun Hs]].
  inversion Hs. exists order. split; auto. split.
  - apply number_steps_numbers.
  - apply number_steps_ids.
Qed.

Lemma number_steps_nth_inv edges order : forall i k st,
  nth_error (number_steps edges i order) k = Some st ->
  exists n,
    nth_error order k = Some n
    /\ ExecutionStep.step st = (i + Z.of_nat k + 1)%Z
    /\ ExecutionStep.node_id st = DAGNode.id n
    /\ ExecutionStep.dependencies st = dependencies_of edges (DAGNode.id n).
Proof.
  intros i k st Hst.
  destruct (nth_error order k) as [n|] eqn:Hn.
  - destruct (number_steps_nth edges order i k Hn) as [st' [H1 H2]].
    rewrite H1 in Hst. inversion Hst. subst st'. exists n. auto.
  - exfalso. apply nth_error_None in Hn.
    assert (Hlen : List.length (number_steps edges i order) = List.length order).
    { rewrite <- (length_map ExecutionStep.node_id), number_steps_ids.
      apply length_map. }
    assert (k < List.length (number_steps edges i order)).
    { apply nth_error_Some. congruence. }
    lia.
Qed.

Lemma edge_source_earlier edges order e k n :
  sources_first edges (node_ids order) ->
  In e edges -> nth_error order k = Some n -> DAGEdge.to_node e = DAGNode.id n ->
  exists i m, i < k /\ nth_error order i = Some m /\ DAGNode.id m = DAGEdge.from_node e.
Proof.
  intros Hsf He Hk Hto.
  assert (Hid : nth_error (node_ids order) k = Some (DAGNode.id n)).
  { unfold node_ids. now apply map_nth_error. }
  apply nth_error_split in Hid. destruct Hid as [l1 [l2 [Heq Hlen]]].
  assert (Hin : In (DAGEdge.from_node e) l1) by (eapply Hsf; eauto).
  apply In_nth_error in Hin. destruct Hin as [i Hi].
  assert (Hlt : i < List.length l1) by (apply nth_error_Some; congruence).
  assert (Hi' : nth_error (node_ids order) i = Some (DAGEdge.from_node e)).
  { rewrite Heq. now rewrite nth_error_app1. }
  unfold node_ids in Hi'. rewrite nth_error_map in Hi'.
  destruct (nth_error order i) as [m|] eqn:Hm; [|discriminate].
  inversion Hi'. exists i, m. repeat split; auto. lia.
Qed.

Lemma dependencies_of_in edges v l :
  In l (dependencies_of edges v) ->
  exists e, In e edges /\ DAGEdge.to_node e = v /\ DAGEdge.label e = Some l
            /\ l <> EmptyString.
Proof.
  unfold dependencies_of. rewrite in_flat_map. intros [e [He Hl]].
  destruct (String.eqb (DAGEdge.to_node e) v) eqn:E; [|contradiction].
  apply String.eqb_eq in E. exists e. split; auto. split; auto.
  destruct (DAGEdge.label e) as [[|a s]|]; try contradiction.
  destruct Hl as [<-|[]]. split; auto. discriminate.
Qed.

(** X6. on an acyclic graph of the data model the execution order is a
    schedule: every node has exactly one step, an edge's source has a
    smaller step number than its target, and every dependency listed for
    a step is the non-empty label of an edge that comes from a node
    scheduled at a smaller step number. *)
Theorem execution_order_is_schedule (g : DAGElement.t)
    (start_nodes : option (list string)) :
  well_formed g ->
  acyclic (DAGElement.edges g) ->
  exists steps,
    generate_execution_order g start_nodes = Ok steps
    /\ Permutation (map ExecutionStep.node_id steps) (node_ids (DAGElement.nodes g))
    /\ (forall e, In e (DAGElement.edges g) ->
          exists sa sb,
            In sa steps /\ In sb steps
            /\ ExecutionStep.node_id sa = DAGEdge.from_node e
            /\ ExecutionStep.node_id sb = DAGEdge.to_node e
            /\ (ExecutionStep.step sa < ExecutionStep.step sb)%Z)
    /\ (forall sb l, In sb steps -> In l (ExecutionStep.dependencies sb) ->
          exists e sa,
            In e (DAGElement.edges g) /\ DAGEdge.label e = Some l /\ l <> EmptyString
            /\ DAGEdge.to_node e = ExecutionStep.node_id sb
            /\ In sa steps
            /\ ExecutionStep.node_id sa = DAGEdge.from_node e
            /\ (ExecutionStep.step sa < ExecutionStep.step sb)%Z).
Proof.
  intros Hwf Hac. destruct (topological_order_ok Hwf) as [order [ind [Hrun Hinv]]].
  destruct Hwf as [Huniq Hends].
  exists (number_steps (DAGElement.edges g) 0 order).
  rewrite execution_order_unfold, Hrun. cbn [bind]. split; auto.
  assert (Hearlier : forall e k n, In e (DAGElement.edges g) ->
            nth_error order k = Some n -> DAGEdge.to_node e = DAGNode.id n ->
            exists sa sb,
              nth_error (number_steps (DAGElement.edges g) 0 order) k = Some sb
              /\ In sa (number_steps (DAGElement.edges g) 0 order)
              /\ ExecutionStep.node_id sa = DAGEdge.from_node e
              /\ ExecutionStep.node_id sb = DAGEdge.to_node e
              /\ (ExecutionStep.step sa < ExecutionStep.step sb)%Z).
  { intros e k n He Hk Hto.
    destruct (@edge_source_earlier (DAGElement.edges g) order e k n (inv_order Hinv) He Hk Hto)
      as [i [m [Hlt [Hi Hm]]]].
    destruct (number_steps_nth (DAGElement.edges g) order 0 i Hi) as [sa [A1 [A2 [A3 _]]]].
    destruct (number_steps_nth (DAGElement.edges g) order 0 k Hk) as [sb [B1 [B2 [B3 _]]]].
    exists sa, sb. split; auto. split; [eapply nth_error_In; eauto|].
    split; [congruence|]. split; [congruence|]. lia. }
  split; [|split].
  - rewrite number_steps_ids. unfold node_ids. apply Permutation_map.
    apply (kahn_complete Huniq Hends Hac Hinv).
  - intros e He.
    assert (Hto : In (DAGEdge.to_node e) (node_ids order)).
    { apply (kahn_final_all Hends Hac Hinv). now apply Hends. }
    apply In_nth_error in Hto. destruct Hto as [k Hk].
    unfold node_ids in Hk. rewrite nth_error_map in Hk.
    destruct (nth_error order k) as [n|] eqn:Hn; [|discriminate]. inversion Hk.
    destruct (Hearlier e k n He Hn (eq_sym H0)) as [sa [sb [S1 [S2 [S3 [S4 S5]]]]]].
    exists sa, sb. split; auto. split; [eapply nth_error_In; eauto|].
    repeat split; auto; congruence.
  - intros sb l Hsb Hl. apply In_nth_error in Hsb. destruct Hsb as [k Hk].
    destruct (number_steps_nth_inv _ _ _ _ Hk) as [n [Hn [_ [Hid Hdeps]]]].
    rewrite Hdeps in Hl. apply dependencies_of_in in Hl.
    destruct Hl as [e [He [Hto [Hlab Hne]]]].
    destruct (Hearlier e k n He Hn Hto) as [sa [sb' [S1 [S2 [S3 [S4 S5]]]]]].
    rewrite Hk in S1. inversion S1. subst sb'.
    exists e, sa. repeat split; auto; congruence.
Qed.

Lemma execution_order_is_schedule_witness :
  exists steps,
    generate_execution_order chain_abc None = Ok steps
    /\ Permutation (map ExecutionStep.node_id steps) (node_ids (DAGElement.nodes chain_abc))
    /\ (forall e, In e (DAGElement.edges chain_abc) ->
          exists sa sb,
            In sa steps /\ In sb steps
            /\ ExecutionStep.node_id sa = DAGEdge.from_node e
            /\ ExecutionStep.node_id sb = DAGEdge.to_node e
            /\ (ExecutionStep.step sa < ExecutionStep.step sb)%Z)
    /\ (forall sb l, In sb steps -> In l (ExecutionStep.dependencies sb) ->
          exists e sa,
            In e (DAGElement.edges chain_abc) /\ DAGEdge.label e = Some l
            /\ l <> EmptyString
            /\ DAGEdge.to_node e = ExecutionStep.node_id sb
            /\ In sa steps
            /\ ExecutionStep.node_id sa = DAGEdge.from_node e
            /\ (ExecutionStep.step sa < ExecutionStep.step sb)%Z).
Proof.
  apply (@execution_order_is_schedule chain_abc None).
  - split.
    + apply NoDup_by_eval. reflexivity.
    + apply known_by_eval. reflexivity.
  - apply (climbs_acyclic (index_of ["a"; "b"; "c"])). reflexivity.
Defined.

(** ** More on the statistics *)

Lemma outdeg_cons edges e v :
  outdeg (e :: edges) v
  = (if String.eqb (DAGEdge.from_node e) v then 1 else 0) + outdeg edges v.
Proof. unfold outdeg. simpl. destruct (String.eqb (DAGEdge.from_node e) v); auto. Qed.

Lemma count_edges_values edges : forall adjacency in_degree out_degree adj' ind' out',
  for_each count_edge edges (adjacency, in_degree, out_degree) = Ok (adj', ind', out') ->
  (forall v, PyDict.get ind' v
             = option_map (fun d => (d + Z.of_nat (indeg edges v))%Z)
                 (PyDict.get in_degree v))
  /\ (forall v, PyDict.get out' v
                = option_map (fun d => (d + Z.of_nat (outdeg edges v))%Z)
                    (PyDict.get out_degree v)).
Proof.
  induction edges as [|e edges IH]; intros adj ind out adj' ind' out' Hrun.
  - simpl in Hrun. inversion Hrun. subst. split; intros v.
    + destruct (PyDict.get ind' v); simpl; auto. f_equal. unfold indeg. simpl. lia.
    + destruct (PyDict.get out' v); simpl; auto. f_equal. unfold outdeg. simpl. lia.
  - cbn [for_each] in Hrun. apply bind_ok_inv in Hrun.
    destruct Hrun as [[[adj1 ind1] out1] [Hstep Hrest]].
    unfold count_edge in Hstep.
    apply bind_ok_inv in Hstep. destruct Hstep as [targets [Htg Hstep]].
    apply bind_ok_inv in Hstep. destruct Hstep as [d [Hd Hstep]].
    apply bind_ok_inv in Hstep. destruct Hstep as [o [Ho Hstep]].
    inversion Hstep. subst adj1 ind1 out1. clear Hstep.
    apply getitem_inv in Hd, Ho.
    destruct (IH _ _ _ _ _ _ Hrest) as [G1 G2]. split; intros v.
    + rewrite G1, get_set, indeg_cons.
      destruct (String.eqb (DAGEdge.to_node e) v) eqn:E.
      * apply String.eqb_eq in E. subst v. rewrite Hd. simpl. f_equal. lia.
      * destruct (PyDict.get ind v); auto.
    + rewrite G2, get_set, outdeg_cons.
      destruct (String.eqb (DAGEdge.from_node e) v) eqn:E.
      * apply String.eqb_eq in E. subst v. rewrite Ho. simpl. f_equal. lia.
      * destruct (PyDict.get out v); auto.
Qed.

Lemma filter_r_zero_by (f : string -> nat) in_degree nodes0 :
  (forall n, In n nodes0 ->
     PyDict.get in_degree (DAGNode.id n) = Some (Z.of_nat (f (DAGNode.id n)))) ->
  filter_r (zero_in_degree in_degree) nodes0
  = Ok (filter (fun n => Nat.eqb (f (DAGNode.id n)) 0) nodes0).
Proof.
  induction nodes0 as [|n l IH]; intros H; simpl; auto.
  unfold zero_in_degree at 1, PyDict.getitem. rewrite (H n (or_introl eq_refl)). simpl.
  rewrite IH by (intros; apply H; now right). simpl. f_equal.
  destruct (f (DAGNode.id n)); reflexivity.
Qed.

Lemma statistics_terminals g st :
  get_dag_statistics g = Ok st ->
  start_nodes st = node_ids (sources (DAGElement.nodes g) (DAGElement.edges g))
  /\ end_nodes st = node_ids (sinks (DAGElement.nodes g) (DAGElement.edges g)).
Proof.
  unfold get_dag_statistics. intros Hrun.
  apply bind_ok_inv in Hrun. destruct Hrun as [[[adj ind] out] [Hcount Hrun]].
  destruct (init_degree_tables_spec (DAGElement.nodes g)) as [K [HK1 [HK2 _]]].
  rewrite HK1 in Hcount.
  destruct (count_edges_values _ _ _ _ Hcount) as [Gi Go].
  assert (Hi : forall n, In n (DAGElement.nodes g) ->
            PyDict.get ind (DAGNode.id n)
            = Some (Z.of_nat (indeg (DAGElement.edges g) (DAGNode.id n)))).
  { intros n Hn. rewrite Gi, get_const_dict.
    assert (Hin : str_in (DAGNode.id n) K = true).
    { apply str_in_spec. apply HK2. now apply in_map. }
    now rewrite Hin. }
  assert (Ho : forall n, In n (DAGElement.nodes g) ->
            PyDict.get out (DAGNode.id n)
            = Some (Z.of_nat (outdeg (DAGElement.edges g) (DAGNode.id n)))).
  { intros n Hn. rewrite Go, get_const_dict.
    assert (Hin : str_in (DAGNode.id n) K = true).
    { apply str_in_spec. apply HK2. now apply in_map. }
    now rewrite Hin. }
  rewrite (filter_r_zero_by (indeg (DAGElement.edges g)) _ _ Hi) in Hrun.
  rewrite (filter_r_zero_by (outdeg (DAGElement.edges g)) _ _ Ho) in Hrun.
  cbn [bind] in Hrun.
  apply bind_ok_inv in Hrun. destruct Hrun as [dens [_ Hrun]].
  apply bind_ok_inv in Hrun. destruct Hrun as [avi [_ Hrun]].
  apply bind_ok_inv in Hrun. destruct Hrun as [avo [_ Hrun]].
  inversion Hrun. simpl. split; reflexivity.
Qed.

(** X7. the [start_nodes] of the statistics are exactly the nodes that no
    edge enters and the [end_nodes] exactly those that no edge leaves,
    both in node-list order. *)
Theorem statistics_sources_and_sinks (g : DAGElement.t) :
  endpoints_known (DAGElement.nodes g) (DAGElement.edges g) ->
  exists st,
    get_dag_statistics g = Ok st
    /\ start_nodes st
       = map DAGNode.id
           (filter (fun n => Nat.eqb (indeg (DAGElement.edges g) (DAGNode.id n)) 0)
              (DAGElement.nodes g))
    /\ end_nodes st
       = map DAGNode.id
           (filter (fun n => Nat.eqb (outdeg (DAGElement.edges g) (DAGNode.id n)) 0)
              (DAGElement.nodes g)).
Proof.
  intros Hends. destruct (get_dag_statistics_returns g Hends) as [st Hst].
  exists st. split; auto. now apply statistics_terminals.
Qed.

Lemma statistics_sources_and_sinks_witness :
  exists st,
    get_dag_statistics chain_abc = Ok st
    /\ start_nodes st
       = map DAGNode.id
           (filter (fun n => Nat.eqb (indeg (DAGElement.edges chain_abc) (DAGNode.id n)) 0)
              (DAGElement.nodes chain_abc))
    /\ end_nodes st
       = map DAGNode.id
           (filter (fun n => Nat.eqb (outdeg (DAGElement.edges chain_abc) (DAGNode.id n)) 0)
              (DAGElement.nodes chain_abc)).
Proof.
  apply (statistics_sources_and_sinks chain_abc).
  apply known_by_eval. reflexivity.
Defined.

(** The mirror image of [acyclic_has_minimal]. *)
Lemma acyclic_has_maximal edges :
  acyclic edges ->
  forall S, S <> [] ->
    (forall s, In s S -> exists s', In s' S /\ path edges s s') -> False.
Proof.
  intros Hac S. induction S as [|x S IH]; intros Hne Hsucc; [now apply Hne|].
  destruct S as [|y S].
  - destruct (Hsucc x (or_introl eq_refl)) as [s' [[<-|[]] Hp]].
    now apply (Hac x).
  - apply IH; [discriminate|].
    intros s Hs. destruct (Hsucc s (or_intror Hs)) as [s' [[<-|Hs'] Hp]]; eauto.
    destruct (Hsucc x (or_introl eq_refl)) as [x' [[<-|Hx'] Hp']].
    + exfalso. now apply (Hac x).
    + exists x'. split; auto. eapply path_trans; eauto.
Qed.

Lemma positive_degree_edge (p : DAGEdge.t -> bool) edges :
  List.length (filter p edges) <> 0 -> exists e, In e edges /\ p e = true.
Proof.
  destruct (filter p edges) as [|e l] eqn:E; [intros H; now elim H|].
  intros _. exists e. apply filter_In. rewrite E. now left.
Qed.

(** X8. an acyclic graph with at least one node has a source and a sink:
    the statistics report a non-empty [start_nodes] and a non-empty
    [end_nodes]. *)
Theorem acyclic_graph_has_terminals (g : DAGElement.t) :
  endpoints_known (DAGElement.nodes g) (DAGElement.edges g) ->
  acyclic (DAGElement.edges g) ->
  DAGElement.nodes g <> [] ->
  exists st,
    get_dag_statistics g = Ok st /\ start_nodes st <> [] /\ end_nodes st <> [].
Proof.
  intros Hends Hac Hne. destruct (get_dag_statistics_returns g Hends) as [st Hst].
  exists st. split; auto.
  destruct (statistics_terminals g Hst) as [Hs He]. rewrite Hs, He.
  assert (Hids : node_ids (DAGElement.nodes g) <> []).
  { destruct (DAGElement.nodes g); [now elim Hne|discriminate]. }
  split; intros Hempty.
  - apply (acyclic_has_minimal Hac Hids). intros s Hs'.
    apply in_map_iff in Hs'. destruct Hs' as [n [<- Hn]].
    destruct (Nat.eqb (indeg (DAGElement.edges g) (DAGNode.id n)) 0) eqn:E.
    + exfalso. assert (Hin : In n (sources (DAGElement.nodes g) (DAGElement.edges g))).
      { apply filter_In. auto. }
      apply (in_map DAGNode.id) in Hin. fold (node_ids (sources (DAGElement.nodes g)
        (DAGElement.edges g))) in Hin. rewrite Hempty in Hin. contradiction.
    + apply Nat.eqb_neq in E. apply positive_degree_edge in E.
      destruct E as [e [He' Hto]]. apply String.eqb_eq in Hto.
      exists (DAGEdge.from_node e). split; [now apply Hends|].
      apply path_edge. exists e. auto.
  - apply (acyclic_has_maximal Hac Hids). intros s Hs'.
    apply in_map_iff in Hs'. destruct Hs' as [n [<- Hn]].
    destruct (Nat.eqb (outdeg (DAGElement.edges g) (DAGNode.id n)) 0) eqn:E.
    + exfalso. assert (Hin : In n (sinks (DAGElement.nodes g) (DAGElement.edges g))).
      { apply filter_In. auto. }
      apply (in_map DAGNode.id) in Hin. fold (node_ids (sinks (DAGElement.nodes g)
        (DAGElement.edges g))) in Hin. rewrite Hempty in Hin. contradiction.
    + apply Nat.eqb_neq in E. apply positive_degree_edge in E.
      destruct E as [e [He' Hfrom]]. apply String.eqb_eq in Hfrom.
      exists (DAGEdge.to_node e). split; [now apply Hends|].
      apply path_edge. exists e. auto.
Qed.

Lemma acyclic_graph_has_terminals_witness :
  exists st,
    get_dag_statistics chain_abc = Ok st /\ start_nodes st <> [] /\ end_nodes st <> [].
Proof.
  apply (acyclic_graph_has_terminals chain_abc).
  - apply known_by_eval. reflexivity.
  - apply (climbs_acyclic (index_of ["a"; "b"; "c"])). reflexivity.
  - discriminate.
Defined.

Lemma count_at_step d n k :
  count_at (count_status d n) k
  = (count_at d k
     + if String.eqb (status_or (DAGNode.status n) "unknown") k then 1 else 0)%Z.
Proof.
  unfold count_status, count_at. rewrite get_set.
  destruct (String.eqb (status_or (DAGNode.status n) "unknown") k) eqn:E.
  - apply String.eqb_eq in E. subst k.
    destruct (PyDict.get d (status_or (DAGNode.status n) "unknown")); lia.
  - destruct (PyDict.get d k); lia.
Qed.

Lemma count_at_fold nodes : forall d k,
  count_at (fold_left count_status nodes d) k
  = (count_at d k + Z.of_nat (with_status nodes k))%Z.
Proof.
  induction nodes as [|n nodes IH]; intros d k; simpl.
  - unfold with_status. simpl. lia.
  - rewrite IH, count_at_step. unfold with_status. simpl.
    destruct (String.eqb (status_or (DAGNode.status n) "unknown") k); simpl; lia.
Qed.

Lemma sum_values_set_new (d : PyDict.t Z) k v :
  PyDict.get d k = None -> sum_values (PyDict.set d k v) = (sum_values d + v)%Z.
Proof.
  induction d as [|[k0 v0] d IH]; simpl.
  - intros _. rewrite sum_values_cons. unfold sum_values. simpl. lia.
  - destruct (String.eqb k0 k); [discriminate|].
    intros H. rewrite !sum_values_cons, IH by auto. lia.
Qed.

Lemma sum_values_count_status d n :
  sum_values (count_status d n) = (sum_values d + 1)%Z.
Proof.
  unfold count_status.
  destruct (PyDict.get d (status_or (DAGNode.status n) "unknown")) as [c|] eqn:E.
  - erewrite sum_values_set by exact E. lia.
  - rewrite sum_values_set_new by exact E. lia.
Qed.

Lemma sum_values_histogram nodes : forall d,
  sum_values (fold_left count_status nodes d) = (sum_values d + len nodes)%Z.
Proof.
  unfold len. induction nodes as [|n nodes IH]; intros d; simpl List.length.
  - simpl. lia.
  - cbn [fold_left]. rewrite IH, sum_values_count_status. lia.
Qed.

Lemma statistics_histogram_field g st :
  get_dag_statistics g = Ok st ->
  status_distribution st = fold_left count_status (DAGElement.nodes g) PyDict.empty.
Proof.
  unfold get_dag_statistics. intros Hrun.
  apply bind_ok_inv in Hrun. destruct Hrun as [[[adj ind] out] [_ Hrun]].
  apply bind_ok_inv in Hrun. destruct Hrun as [starts [_ Hrun]].
  apply bind_ok_inv in Hrun. destruct Hrun as [ends [_ Hrun]].
  apply bind_ok_inv in Hrun. destruct Hrun as [dens [_ Hrun]].
  apply bind_ok_inv in Hrun. destruct Hrun as [avi [_ Hrun]].
  apply bind_ok_inv in Hrun. destruct Hrun as [avo [_ Hrun]].
  inversion Hrun. reflexivity.
Qed.

(** X9. [status_distribution] is a histogram of the nodes: under every key
    it holds the number of nodes with that status, a node whose status is
    unset or empty counting under ["unknown"]; the counts add up to
    [total_nodes]. *)
Theorem status_distribution_is_histogram (g : DAGElement.t) :
  endpoints_known (DAGElement.nodes g) (DAGElement.edges g) ->
  exists st,
    get_dag_statistics g = Ok st
    /\ (forall key, count_at (status_distribution st) key
                    = Z.of_nat (with_status (DAGElement.nodes g) key))
    /\ sum_values (status_distribution st) = total_nodes st.
Proof.
  intros Hends. destruct (get_dag_statistics_returns g Hends) as [st Hst].
  exists st. split; auto.
  rewrite (statistics_histogram_field g Hst).
  destruct (get_dag_statistics_inv g Hst) as [_ [_ [_ [_ [Hn _]]]]].
  split.
  - intros key. rewrite count_at_fold. unfold count_at. simpl. lia.
  - rewrite sum_values_histogram, Hn. unfold sum_values. simpl. lia.
Qed.

Lemma status_distribution_is_histogram_witness :
  exists st,
    get_dag_statistics chain_abc = Ok st
    /\ (forall key, count_at (status_distribution st) key
                    = Z.of_nat (with_status (DAGElement.nodes chain_abc) key))
    /\ sum_values (status_distribution st) = total_nodes st.
Proof.
  apply (status_distribution_is_histogram chain_abc).
  apply known_by_eval. reflexivity.
Defined.

Lemma count_edges_outcome edges : forall adjacency in_degree out_degree (K : list string),
  PyDict.keys adjacency = K -> PyDict.keys in_degree = K -> PyDict.keys out_degree = K ->
  match for_each count_edge edges (adjacency, in_degree, out_degree) with
  | Ok _ => True
  | Raise (KeyError k) =>
      ~ In k K
      /\ exists e, In e edges /\ (k = DAGEdge.from_node e \/ k = DAGEdge.to_node e)
  | _ => False
  end.
Proof.
  induction edges as [|e edges IH]; intros adj ind out K Ha Hi Ho.
  - simpl. auto.
  - cbn [for_each]. unfold count_edge at 1, PyDict.getitem.
    destruct (PyDict.get adj (DAGEdge.from_node e)) as [ts|] eqn:Hf; cbn [bind].
    + destruct (PyDict.get ind (DAGEdge.to_node e)) as [d|] eqn:Ht; cbn [bind].
      * destruct (PyDict.get out (DAGEdge.from_node e)) as [o|] eqn:Hfo; cbn [bind].
        -- pose proof (get_some_in_keys _ _ Hf) as Hfk.
           pose proof (get_some_in_keys _ _ Ht) as Htk.
           pose proof (get_some_in_keys _ _ Hfo) as Hok.
           specialize (IH (PyDict.set adj (DAGEdge.from_node e) (ts ++ [DAGEdge.to_node e]))
                          (PyDict.set ind (DAGEdge.to_node e) (d + 1)%Z)
                          (PyDict.set out (DAGEdge.from_node e) (o + 1)%Z) K).
           rewrite !keys_set_present in IH by auto. specialize (IH Ha Hi Ho).
           match goal with
           | |- match ?r with _ => _ end => destruct r as [st|[k| | |]|]
           end; auto.
           destruct IH as [Hk [e' [He' Hor]]]. split; auto. exists e'. split; auto. now right.
        -- exfalso. apply get_some_in_keys in Hf. rewrite Ha, <- Ho in Hf.
           apply in_keys_get in Hf. destruct Hf. congruence.
      * split.
        -- rewrite <- Hi. intros Hin. apply in_keys_get in Hin. destruct Hin. congruence.
        -- exists e. split; [now left|now right].
    + split.
      * rewrite <- Ha. intros Hin. apply in_keys_get in Hin. destruct Hin. congruence.
      * exists e. split; [now left|now left].
Qed.

(** X10. [get_dag_statistics] returns exactly when every edge endpoint names
    a node; otherwise it raises [KeyError] with an endpoint that names no
    node. No division in it can fail, not even on the empty graph. *)
Theorem statistics_raise_iff_dangling (g : DAGElement.t) :
  (endpoints_known (DAGElement.nodes g) (DAGElement.edges g)
   <-> exists st, get_dag_statistics g = Ok st)
  /\ match get_dag_statistics g with
     | Ok _ => True
     | Raise (KeyError k) =>
         ~ In k (node_ids (DAGElement.nodes g))
         /\ exists e, In e (DAGElement.edges g)
                      /\ (k = DAGEdge.from_node e \/ k = DAGEdge.to_node e)
     | _ => False
     end.
Proof.
  split; [split|].
  - apply get_dag_statistics_returns.
  - intros [st Hst]. now apply get_dag_statistics_inv in Hst.
  - destruct (get_dag_statistics g) as [st|e|] eqn:Hrun; auto.
    + unfold get_dag_statistics in Hrun.
      destruct (init_degree_tables_spec (DAGElement.nodes g)) as [K [HK1 [HK2 _]]].
      rewrite HK1 in Hrun.
      pose proof (@count_edges_outcome (DAGElement.edges g) (const_dict K [])
                    (const_dict K 0%Z) (const_dict K 0%Z) K
                    (keys_const_dict _ _) (keys_const_dict _ _) (keys_const_dict _ _)) as Hc.
      destruct (for_each count_edge (DAGElement.edges g)
                  (const_dict K [], const_dict K 0%Z, const_dict K 0%Z))
        as [[[adj ind] out]|e'|] eqn:Hce; cbn [bind] in Hrun.
      * exfalso.
        assert (Hends : endpoints_known (DAGElement.nodes g) (DAGElement.edges g)).
        { destruct (count_edges_spec _ _ _ _ Hce) as [_ [_ [_ [_ [_ G6]]]]].
          intros e0 He0. destruct (G6 e0 He0) as [A B].
          rewrite keys_const_dict in A. rewrite keys_const_dict in B.
          split; now apply HK2. }
        destruct (get_dag_statistics_returns g Hends) as [st Hst].
        unfold get_dag_statistics in Hst. rewrite HK1, Hce in Hst. cbn [bind] in Hst.
        congruence.
      * inversion Hrun. subst e'. destruct e as [k| | |]; auto.
        destruct Hc as [Hk He]. split; auto. intros Hin. apply Hk. now apply HK2.
      * discriminate.
    + exfalso. unfold get_dag_statistics in Hrun.
      destruct (init_degree_tables_spec (DAGElement.nodes g)) as [K [HK1 [HK2 _]]].
      rewrite HK1 in Hrun.
      pose proof (@count_edges_outcome (DAGElement.edges g) (const_dict K [])
                    (const_dict K 0%Z) (const_dict K 0%Z) K
                    (keys_const_dict _ _) (keys_const_dict _ _) (keys_const_dict _ _)) as Hc.
      destruct (for_each count_edge (DAGElement.edges g)
                  (const_dict K [], const_dict K 0%Z, const_dict K 0%Z))
        as [[[adj ind] out]|e'|] eqn:Hce; cbn [bind] in Hrun; try discriminate; auto.
      assert (Hends : endpoints_known (DAGElement.nodes g) (DAGElement.edges g)).
      { destruct (count_edges_spec _ _ _ _ Hce) as [_ [_ [_ [_ [_ G6]]]]].
        intros e0 He0. destruct (G6 e0 He0) as [A B].
        rewrite keys_const_dict in A. rewrite keys_const_dict in B.
        split; now apply HK2. }
      destruct (get_dag_statistics_returns g Hends) as [st Hst].
      unfold get_dag_statistics in Hst. rewrite HK1, Hce in Hst. cbn [bind] in Hst.
      congruence.
Qed.

(** ** Escaping loses nothing *)

Lemma escape_cons c (s : string) :
  _escape_mermaid_text (String c s)
  = (_escape_mermaid_text (String c EmptyString) ++ _escape_mermaid_text s)%string.
Proof.
  change (String c s) with (String c EmptyString ++ s)%string. apply escape_app.
Qed.

Lemma escape_one c :
  _escape_mermaid_text (String c EmptyString)
  = if is_quote c then String backslash (String backslash (String c EmptyString))
    else if is_special c then String backslash (String c EmptyString)
    else String c EmptyString.
Proof.
  destruct c as [[] [] [] [] [] [] [] []]; reflexivity.
Qed.

Lemma escape_head s a r :
  _escape_mermaid_text s = String a r -> is_quote a = false.
Proof.
  destruct s as [|c s]; [discriminate|].
  rewrite escape_cons, escape_one.
  destruct (is_quote c) eqn:Eq; [simpl; intros H; inversion H; reflexivity|].
  destruct (is_special c); simpl; intros H; inversion H; subst; auto.
Qed.

Lemma unescape_one c (rest : string) :
  (forall a r, rest = String a r -> is_quote a = false) ->
  unescape (_escape_mermaid_text (String c EmptyString) ++ rest)%string
  = String c (unescape rest).
Proof.
  intros Hhead.
  destruct c as [[] [] [] [] [] [] [] []]; try reflexivity.
  change (unescape (String backslash (String backslash rest))
          = String backslash (unescape rest)).
  destruct rest as [|a r]; [reflexivity|].
  cbn [unescape]. change (Ascii.eqb backslash backslash) with true. cbv iota.
  now rewrite (Hhead a r eq_refl).
Qed.

Lemma unescape_escape (s : string) : unescape (_escape_mermaid_text s) = s.
Proof.
  induction s as [|c s IH]; [reflexivity|].
  rewrite escape_cons, unescape_one, IH; auto.
  intros a r. apply escape_head.
Qed.

(** X11. [_escape_mermaid_text] is injective: two different texts never have
    the same escaped form (the escaped form can be read back). *)
Theorem escape_injective (s1 s2 : string) :
  _escape_mermaid_text s1 = _escape_mermaid_text s2 -> s1 = s2.
Proof.
  intros H. rewrite <- (unescape_escape s1), <- (unescape_escape s2). now rewrite H.
Qed.

Lemma escape_injective_witness : "load[0]" = "load[0]".
Proof.
  apply (escape_injective "load[0]" "load[0]"). reflexivity.
Defined.

Lemma length_append (a b : string) :
  String.length (a ++ b)%string = String.length a + String.length b.
Proof. induction a as [|x a IH]; simpl; auto. Qed.

Lemma is_quote_special c : is_quote c = true -> is_special c = true.
Proof.
  unfold is_quote, is_special, special_chars. intros H. simpl.
  apply orb_true_iff in H. destruct H as [H|H]; rewrite H; simpl; auto.
  now rewrite orb_true_r.
Qed.

(** X12. escaping adds one character for every special character of the
    text and one more for every quote (whose backslash is doubled); a text
    comes back unchanged exactly when it holds no special character. *)
Theorem escape_length (s : string) :
  String.length (_escape_mermaid_text s)
  = String.length s + count_chars is_special s + count_chars is_quote s
  /\ (_escape_mermaid_text s = s <-> count_chars is_special s = 0).
Proof.
  assert (Hlen : String.length (_escape_mermaid_text s)
                 = String.length s + count_chars is_special s + count_chars is_quote s).
  { induction s as [|c s IH]; [reflexivity|].
    rewrite escape_cons, length_append, IH, escape_one. simpl.
    destruct (is_quote c) eqn:Eq.
    - rewrite (is_quote_special c Eq). simpl. lia.
    - destruct (is_special c); simpl; lia. }
  split; auto. split.
  - intros Heq. rewrite Heq in Hlen. lia.
  - clear Hlen. intros Hz. induction s as [|c s IH]; [reflexivity|].
    simpl in Hz. rewrite escape_cons, escape_one.
    destruct (is_special c) eqn:Es; [simpl in Hz; lia|].
    destruct (is_quote c) eqn:Eq.
    + apply is_quote_special in Eq. congruence.
    + simpl. f_equal. apply IH. simpl in Hz. lia.
Qed.

(** ** The circular layout *)

Lemma mod1_unit a : (0 <= mod1 a /\ mod1 a < 1)%Q.
Proof.
  unfold mod1. pose proof (Qfloor_le a) as H1. pose proof (Qlt_floor a) as H2.
  rewrite inject_Z_plus in H2. change (inject_Z 1) with 1%Q in H2. split; lra.
Qed.

Lemma circle_scale_pos n : (0 <= n)%Z -> (0 < circle_scale n)%Q.
Proof.
  intros Hn. unfold circle_scale.
  assert (H1 : (inject_Z 200 <= inject_Z (Z.max 200 (n * 50)))%Q)
    by (rewrite <- Zle_Qle; lia).
  assert (H2 : (inject_Z 0 <= inject_Z n)%Q) by (now rewrite <- Zle_Qle).
  change (inject_Z 200) with 200%Q in H1. change (inject_Z 0) with 0%Q in H2.
  nra.
Qed.

Lemma band (R m : Q) :
  (0 < R -> 0 <= m -> m < 1 ->
   (6 # 10) * R <= R * ((6 # 10) + (4 # 10) * m)
   /\ R * ((6 # 10) + (4 # 10) * m) <= R)%Q.
Proof. intros H1 H2 H3. split; nra. Qed.

Lemma place_on_circle_band n radius nodes : forall i,
  n <> 0%Z ->
  (0 < inject_Z radius * (12 # 10) * (1 + (3 # 10) * inject_Z n * (1 # 10)))%Q ->
  exists nodes',
    place_on_circle n radius i nodes = Ok nodes'
    /\ Forall
         (fun node => exists x y,
            placed_at node x y
            /\ ((6 # 10) * (inject_Z radius * (12 # 10)
                            * (1 + (3 # 10) * inject_Z n * (1 # 10))) <= x
                /\ x <= inject_Z radius * (12 # 10)
                        * (1 + (3 # 10) * inject_Z n * (1 # 10)))%Q
            /\ ((6 # 10) * (inject_Z radius * (12 # 10)
                            * (1 + (3 # 10) * inject_Z n * (1 # 10))) <= y
                /\ y <= inject_Z radius * (12 # 10)
                        * (1 + (3 # 10) * inject_Z n * (1 # 10)))%Q)
         nodes'.
Proof.
  induction nodes as [|node rest IH]; intros i Hn HR; simpl.
  - exists []. split; auto.
  - rewrite truediv_nonzero by (now apply inject_Z_nonzero). cbn [bind].
    destruct (IH (i + 1)%Z Hn HR) as [rest' [H1 H2]]. rewrite H1. cbn [bind].
    eexists. split; [reflexivity|]. constructor; auto.
    do 2 eexists. split; [reflexivity|]. split.
    + apply band; auto; apply mod1_unit.
    + apply band; auto; apply mod1_unit.
Qed.

(** X13. the circular layout always returns, and it places every node in a
    square band: both coordinates lie between six tenths of
    [circle_scale n] and [circle_scale n], where [n] is the number of
    nodes; no node is placed at the origin or on an axis. *)
Theorem circular_layout_in_band (g : DAGElement.t) :
  exists nodes,
    circular_state g = Ok (with_nodes g nodes)
    /\ List.length nodes = List.length (DAGElement.nodes g)
    /\ Forall
         (fun node => exists x y,
            placed_at node x y
            /\ ((6 # 10) * circle_scale (len (DAGElement.nodes g)) <= x
                /\ x <= circle_scale (len (DAGElement.nodes g))
                /\ (6 # 10) * circle_scale (len (DAGElement.nodes g)) <= y
                /\ y <= circle_scale (len (DAGElement.nodes g))
                /\ 0 < x /\ 0 < y)%Q)
         nodes.
Proof.
  unfold circular_state. destruct (DAGElement.nodes g) as [|n l] eqn:En.
  - exists []. simpl. repeat split; auto.
  - assert (Hn : len (n :: l) <> 0%Z) by (unfold len; simpl; lia).
    assert (Hp : (0 < circle_scale (len (n :: l)))%Q)
      by (apply circle_scale_pos; unfold len; lia).
    destruct (@place_on_circle_band (len (n :: l)) (Z.max 200 (len (n :: l) * 50))
                (n :: l) 0%Z Hn Hp) as [nodes [H1 H2]].
    destruct (@place_on_circle_ok (len (n :: l)) (Z.max 200 (len (n :: l) * 50))
                (n :: l) 0%Z Hn) as [nodes0 [H3 H4]].
    rewrite H1 in H3. inversion H3. subst nodes0.
    rewrite H1. cbn [bind]. exists nodes. split; auto. split.
    + symmetry. eapply Forall2_length; eauto.
    + eapply Forall_impl; [|exact H2]. intros a [x [y [Ha [[Hx1 Hx2] [Hy1 Hy2]]]]].
      exists x, y. split; auto. fold (circle_scale (len (n :: l))) in *.
      repeat split; auto; lra.
Qed.

(** ** Layouts that start afresh *)

Lemma set_position_same a b p : same_node a b -> set_position a p = set_position b p.
Proof.
  intros [H1 [H2 [H3 [H4 [H5 H6]]]]]. unfold set_position. congruence.
Qed.

Lemma place_on_circle_same n radius nodes nodes' :
  Forall2 same_node nodes nodes' ->
  forall i, place_on_circle n radius i nodes = place_on_circle n radius i nodes'.
Proof.
  induction 1 as [|a b l l' Hab Hl IH]; intros i; cbn [place_on_circle]; auto.
  rewrite (IH (i + 1)%Z).
  destruct (truediv _ _); cbn [bind]; auto.
  destruct (place_on_circle _ _ _ l'); cbn [bind]; auto.
  now rewrite (set_position_same _ Hab).
Qed.

Lemma scatter_same_nodes random nodes nodes' :
  Forall2 same_node nodes nodes' ->
  forall k, scatter random k nodes = scatter random k nodes'.
Proof.
  induction 1 as [|a b l l' Hab Hl IH]; intros k; cbn [scatter]; auto.
  rewrite (IH (S (S k))). f_equal. now apply set_position_same.
Qed.

Lemma with_nodes_fields g g' nodes :
  same_but_positions g g' -> with_nodes g nodes = with_nodes g' nodes.
Proof.
  intros [H1 [H2 [H3 [H4 [H5 H6]]]]]. unfold with_nodes. congruence.
Qed.

(** X14. the circular and the force-directed layout start afresh: what they
    return does not depend on the positions the nodes had before. Hence
    laying out a graph that was laid out before gives the same as laying
    out the original. *)
Theorem layouts_overwrite_positions (pow_half : Q -> Q) (random : nat -> Q)
    (g g' : DAGElement.t) :
  same_but_positions g g' ->
  circular_state g = circular_state g'
  /\ force_state pow_half random g = force_state pow_half random g'.
Proof.
  intros Hs. pose proof Hs as [_ [_ [_ [_ [_ Hn]]]]]. split.
  - unfold circular_state. unfold len. rewrite (Forall2_length Hn).
    rewrite (place_on_circle_same _ _ Hn).
    destruct (place_on_circle _ _ _ (DAGElement.nodes g')); cbn [bind]; auto.
    now rewrite (with_nodes_fields _ Hs).
  - unfold force_state. rewrite (scatter_same_nodes random Hn).
    destruct (sweeps pow_half 5 _); cbn [bind]; auto.
    now rewrite (with_nodes_fields _ Hs).
Qed.

Lemma layouts_overwrite_positions_witness :
  circular_state chain_abc = circular_state chain_abc_moved
  /\ force_state (fun q => q) (fun _ => 0%Q) chain_abc
     = force_state (fun q => q) (fun _ => 0%Q) chain_abc_moved.
Proof.
  apply (layouts_overwrite_positions (fun q => q) (fun _ => 0%Q)
           (g := chain_abc) (g' := chain_abc_moved)).
  unfold same_but_positions. simpl. repeat split; auto.
  repeat constructor.
Defined.

(** ** The search of the hierarchical layout *)

Lemma layout_in_degree_init_get nodes : forall (d : PyDict.t Z) v,
  PyDict.get
    (fold_left (fun in_degree node => PyDict.set in_degree (DAGNode.id node) 0%Z) nodes d) v
  = if str_in v (node_ids nodes) then Some 0%Z else PyDict.get d v.
Proof.
  induction nodes as [|n l IH]; intros d v; cbn [fold_left]; auto.
  rewrite IH. change (str_in v (node_ids (n :: l)))
    with (String.eqb v (DAGNode.id n) || str_in v (node_ids l)).
  destruct (str_in v (node_ids l)) eqn:E.
  - now rewrite orb_true_r.
  - rewrite orb_false_r. rewrite get_set. now rewrite String.eqb_sym.
Qed.

Lemma count_in_edges_values edges : forall in_degree,
  (forall e, In e edges -> In (DAGEdge.to_node e) (PyDict.keys in_degree)) ->
  exists in_degree',
    for_each count_in_edge edges in_degree = Ok in_degree'
    /\ forall v c, PyDict.get in_degree v = Some c ->
         PyDict.get in_degree' v = Some (c + Z.of_nat (indeg edges v))%Z.
Proof.
  induction edges as [|e edges IH]; intros ind Hk.
  - exists ind. split; auto. intros v c H. rewrite H. f_equal. unfold indeg. simpl. lia.
  - cbn [for_each].
    destruct (in_keys_get _ _ (Hk e (or_introl eq_refl))) as [d Hd].
    unfold count_in_edge at 1, PyDict.getitem. rewrite Hd. cbn [bind].
    destruct (IH (PyDict.set ind (DAGEdge.to_node e) (d + 1)%Z)) as [ind' [H1 H2]].
    { intros e' He'. rewrite keys_set_present; [apply Hk; now right | apply Hk; now left]. }
    exists ind'. split; auto. intros v c Hv.
    rewrite indeg_cons.
    destruct (String.eqb (DAGEdge.to_node e) v) eqn:E.
    + apply String.eqb_eq in E. subst v. rewrite Hd in Hv. inversion Hv. subst c.
      rewrite (H2 _ (d + 1)%Z) by apply get_set_eq. f_equal; lia.
    + rewrite (H2 v c).
      * f_equal; lia.
      * rewrite get_set, E. exact Hv.
Qed.

Lemma compute_levels_unfold nodes edges :
  (forall e, In e edges -> In (DAGEdge.to_node e) (node_ids nodes)) ->
  compute_levels nodes edges
  = level_loop (level_fuel nodes edges) nodes edges
      (map (fun node => (node, 0%Z)) (sources nodes edges)) [] PyDict.empty.
Proof.
  intros Hk. unfold compute_levels, layout_in_degree.
  destruct (count_in_edges_values edges
              (fold_left (fun in_degree node => PyDict.set in_degree (DAGNode.id node) 0%Z)
                 nodes PyDict.empty)) as [ind [H1 H2]].
  { intros e He. apply layout_in_degree_init. right. auto. }
  rewrite H1. cbn [bind].
  rewrite (@filter_r_zero_in_degree edges ind nodes).
  - reflexivity.
  - intros n Hn. rewrite (H2 _ 0%Z); [reflexivity|].
    rewrite layout_in_degree_init_get.
    replace (str_in (DAGNode.id n) (node_ids nodes)) with true; auto.
    symmetry. apply str_in_spec. now apply in_map.
Qed.

Lemma walk_snoc edges k a b c :
  walk edges k a b -> edge_rel edges b c -> walk edges (S k) a c.
Proof.
  induction 1 as [v|k a b d He Hw IH]; intros Hbc.
  - eapply walk_step; eauto. constructor.
  - eapply walk_step; eauto.
Qed.

Lemma walk_inv edges j a v :
  walk edges j a v ->
  (j = 0 /\ a = v)
  \/ exists m b, j = S m /\ edge_rel edges a b /\ walk edges m b v.
Proof. destruct 1; eauto. right. eauto 6. Qed.

Lemma push_child_app nodes c lvl visited queue e :
  push_child nodes c lvl visited queue e = queue ++ push_child nodes c lvl visited [] e.
Proof.
  unfold push_child. destruct (String.eqb (DAGEdge.from_node e) c);
    [|now rewrite app_nil_r].
  destruct (find_node nodes (DAGEdge.to_node e)) as [child|]; [|now rewrite app_nil_r].
  destruct (negb (str_in (DAGNode.id child) visited)); [reflexivity|now rewrite app_nil_r].
Qed.

Lemma push_children_kids nodes c lvl visited edges : forall queue,
  fold_left (push_child nodes c lvl visited) edges queue
  = queue ++ kids nodes edges c lvl visited.
Proof.
  unfold kids. induction edges as [|e edges IH]; intros q; cbn [fold_left flat_map].
  - now rewrite app_nil_r.
  - rewrite IH, push_child_app, <- app_assoc. reflexivity.
Qed.

Lemma in_kids nodes edges c lvl visited p :
  In p (kids nodes edges c lvl visited) <->
  exists e child,
    In e edges /\ DAGEdge.from_node e = c
    /\ find_node nodes (DAGEdge.to_node e) = Some child
    /\ ~ In (DAGNode.id child) visited /\ p = (child, (lvl + 1)%Z).
Proof.
  unfold kids. rewrite in_flat_map. split.
  - intros [e [He Hp]]. unfold push_child in Hp.
    destruct (String.eqb (DAGEdge.from_node e) c) eqn:Ef; [|destruct Hp].
    destruct (find_node nodes (DAGEdge.to_node e)) as [child|] eqn:Ec; [|destruct Hp].
    destruct (str_in (DAGNode.id child) visited) eqn:Ev; simpl in Hp; [destruct Hp|].
    destruct Hp as [<-|[]]. exists e, child. apply String.eqb_eq in Ef.
    apply str_in_false in Ev. auto.
  - intros [e [child [He [Hf [Hc [Hv ->]]]]]]. exists e. split; auto.
    unfold push_child. apply String.eqb_eq in Hf. rewrite Hf, Hc.
    apply str_in_false in Hv. rewrite Hv. simpl. now left.
Qed.

(** The queue holds at most two consecutive levels, the smaller first. *)
Lemma blocks_head (cur : DAGNode.t) lvl (q : list (DAGNode.t * Z)) :
  (exists L q1 q2, (cur, lvl) :: q = q1 ++ q2
     /\ (forall p, In p q1 -> snd p = L) /\ (forall p, In p q2 -> snd p = (L + 1)%Z)) ->
  (forall p, In p q -> (lvl <= snd p <= lvl + 1)%Z)
  /\ forall new : list (DAGNode.t * Z),
       (forall p, In p new -> snd p = (lvl + 1)%Z) ->
       exists L q1 q2, q ++ new = q1 ++ q2
         /\ (forall p, In p q1 -> snd p = L) /\ (forall p, In p q2 -> snd p = (L + 1)%Z).
Proof.
  intros [L [q1 [q2 [Heq [H1 H2]]]]]. destruct q1 as [|p1 q1'].
  - simpl in Heq. subst q2.
    assert (Hl : lvl = (L + 1)%Z) by (apply (H2 (cur, lvl)); now left).
    split.
    + intros p Hp. rewrite (H2 p (or_intror Hp)). lia.
    + intros new Hnew. exists (L + 1)%Z, q, new. split; auto. split.
      * intros p Hp. apply H2. now right.
      * intros p Hp. rewrite (Hnew p Hp). lia.
  - inversion Heq. subst p1 q.
    assert (Hl : lvl = L) by (apply (H1 (cur, lvl)); now left).
    split.
    + intros p Hp. apply in_app_or in Hp. destruct Hp as [Hp|Hp].
      * rewrite (H1 p (or_intror Hp)). lia.
      * rewrite (H2 p Hp). lia.
    + intros new Hnew. exists L, q1', (q2 ++ new). rewrite app_assoc. split; auto. split.
      * intros p Hp. apply H1. now right.
      * intros p Hp. apply in_app_or in Hp. destruct Hp as [Hp|Hp].
        -- now apply H2.
        -- rewrite (Hnew p Hp). lia.
Qed.

Lemma covered_mono edges queue visited k k' v :
  covered edges queue visited k v -> (k <= k')%Z -> covered edges queue visited k' v.
Proof.
  intros [H|[n [l [j [H1 [H2 [H3 H4]]]]]]] Hk; [now left|].
  right. exists n, l, j. repeat split; auto. lia.
Qed.

Section Search.

Variable nodes : list DAGNode.t.
Variable edges : list DAGEdge.t.
Hypothesis Htargets : forall e, In e edges -> In (DAGEdge.to_node e) (node_ids nodes).

Lemma bfs_inv_init :
  bfs_inv nodes edges (map (fun node => (node, 0%Z)) (sources nodes edges)) [] PyDict.empty.
Proof.
  constructor.
  - intros v. split; [intros []|intros [l H]; discriminate].
  - intros n l Hin. apply in_map_iff in Hin. destruct Hin as [s [Heq Hs]].
    inversion Heq; subst. split.
    + unfold sources in Hs. apply filter_In in Hs. tauto.
    + exists 0. split; auto. exists n. split; auto. constructor.
  - intros v l H. discriminate.
  - exists 0%Z, (map (fun node => (node, 0%Z)) (sources nodes edges)), [].
    rewrite app_nil_r. split; auto. split.
    + intros p Hp. apply in_map_iff in Hp. destruct Hp as [s [<- _]]. reflexivity.
    + intros p [].
  - intros v l p H. discriminate.
  - intros k v [s [Hs Hw]]. right. exists s, 0%Z, k. split.
    + apply in_map_iff. exists s. auto.
    + split; auto. split; auto. lia.
  - intros u l j v H. discriminate.
Qed.

Lemma bfs_inv_skip cur lvl q visited levels :
  bfs_inv nodes edges ((cur, lvl) :: q) visited levels ->
  In (DAGNode.id cur) visited ->
  bfs_inv nodes edges q visited levels.
Proof.
  intros I Hv.
  assert (Hc : forall k v, covered edges ((cur, lvl) :: q) visited k v ->
                           covered edges q visited k v).
  { intros k v [H|[n [l [j [Hin [Hn [Hw Hb]]]]]]]; [now left|].
    right. exists n, l, j. split; auto. destruct Hin as [Heq|Hin]; auto.
    inversion Heq; subst. contradiction. }
  constructor.
  - apply (bfs_keys I).
  - intros n l Hin. apply (@bfs_queue _ _ _ _ _ I n l). now right.
  - apply (bfs_exact I).
  - destruct (blocks_head (bfs_blocks I)) as [_ H].
    destruct (H []) as [L [q1 [q2 [H0 H12]]]]; [intros p []|].
    rewrite app_nil_r in H0. eauto.
  - intros v l p H Hp. apply (@bfs_behind _ _ _ _ _ I v l p H). now right.
  - intros k v H. apply Hc. apply (@bfs_sources _ _ _ _ _ I k v H).
  - intros u l j v H Hw. apply Hc. apply (@bfs_closed _ _ _ _ _ I u l j v H Hw).
Qed.

Lemma bfs_inv_visit cur lvl q visited levels :
  bfs_inv nodes edges ((cur, lvl) :: q) visited levels ->
  ~ In (DAGNode.id cur) visited ->
  bfs_inv nodes edges
    (q ++ kids nodes edges (DAGNode.id cur) lvl (DAGNode.id cur :: visited))
    (DAGNode.id cur :: visited)
    (PyDict.set levels (DAGNode.id cur) lvl).
Proof.
  intros I Hv.
  set (c := DAGNode.id cur) in *.
  set (visited' := c :: visited).
  set (queue' := q ++ kids nodes edges c lvl visited').
  destruct (blocks_head (bfs_blocks I)) as [Hmin Hblocks].
  destruct (@bfs_queue _ _ _ _ _ I cur lvl (or_introl eq_refl)) as [Hcur [k0 [Hk0 Hreach]]].
  fold c in Hreach.
  assert (Hold : forall v l, PyDict.get levels v = Some l -> (l <= lvl)%Z).
  { intros v l H. apply (@bfs_behind _ _ _ _ _ I v l (cur, lvl) H). now left. }
  assert (Hhead : forall n l, In (n, l) ((cur, lvl) :: q) -> (lvl <= l)%Z).
  { intros n l [Heq|Hin]; [inversion Heq; lia|].
    apply Hmin in Hin. simpl in Hin. lia. }
  assert (Hconv : forall k,
    (forall j v, (lvl + Z.of_nat j <= k)%Z -> walk edges j c v ->
       covered edges queue' visited' (lvl + Z.of_nat j) v) ->
    forall v, covered edges ((cur, lvl) :: q) visited k v ->
              covered edges queue' visited' k v).
  { intros k HC v [H|[n [l [j [Hin [Hn [Hw Hb]]]]]]].
    - left. now right.
    - pose proof (Hhead n l Hin) as Hl.
      destruct (string_dec (DAGNode.id n) c) as [E|E].
      + rewrite E in Hw.
        apply covered_mono with (k := (lvl + Z.of_nat j)%Z); [|lia].
        apply HC; auto. lia.
      + right. exists n, l, j. split; [|split; [|split]]; auto.
        * destruct Hin as [Heq|Hin].
          -- inversion Heq; subst. contradiction (E eq_refl).
          -- apply in_or_app. now left.
        * intros [H|H]; [apply E; auto|contradiction]. }
  assert (HC : forall j v, walk edges j c v ->
                 covered edges queue' visited' (lvl + Z.of_nat j) v).
  { intros j. induction j as [j IHj] using lt_wf_ind. intros v Hw.
    destruct (walk_inv Hw) as [[Ej Ev]|[m [b [Ej [He Hw']]]]].
    - left. left. exact Ev.
    - destruct He as [e [He [Hf Ht]]].
      destruct (find_node_in nodes (DAGEdge.to_node e)) as [child Hchild];
        [now apply Htargets|].
      destruct (find_node_some _ _ Hchild) as [Hcn Hcid].
      rewrite Ht in Hcid.
      destruct (str_in b visited') eqn:Eb.
      + apply str_in_spec in Eb. destruct Eb as [Eb|Eb].
        * apply covered_mono with (k := (lvl + Z.of_nat m)%Z); [|lia].
          apply IHj; [lia|]. rewrite Eb. exact Hw'.
        * apply (bfs_keys I) in Eb. destruct Eb as [lb Hlb].
          pose proof (Hold _ _ Hlb) as Hle.
          pose proof (@bfs_closed _ _ _ _ _ I b lb m v Hlb Hw') as Hcov.
          apply covered_mono with (k := (lb + Z.of_nat m)%Z); [|lia].
          apply Hconv; auto. intros j' v' Hj' Hw''. apply IHj; auto. lia.
      + apply str_in_false in Eb. right. exists child, (lvl + 1)%Z, m.
        split; [|split; [|split]].
        * apply in_or_app. right. apply in_kids. exists e, child.
          repeat split; auto. rewrite Hcid. exact Eb.
        * rewrite Hcid. exact Eb.
        * rewrite Hcid. exact Hw'.
        * lia. }
  constructor.
  - intros v. rewrite get_set. split.
    + intros [<-|H].
      * rewrite String.eqb_refl. eauto.
      * destruct (String.eqb c v); eauto. now apply (bfs_keys I).
    + destruct (String.eqb c v) eqn:E.
      * apply String.eqb_eq in E. left. auto.
      * intros H. right. now apply (bfs_keys I).
  - intros n l Hin. apply in_app_or in Hin. destruct Hin as [Hin|Hin].
    + apply (@bfs_queue _ _ _ _ _ I n l). now right.
    + apply in_kids in Hin. destruct Hin as [e [child [He [Hf [Hch [Hnv Heq]]]]]].
      inversion Heq; subst n l.
      destruct (find_node_some _ _ Hch) as [Hcn Hcid]. split; auto.
      exists (S k0). split; [lia|]. destruct Hreach as [s [Hs Hw]]. exists s.
      split; auto. eapply walk_snoc; eauto. exists e. rewrite Hcid. auto.
  - intros v l. rewrite get_set. destruct (String.eqb c v) eqn:E.
    + apply String.eqb_eq in E. subst v. intros H. inversion H; subst l.
      exists k0. split; auto. split; auto.
      intros j Hj.
      destruct (@bfs_sources _ _ _ _ _ I j c Hj) as [Hc|[n [l [j' [Hin [Hn [Hw Hb]]]]]]];
        [contradiction|].
      pose proof (Hhead n l Hin). lia.
    + apply (bfs_exact I).
  - apply Hblocks. intros p Hp. apply in_kids in Hp.
    destruct Hp as [e [child [_ [_ [_ [_ ->]]]]]]. reflexivity.
  - intros v l p. rewrite get_set. destruct (String.eqb c v) eqn:E; intros H Hp;
      apply in_app_or in Hp.
    + inversion H; subst l. destruct Hp as [Hp|Hp].
      * apply Hmin in Hp. lia.
      * apply in_kids in Hp. destruct Hp as [e [child [_ [_ [_ [_ ->]]]]]]. simpl. lia.
    + destruct Hp as [Hp|Hp].
      * apply (@bfs_behind _ _ _ _ _ I v l p H). now right.
      * apply in_kids in Hp. destruct Hp as [e [child [_ [_ [_ [_ ->]]]]]].
        pose proof (Hold _ _ H). simpl. lia.
  - intros k v H. apply Hconv.
    + intros; now apply HC.
    + apply (@bfs_sources _ _ _ _ _ I k v H).
  - intros u l j v. rewrite get_set. destruct (String.eqb c u) eqn:E.
    + apply String.eqb_eq in E. subst u. intros H Hw. inversion H; subst l.
      now apply HC.
    + intros H Hw. apply Hconv.
      * intros; now apply HC.
      * apply (@bfs_closed _ _ _ _ _ I u l j v H Hw).
Qed.

Lemma level_loop_inv fuel : forall queue visited levels r,
  bfs_inv nodes edges queue visited levels ->
  level_loop fuel nodes edges queue visited levels = Ok r ->
  exists visited', bfs_inv nodes edges [] visited' r.
Proof.
  induction fuel as [|fuel IH]; intros queue visited levels r I H;
    destruct queue as [|[cur lvl] q]; cbn [level_loop] in H.
  - inversion H; subst; eauto.
  - discriminate.
  - inversion H; subst; eauto.
  - destruct (str_in (DAGNode.id cur) visited) eqn:E.
    + apply str_in_spec in E. apply (IH _ _ _ _ (bfs_inv_skip I E) H).
    + apply str_in_false in E. rewrite push_children_kids in H.
      apply (IH _ _ _ _ (bfs_inv_visit I E) H).
Qed.

End Search.

(** What the search computes: the level of a node is its distance from
    the nearest node that no edge enters, and a node has no level exactly
    when no such node leads to it. *)
Lemma compute_levels_distances nodes edges :
  (forall e, In e edges -> In (DAGEdge.to_node e) (node_ids nodes)) ->
  exists levels,
    compute_levels nodes edges = Ok levels
    /\ (forall v l, PyDict.get levels v = Some l ->
          exists k, l = Z.of_nat k /\ nearest nodes edges k v)
    /\ (forall v, PyDict.get levels v = None -> forall k, ~ reached_in nodes edges k v).
Proof.
  intros Hk. destruct (compute_levels_ok nodes edges Hk) as [levels H].
  exists levels. split; auto.
  rewrite compute_levels_unfold in H by auto.
  destruct (@level_loop_inv nodes edges Hk _ _ _ _ _ (bfs_inv_init nodes edges) H)
    as [visited I].
  split.
  - apply (bfs_exact I).
  - intros v Hn k Hr.
    destruct (@bfs_sources _ _ _ _ _ I k v Hr) as [Hv|[n [l [j [[] _]]]]].
    apply (bfs_keys I) in Hv. destruct Hv as [l Hl]. congruence.
Qed.

(** ** Rows of the hierarchical layout *)

Lemma place_in_level_rows node_levels node :
  exists node',
    place_in_level node_levels (group_by_level node_levels) node = Ok node'
    /\ row_placed node_levels node node'.
Proof.
  unfold place_in_level, row_placed.
  destruct (PyDict.get node_levels (DAGNode.id node)) as [level|] eqn:E.
  - pose proof (get_in_items _ _ E) as E'.
    destruct (group_by_level_gen (PyDict.items node_levels) []) as [_ H].
    destruct (H _ _ E') as [members [Hm Hin]].
    unfold PyIntDict.getitem. unfold group_by_level in *. rewrite Hm. cbn [bind].
    destruct (list_index_ok _ _ Hin) as [i Hi]. rewrite Hi. cbn [bind].
    rewrite truediv_nonzero by discriminate. cbn [bind].
    eexists. split; [reflexivity|]. right. exists level, members, i. auto.
  - exists node. split; auto.
Qed.

Lemma map_r_rel {A B : Type} (f : A -> result B) (R : A -> B -> Prop) l :
  (forall a, exists b, f a = Ok b /\ R a b) ->
  exists l', map_r f l = Ok l' /\ Forall2 R l l'.
Proof.
  intros Hf. induction l as [|a l IH]; simpl.
  - exists []. split; auto.
  - destruct (Hf a) as [b [Hb HR]]. destruct IH as [l' [Hl HR']].
    rewrite Hb, Hl. simpl. exists (b :: l'). split; auto.
Qed.

Lemma hierarchical_rows g :
  targets_known g ->
  exists levels nodes',
    compute_levels (DAGElement.nodes g) (DAGElement.edges g) = Ok levels
    /\ hierarchical_state g = Ok (with_nodes g nodes')
    /\ Forall2 (row_placed levels) (DAGElement.nodes g) nodes'.
Proof.
  intros Hk. unfold hierarchical_state.
  destruct (compute_levels_ok (DAGElement.nodes g) (DAGElement.edges g) Hk) as [lv Hlv].
  rewrite Hlv. cbn [bind].
  destruct (@map_r_rel _ _ (place_in_level lv (group_by_level lv)) (row_placed lv)
              (DAGElement.nodes g)) as [nodes' [H1 H2]].
  { intros n. apply place_in_level_rows. }
  rewrite H1. cbn [bind]. exists lv, nodes'. auto.
Qed.

(** X15. the row of a node in the hierarchical layout is its distance from
    the nearest node that no edge enters: a node [k] edges away from the
    nearest such node is placed at [y = 100 * k], and a node that no such
    node leads to is left exactly as it was. *)
Theorem hierarchical_rows_are_distances (g : DAGElement.t) :
  targets_known g ->
  exists nodes',
    hierarchical_state g = Ok (with_nodes g nodes')
    /\ Forall2
         (fun node node' =>
            (exists k x,
               nearest (DAGElement.nodes g) (DAGElement.edges g) k (DAGNode.id node)
               /\ node' = set_position node (xy x (inject_Z (Z.of_nat k * 100))))
            \/ ((forall k, ~ reached_in (DAGElement.nodes g) (DAGElement.edges g) k
                             (DAGNode.id node))
                /\ node' = node))
         (DAGElement.nodes g) nodes'.
Proof.
  intros Hk.
  destruct (hierarchical_rows Hk) as [lv [nodes' [H1 [H2 H3]]]].
  destruct (@compute_levels_distances (DAGElement.nodes g) (DAGElement.edges g) Hk)
    as [lv' [H4 [H5 H6]]].
  rewrite H1 in H4. inversion H4. subst lv'.
  exists nodes'. split; auto.
  eapply Forall2_impl; [|exact H3].
  intros a b [[Hn ->]|[l [ms [i [Hl [_ [_ ->]]]]]]].
  - right. split; auto.
  - left. destruct (H5 _ _ Hl) as [k [-> Hnear]]. eauto.
Qed.

Lemma hierarchical_rows_are_distances_witness :
  exists nodes',
    hierarchical_state chain_abc = Ok (with_nodes chain_abc nodes')
    /\ Forall2
         (fun node node' =>
            (exists k x,
               nearest (DAGElement.nodes chain_abc) (DAGElement.edges chain_abc) k
                 (DAGNode.id node)
               /\ node' = set_position node (xy x (inject_Z (Z.of_nat k * 100))))
            \/ ((forall k, ~ reached_in (DAGElement.nodes chain_abc)
                             (DAGElement.edges chain_abc) k (DAGNode.id node))
                /\ node' = node))
         (DAGElement.nodes chain_abc) nodes'.
Proof.
  apply (hierarchical_rows_are_distances (g := chain_abc)).
  apply targets_known_by_eval. reflexivity.
Defined.

Lemma list_index_nonneg l x i : list_index l x = Ok i -> (0 <= i)%Z.
Proof.
  revert i. induction l as [|y l IH]; intros i; simpl; [discriminate|].
  destruct (String.eqb y x).
  - intros H. inversion H. lia.
  - destruct (list_index l x) as [j| |]; simpl; try discriminate.
    intros H. inversion H. specialize (IH j eq_refl). lia.
Qed.

Lemma list_index_inj l x y i :
  list_index l x = Ok i -> list_index l y = Ok i -> x = y.
Proof.
  revert i. induction l as [|z l IH]; intros i; simpl; [discriminate|].
  destruct (String.eqb z x) eqn:Ex; destruct (String.eqb z y) eqn:Ey.
  - apply String.eqb_eq in Ex, Ey. congruence.
  - intros H1. inversion H1. subst i.
    destruct (list_index l y) as [j| |] eqn:Ej; simpl; try discriminate.
    intros H2. inversion H2. pose proof (list_index_nonneg _ _ Ej). lia.
  - destruct (list_index l x) as [j| |] eqn:Ej; simpl; try discriminate.
    intros H1 H2. inversion H1. inversion H2.
    pose proof (list_index_nonneg _ _ Ej). lia.
  - destruct (list_index l x) as [j| |] eqn:Ej; simpl; try discriminate.
    destruct (list_index l y) as [j'| |] eqn:Ej'; simpl; try discriminate.
    intros H1 H2. inversion H1. inversion H2. apply (IH j); auto.
    f_equal. lia.
Qed.

Lemma xy_inj x y x' y' : xy x y = xy x' y' -> x = x' /\ y = y'.
Proof. unfold xy. simpl. intros H. inversion H. auto. Qed.

Lemma Forall2_in_right {A B : Type} (R : A -> B -> Prop) l l' b :
  Forall2 R l l' -> In b l' -> exists a, In a l /\ R a b.
Proof.
  induction 1 as [|x y l l' Hxy Hl IH]; intros Hin; [destruct Hin|].
  destruct Hin as [<-|Hin].
  - exists x. split; auto. now left.
  - destruct (IH Hin) as [a [Ha HR]]. exists a. split; auto. now right.
Qed.

Lemma inject_Z_gap a b c :
  (a + c <= b)%Z -> (inject_Z a + inject_Z c <= inject_Z b)%Q.
Proof. intros H. rewrite <- inject_Z_plus, <- Zle_Qle. exact H. Qed.

Lemma row_gap (i j h : Q) :
  (i + 1 <= j -> (i - h) * 150 + 150 <= (j - h) * 150)%Q.
Proof. intros H. lra. Qed.

(** X16. the hierarchical layout never puts two nodes on the same spot. On
    a graph whose nodes have no position yet, two nodes with different
    identifiers that end up in the same row are at least 150 apart, and
    two nodes in different rows are at least 100 apart vertically. *)
Theorem hierarchical_layout_spreads_nodes (g : DAGElement.t) :
  targets_known g ->
  (forall n, In n (DAGElement.nodes g) -> DAGNode.position n = None) ->
  exists g',
    hierarchical_state g = Ok g'
    /\ forall n1 n2 x1 y1 x2 y2,
         In n1 (DAGElement.nodes g') -> In n2 (DAGElement.nodes g') ->
         DAGNode.id n1 <> DAGNode.id n2 ->
         placed_at n1 x1 y1 -> placed_at n2 x2 y2 ->
         ((y1 == y2 /\ (x1 + 150 <= x2 \/ x2 + 150 <= x1))
          \/ (y1 + 100 <= y2 \/ y2 + 100 <= y1))%Q.
Proof.
  intros Hk Hfresh.
  destruct (hierarchical_rows Hk) as [lv [nodes' [H1 [H2 H3]]]].
  exists (with_nodes g nodes'). split; auto.
  assert (Hrow : forall n x y, In n nodes' -> placed_at n x y ->
            exists l ms i,
              PyIntDict.get (group_by_level lv) l = Some ms
              /\ list_index ms (DAGNode.id n) = Ok i
              /\ x = ((inject_Z i - inject_Z (len ms) / 2) * 150)%Q
              /\ y = inject_Z (l * 100)).
  { intros n x y Hn Hp.
    destruct (@Forall2_in_right _ _ _ _ _ n H3 Hn) as [a [Ha [[_ ->]|[l [ms [i [Hl [Hg [Hi ->]]]]]]]]].
    - unfold placed_at in Hp. rewrite (Hfresh a Ha) in Hp. discriminate.
    - unfold placed_at in Hp. simpl in Hp. inversion Hp as [Hxy].
      exists l, ms, i. repeat split; auto. }
  simpl. intros n1 n2 x1 y1 x2 y2 Hn1 Hn2 Hne Hp1 Hp2.
  destruct (Hrow _ _ _ Hn1 Hp1) as [l1 [ms1 [i1 [Hg1 [Hi1 [-> ->]]]]]].
  destruct (Hrow _ _ _ Hn2 Hp2) as [l2 [ms2 [i2 [Hg2 [Hi2 [-> ->]]]]]].
  destruct (Z.eq_dec l1 l2) as [El|El].
  - left. subst l2. split; [reflexivity|].
    rewrite Hg1 in Hg2. inversion Hg2. subst ms2.
    assert (Hi : i1 <> i2).
    { intros E. subst i2. apply Hne. eapply list_index_inj; eauto. }
    destruct (Z_lt_le_dec i1 i2) as [Hlt|Hge].
    + left. apply row_gap. apply (@inject_Z_gap i1 i2 1). lia.
    + right. apply row_gap. apply (@inject_Z_gap i2 i1 1). lia.
  - right. destruct (Z_lt_le_dec l1 l2) as [Hlt|Hge].
    + left. apply (@inject_Z_gap (l1 * 100) (l2 * 100) 100). lia.
    + right. apply (@inject_Z_gap (l2 * 100) (l1 * 100) 100). lia.
Qed.

Lemma hierarchical_layout_spreads_nodes_witness :
  exists g',
    hierarchical_state fork_acb = Ok g'
    /\ forall n1 n2 x1 y1 x2 y2,
         In n1 (DAGElement.nodes g') -> In n2 (DAGElement.nodes g') ->
         DAGNode.id n1 <> DAGNode.id n2 ->
         placed_at n1 x1 y1 -> placed_at n2 x2 y2 ->
         ((y1 == y2 /\ (x1 + 150 <= x2 \/ x2 + 150 <= x1))
          \/ (y1 + 100 <= y2 \/ y2 + 100 <= y1))%Q.
Proof.
  apply (hierarchical_layout_spreads_nodes (g := fork_acb)).
  - apply targets_known_by_eval. reflexivity.
  - simpl. intros n [<-|[<-|[<-|[]]]]; reflexivity.
Defined.

(** ** Laying out twice *)

Lemma find_node_same nodes nodes' x :
  Forall2 same_node nodes nodes' ->
  match find_node nodes x, find_node nodes' x with
  | Some a, Some b => same_node a b
  | None, None => True
  | _, _ => False
  end.
Proof.
  unfold find_node. induction 1 as [|a b l l' Hab Hl IH]; simpl; auto.
  destruct Hab as [Hid Hrest]. rewrite <- Hid.
  destruct (String.eqb (DAGNode.id a) x); auto. split; auto.
Qed.

Lemma push_child_same nodes nodes' c lvl visited q q' e :
  Forall2 same_node nodes nodes' ->
  Forall2 (fun p p' : DAGNode.t * Z => same_node (fst p) (fst p') /\ snd p = snd p') q q' ->
  Forall2 (fun p p' : DAGNode.t * Z => same_node (fst p) (fst p') /\ snd p = snd p')
    (push_child nodes c lvl visited q e) (push_child nodes' c lvl visited q' e).
Proof.
  intros Hn Hq. unfold push_child.
  destruct (String.eqb (DAGEdge.from_node e) c); auto.
  pose proof (find_node_same (DAGEdge.to_node e) Hn) as Hf.
  destruct (find_node nodes (DAGEdge.to_node e)) as [a|];
    destruct (find_node nodes' (DAGEdge.to_node e)) as [b|]; try contradiction; auto.
  destruct Hf as [Hid Hrest]. rewrite <- Hid.
  destruct (negb (str_in (DAGNode.id a) visited)); auto.
  apply Forall2_app; auto. constructor; auto. simpl. split; auto. split; auto.
Qed.

Lemma push_children_same nodes nodes' c lvl visited edges :
  Forall2 same_node nodes nodes' ->
  forall q q',
  Forall2 (fun p p' : DAGNode.t * Z => same_node (fst p) (fst p') /\ snd p = snd p') q q' ->
  Forall2 (fun p p' : DAGNode.t * Z => same_node (fst p) (fst p') /\ snd p = snd p')
    (fold_left (push_child nodes c lvl visited) edges q)
    (fold_left (push_child nodes' c lvl visited) edges q').
Proof.
  intros Hn. induction edges as [|e edges IH]; intros q q' Hq; cbn [fold_left]; auto.
  apply IH. now apply push_child_same.
Qed.

Lemma level_loop_same nodes nodes' edges :
  Forall2 same_node nodes nodes' ->
  forall fuel q q' visited levels,
  Forall2 (fun p p' : DAGNode.t * Z => same_node (fst p) (fst p') /\ snd p = snd p') q q' ->
  level_loop fuel nodes edges q visited levels
  = level_loop fuel nodes' edges q' visited levels.
Proof.
  intros Hn. induction fuel as [|fuel IH]; intros q q' visited levels Hq;
    destruct Hq as [|[cur lvl] [cur' lvl'] q q' [[Hid _] Hl] Hq]; cbn [level_loop]; auto.
  simpl in Hid, Hl. subst lvl'. rewrite <- Hid.
  destruct (str_in (DAGNode.id cur) visited); auto.
  apply IH. now apply push_children_same.
Qed.

Lemma layout_in_degree_same nodes nodes' edges :
  Forall2 same_node nodes nodes' ->
  layout_in_degree nodes edges = layout_in_degree nodes' edges.
Proof.
  intros Hn. unfold layout_in_degree. f_equal.
  generalize (@PyDict.empty Z). induction Hn as [|a b l l' [Hid _] Hl IH]; intros d; simpl; auto.
  rewrite Hid. apply IH.
Qed.

Lemma filter_r_same in_degree nodes nodes' :
  Forall2 same_node nodes nodes' ->
  match filter_r (zero_in_degree in_degree) nodes,
        filter_r (zero_in_degree in_degree) nodes' with
  | Ok a, Ok b => Forall2 same_node a b
  | Raise e, Raise e' => e = e'
  | OutOfFuel, OutOfFuel => True
  | _, _ => False
  end.
Proof.
  induction 1 as [|a b l l' Hab Hl IH]; cbn [filter_r]; auto.
  assert (Hz : zero_in_degree in_degree a = zero_in_degree in_degree b).
  { unfold zero_in_degree. destruct Hab as [Hid _]. now rewrite Hid. }
  rewrite Hz. destruct (zero_in_degree in_degree b) as [t| |]; cbn [bind]; auto.
  destruct (filter_r (zero_in_degree in_degree) l) as [r| |];
    destruct (filter_r (zero_in_degree in_degree) l') as [r'| |];
    cbn [bind]; try contradiction; auto.
  destruct t; auto.
Qed.

(** The levels depend on the identifiers and the edges only. *)
Lemma compute_levels_same nodes nodes' edges :
  Forall2 same_node nodes nodes' ->
  compute_levels nodes edges = compute_levels nodes' edges.
Proof.
  intros Hn. unfold compute_levels. rewrite (layout_in_degree_same edges Hn).
  destruct (layout_in_degree nodes' edges) as [ind| |]; cbn [bind]; auto.
  pose proof (filter_r_same ind Hn) as Hf.
  destruct (filter_r (zero_in_degree ind) nodes) as [r| |];
    destruct (filter_r (zero_in_degree ind) nodes') as [r'| |];
    cbn [bind]; try contradiction; auto; [|congruence].
  unfold level_fuel. rewrite (Forall2_length Hn).
  apply level_loop_same; auto.
  clear -Hf. induction Hf; simpl; constructor; auto.
Qed.

Lemma place_in_level_fixed node_levels nodes_at_level node node' :
  place_in_level node_levels nodes_at_level node = Ok node' ->
  place_in_level node_levels nodes_at_level node' = Ok node'
  /\ same_node node node'.
Proof.
  unfold place_in_level.
  destruct (PyDict.get node_levels (DAGNode.id node)) as [level|] eqn:E.
  - destruct (PyIntDict.getitem nodes_at_level level) as [ms| |] eqn:Em;
      cbn [bind]; try discriminate.
    destruct (list_index ms (DAGNode.id node)) as [i| |] eqn:Ei;
      cbn [bind]; try discriminate.
    destruct (truediv (inject_Z (len ms)) 2) as [h| |] eqn:Eh;
      cbn [bind]; try discriminate.
    intros H. inversion H. subst node'. cbn [set_position DAGNode.id].
    rewrite E, Em. cbn [bind]. rewrite Ei. cbn [bind]. rewrite Eh. cbn [bind].
    split; [reflexivity|]. repeat split.
  - intros H. inversion H. subst node'. rewrite E. split; auto. apply same_node_refl.
Qed.

Lemma map_r_fixed (f : DAGNode.t -> result DAGNode.t) l : forall l',
  (forall a b, f a = Ok b -> f b = Ok b /\ same_node a b) ->
  map_r f l = Ok l' ->
  map_r f l' = Ok l' /\ Forall2 same_node l l'.
Proof.
  induction l as [|a l IH]; intros l' Hf H; simpl in H.
  - inversion H. subst. split; auto.
  - destruct (f a) as [b| |] eqn:Eb; cbn [bind] in H; try discriminate.
    destruct (map_r f l) as [r| |] eqn:Er; cbn [bind] in H; try discriminate.
    inversion H. subst l'. destruct (Hf _ _ Eb) as [Hb Hs].
    destruct (IH r Hf eq_refl) as [Hr Hs']. simpl. rewrite Hb, Hr. simpl. auto.
Qed.

(** X17. the hierarchical layout is idempotent: laying out a graph that it
    has laid out changes nothing more. The rows and the places in a row
    depend on identifiers and edges only, not on positions. *)
Theorem hierarchical_layout_idempotent (g g1 : DAGElement.t) :
  hierarchical_state g = Ok g1 ->
  hierarchical_state g1 = Ok g1.
Proof.
  unfold hierarchical_state. intros H.
  destruct (compute_levels (DAGElement.nodes g) (DAGElement.edges g)) as [lv| |] eqn:El;
    cbn [bind] in H; try discriminate.
  destruct (map_r (place_in_level lv (group_by_level lv)) (DAGElement.nodes g))
    as [nodes1| |] eqn:Em; cbn [bind] in H; try discriminate.
  inversion H. subst g1. cbn [with_nodes DAGElement.nodes DAGElement.edges].
  destruct (@map_r_fixed (place_in_level lv (group_by_level lv)) (DAGElement.nodes g)
              nodes1) as [Hfix Hsame]; auto.
  { intros a b. apply place_in_level_fixed. }
  rewrite <- (compute_levels_same (DAGElement.edges g) Hsame), El. cbn [bind].
  rewrite Hfix. cbn [bind]. reflexivity.
Qed.

Lemma hierarchical_layout_idempotent_witness :
  exists g1,
    hierarchical_state chain_abc_moved = Ok g1 /\ hierarchical_state g1 = Ok g1.
Proof.
  eexists. split.
  - vm_compute. reflexivity.
  - apply (@hierarchical_layout_idempotent chain_abc_moved). vm_compute. reflexivity.
Defined.

(** ** Layout of a valid graph *)

(** In an acyclic graph with known endpoints the search reaches every
    node. *)
Lemma dag_all_reached nodes edges levels :
  endpoints_known nodes edges -> acyclic edges ->
  (forall v l, PyDict.get levels v = Some l ->
     exists k, l = Z.of_nat k /\ nearest nodes edges k v) ->
  (forall v, PyDict.get levels v = None -> forall k, ~ reached_in nodes edges k v) ->
  forall v, In v (node_ids nodes) -> exists l, PyDict.get levels v = Some l.
Proof.
  intros Hends Hac H5 H6 v Hv.
  destruct (PyDict.get levels v) as [l|] eqn:E; eauto. exfalso.
  set (S := filter (fun x => match PyDict.get levels x with None => true | Some _ => false end)
              (node_ids nodes)).
  apply (acyclic_has_minimal Hac (S := S)).
  - intros HS. assert (Hin : In v S) by (apply filter_In; rewrite E; auto).
    rewrite HS in Hin. contradiction.
  - intros s Hs. apply filter_In in Hs. destruct Hs as [Hs Hnone].
    destruct (PyDict.get levels s) as [l|] eqn:Es; [discriminate|].
    pose proof (H6 s Es) as Hun.
    assert (Hd : indeg edges s <> 0).
    { intros Hz. apply in_map_iff in Hs. destruct Hs as [n [Hid Hn]].
      apply (Hun 0). exists n. split.
      - apply filter_In. split; auto. rewrite Hid, Hz. reflexivity.
      - rewrite Hid. constructor. }
    apply positive_degree_edge in Hd. destruct Hd as [e [He Hto]].
    apply String.eqb_eq in Hto.
    exists (DAGEdge.from_node e). split.
    + apply filter_In. split; [now apply Hends|].
      destruct (PyDict.get levels (DAGEdge.from_node e)) as [l|] eqn:Ef; auto.
      exfalso. destruct (H5 _ _ Ef) as [k [_ [[src [Hsrc Hw]] _]]].
      apply (Hun (Datatypes.S k)). exists src. split; auto.
      eapply walk_snoc; eauto. exists e. auto.
    + apply path_edge. exists e. auto.
Qed.

Lemma Forall2_impl_in {A B : Type} (R R' : A -> B -> Prop) l l' :
  Forall2 R l l' ->
  (forall a b, In a l -> R a b -> R' a b) ->
  Forall2 R' l l'.
Proof.
  induction 1 as [|a b l l' Hab Hl IH]; intros Himp; constructor.
  - apply Himp; auto. now left.
  - apply IH. intros x y Hx. apply Himp. now right.
Qed.

Lemma rows_all_placed levels l l' :
  Forall2 (row_placed levels) l l' ->
  (forall v, In v (node_ids l) -> exists lvl, PyDict.get levels v = Some lvl) ->
  Forall placed l'.
Proof.
  induction 1 as [|a b l l' Hab Hl IH]; intros Hall; constructor.
  - destruct Hab as [[Hn _]|[lvl [ms [i [_ [_ [_ ->]]]]]]].
    + destruct (Hall (DAGNode.id a)) as [x Hx]; [now left|]. congruence.
    + apply placed_set_position.
  - apply IH. intros v Hv. apply Hall. now right.
Qed.

(** X18. On an acyclic graph whose edge endpoints name nodes the
    hierarchical layout places every node, each in the row of its distance
    from the nearest node that no edge enters. *)
Theorem hierarchical_layout_places_every_node (g : DAGElement.t) :
  endpoints_known (DAGElement.nodes g) (DAGElement.edges g) ->
  acyclic (DAGElement.edges g) ->
  exists nodes',
    hierarchical_state g = Ok (with_nodes g nodes')
    /\ Forall2
         (fun node node' =>
            exists k x,
              nearest (DAGElement.nodes g) (DAGElement.edges g) k (DAGNode.id node)
              /\ node' = set_position node (xy x (inject_Z (Z.of_nat k * 100))))
         (DAGElement.nodes g) nodes'
    /\ Forall placed nodes'.
Proof.
  intros Hends Hac.
  assert (Hk : targets_known g) by (intros e He; now apply Hends).
  destruct (hierarchical_rows Hk) as [lv [nodes' [H1 [H2 H3]]]].
  destruct (@compute_levels_distances (DAGElement.nodes g) (DAGElement.edges g) Hk)
    as [lv' [H4 [H5 H6]]].
  rewrite H1 in H4. inversion H4. subst lv'.
  pose proof (@dag_all_reached _ _ lv Hends Hac H5 H6) as Hall.
  exists nodes'. split; auto.
  assert (HF : Forall2
         (fun node node' =>
            exists k x,
              nearest (DAGElement.nodes g) (DAGElement.edges g) k (DAGNode.id node)
              /\ node' = set_position node (xy x (inject_Z (Z.of_nat k * 100))))
         (DAGElement.nodes g) nodes').
  { apply (@Forall2_impl_in _ _ (row_placed lv) _ _ _ H3). intros a b Ha Hab.
    destruct Hab as [[Hn _]|[lvl [ms [i [Hl' [_ [_ ->]]]]]]].
    - destruct (Hall (DAGNode.id a)) as [x Hx]; [now apply in_map|]. congruence.
    - destruct (H5 _ _ Hl') as [k [-> Hnear]]. eauto. }
  split; auto.
  clear -HF. induction HF as [|a b l l' [k [x [_ ->]]] Hl IH]; constructor; auto.
  exists x, (inject_Z (Z.of_nat k * 100)). reflexivity.
Qed.

Lemma hierarchical_layout_places_every_node_witness :
  exists nodes',
    hierarchical_state chain_abc = Ok (with_nodes chain_abc nodes')
    /\ Forall2
         (fun node node' =>
            exists k x,
              nearest (DAGElement.nodes chain_abc) (DAGElement.edges chain_abc) k
                (DAGNode.id node)
              /\ node' = set_position node (xy x (inject_Z (Z.of_nat k * 100))))
         (DAGElement.nodes chain_abc) nodes'
    /\ Forall placed nodes'.
Proof.
  apply (@hierarchical_layout_places_every_node chain_abc).
  - apply known_by_eval. reflexivity.
  - apply (climbs_acyclic (index_of ["a"; "b"; "c"])). reflexivity.
Defined.

(** ** What validation buys *)

Lemma validate_accepts g reasons :
  validate_dag_config g = Ok (true, reasons) ->
  reasons = [] /\ DAGElement.nodes g <> [] /\ well_formed g
  /\ acyclic (DAGElement.edges g).
Proof.
  unfold validate_dag_config.
  destruct (DAGElement.nodes g) as [|n l] eqn:En; [discriminate|].
  rewrite <- En. fold (node_ids (DAGElement.nodes g)).
  destruct (Nat.eqb (List.length (node_ids (DAGElement.nodes g)))
              (List.length (set_of (node_ids (DAGElement.nodes g))))) eqn:Ed; simpl;
    [|discriminate].
  apply distinct_by_size in Ed.
  destruct (first_dangling_edge (node_ids (DAGElement.nodes g)) (DAGElement.edges g))
    as [msg|] eqn:Ee; [discriminate|].
  pose proof (proj1 (first_dangling_none _ _) Ee) as Hk.
  destruct (@check_acyclic_decides g (conj Ed Hk)) as [b [Hb Hiff]].
  rewrite Hb. cbn [bind]. destruct b; simpl; [|discriminate].
  intros H. inversion H. split; auto. split; [rewrite En; discriminate|].
  split; [now split|]. now apply Hiff.
Qed.

(** X19. a graph that [validate_dag_config] accepts goes through the rest of
    the handler without an exception: the topological order holds every
    node once, the execution order has one step per node whatever start
    nodes are passed, the statistics return, and the hierarchical layout
    places every node. *)
Theorem accepted_graph_is_processed (g : DAGElement.t) (reasons : list string) :
  validate_dag_config g = Ok (true, reasons) ->
  (exists order,
     get_topological_order g = Ok order /\ Permutation order (DAGElement.nodes g))
  /\ (forall start_nodes, exists steps,
        generate_execution_order g start_nodes = Ok steps
        /\ Permutation (map ExecutionStep.node_id steps) (node_ids (DAGElement.nodes g)))
  /\ (exists st, get_dag_statistics g = Ok st)
  /\ (exists nodes',
        hierarchical_state g = Ok (with_nodes g nodes') /\ Forall placed nodes').
Proof.
  intros Hv. destruct (validate_accepts g Hv) as [_ [Hne [Hwf Hac]]].
  destruct (topological_order_ok Hwf) as [order [ind [Hrun Hinv]]].
  destruct Hwf as [Huniq Hends].
  pose proof (kahn_complete Huniq Hends Hac Hinv) as Hperm.
  split; [eauto|]. split; [|split].
  - intros start_nodes. rewrite execution_order_unfold, Hrun. cbn [bind].
    eexists. split; [reflexivity|]. rewrite number_steps_ids.
    now apply Permutation_map.
  - now apply get_dag_statistics_returns.
  - assert (Hk : targets_known g) by (intros e He; now apply Hends).
    destruct (hierarchical_rows Hk) as [lv [nodes' [H1 [H2 H3]]]].
    destruct (@compute_levels_distances (DAGElement.nodes g) (DAGElement.edges g) Hk)
      as [lv' [H4 [H5 H6]]].
    rewrite H1 in H4. inversion H4. subst lv'.
    exists nodes'. split; auto. apply (rows_all_placed H3).
    apply (@dag_all_reached _ _ lv Hends Hac H5 H6).
Qed.

Lemma accepted_graph_is_processed_witness :
  (exists order,
     get_topological_order chain_abc = Ok order
     /\ Permutation order (DAGElement.nodes chain_abc))
  /\ (forall start_nodes, exists steps,
        generate_execution_order chain_abc start_nodes = Ok steps
        /\ Permutation (map ExecutionStep.node_id steps)
             (node_ids (DAGElement.nodes chain_abc)))
  /\ (exists st, get_dag_statistics chain_abc = Ok st)
  /\ (exists nodes',
        hierarchical_state chain_abc = Ok (with_nodes chain_abc nodes')
        /\ Forall placed nodes').
Proof.
  apply (@accepted_graph_is_processed chain_abc []). reflexivity.
Defined.

(** ** Termination *)

Lemma hierarchical_state_stops g : hierarchical_state g <> OutOfFuel.
Proof.
  unfold hierarchical_state.
  pose proof (compute_levels_stops (DAGElement.nodes g) (DAGElement.edges g)) as Hc.
  destruct (compute_levels (DAGElement.nodes g) (DAGElement.edges g)) as [lv| |];
    cbn [bind]; try discriminate; [|now elim Hc].
  destruct (@map_r_rel _ _ (place_in_level lv (group_by_level lv)) (row_placed lv)
              (DAGElement.nodes g)) as [nodes' [H1 _]].
  { intros n. apply place_in_level_rows. }
  rewrite H1. discriminate.
Qed.

Lemma validate_stops g : validate_dag_config g <> OutOfFuel.
Proof.
  unfold validate_dag_config.
  destruct (DAGElement.nodes g) as [|n l] eqn:En; [discriminate|]. rewrite <- En.
  destruct (negb _); [discriminate|].
  destruct (first_dangling_edge _ _); [discriminate|].
  pose proof (check_acyclic_stops (DAGElement.nodes g) (DAGElement.edges g)) as Hc.
  destruct (_check_acyclic (DAGElement.nodes g) (DAGElement.edges g)) as [b| |];
    cbn [bind]; try discriminate; [|now elim Hc].
  destruct (negb b); discriminate.
Qed.

(** X20. every [while] loop of the handler terminates on every input, also
    on graphs with repeated identifiers, edges that name no node, or
    cycles: the two loops of Kahn's algorithm within [2 * n] rounds and
    the search of the hierarchical layout within [n * (m + 2)] rounds, for
    [n] nodes and [m] edges. So do the calls built on them. *)
Theorem loops_terminate (g : DAGElement.t) (start_nodes : option (list string)) :
  get_topological_order g <> OutOfFuel
  /\ _check_acyclic (DAGElement.nodes g) (DAGElement.edges g) <> OutOfFuel
  /\ compute_levels (DAGElement.nodes g) (DAGElement.edges g) <> OutOfFuel
  /\ validate_dag_config g <> OutOfFuel
  /\ generate_execution_order g start_nodes <> OutOfFuel
  /\ hierarchical_state g <> OutOfFuel.
Proof.
  split; [apply get_topological_order_stops|].
  split; [apply check_acyclic_stops|].
  split; [apply compute_levels_stops|].
  split; [apply validate_stops|].
  split; [|apply hierarchical_state_stops].
  rewrite execution_order_unfold.
  pose proof (get_topological_order_stops g) as Hs.
  destruct (get_topological_order g); cbn [bind]; try discriminate. now elim Hs.
Qed.
